(** * UltraBalancer Pro: selection strategies, circuit breaker, rate
      limiters and connection pool

    A shallow embedding of the Python sources under [src/plugins],
    [src/reliability] and [src/core/connection_pool.py].

    Conventions of the embedding.
    - Python [int] is [Z]; list positions and loop fuel are [nat].
    - In the circuit breaker, the sliding window and the pool a Python
      [float] is a clock reading or a rate that is only compared, subtracted
      or truncated once, and is idealised as an exact rational [Q].  In the
      token bucket, whose arithmetic accumulates, a [float] is the binary64
      double it is (a primitive [float]), an [int] stays an [int], and the
      two mix as Python mixes them.
    - [time.time()] is an explicit argument of every operation that reads
      the clock; the reads made inside one pool operation see one instant.
    - A [dict] keyed by strings is a [gmap string _]; where the iteration
      order of the dict is observable it is an insertion-ordered
      association list instead.
    - Every method takes the object state and returns the new state next to
      its result; a method that can raise returns an [outcome].
    - Locks are not modelled: each method body runs atomically. *)

From Stdlib Require Import ZArith QArith Qminmax Lia Lqa List Floats.
From stdpp Require Import gmap strings list fin_maps.

Local Open Scope Z_scope.

(** ** Python exceptions and results *)

Inductive exn : Type :=
  | IndexError
  | ValueError
  | RuntimeError
  | CircuitOpenError
  | OverflowError
  | BaseException.

Inductive outcome (A : Type) : Type :=
  | Return (a : A)
  | Raise (e : exn).
Arguments Return {A} a.
Arguments Raise {A} e.

(** [l[i]] for a Python list: negative positions count from the end, and a
    position outside [-len, len) raises [IndexError]. *)
Definition py_index {A} (l : list A) (i : Z) : outcome A :=
  let n := Z.of_nat (length l) in
  if (0 <=? i) && (i <? n) then
    match l !! Z.to_nat i with Some x => Return x | None => Raise IndexError end
  else if (- n <=? i) && (i <? 0) then
    match l !! Z.to_nat (n + i) with Some x => Return x | None => Raise IndexError end
  else Raise IndexError.

(** Truthiness of a Python [str]: only the empty string is falsy. *)
Definition str_truthy (s : string) : bool :=
  match s with EmptyString => false | String _ _ => true end.

(** [int(x)] on a float: truncation towards zero. *)
Definition py_int (x : Q) : Z := Z.quot (Qnum x) (Z.pos (Qden x)).

(** ** Circuit breaker ([src/reliability/circuit_breaker.py]) *)

Module CircuitBreaker.

Inductive CircuitState : Type := CLOSED | OPEN | HALF_OPEN.

#[global] Instance CircuitState_eq_dec : EqDecision CircuitState.
Proof. solve_decision. Defined.

Record CircuitBreakerConfig : Type := {
  failure_threshold : Z;
  success_threshold : Z;
  timeout : Q;
  window_size : Z
}.

Record Stats : Type := {
  total_calls : Z;
  successful_calls : Z;
  failed_calls : Z;
  rejected_calls : Z;
  state_changes : Z
}.

Record t : Type := {
  config : CircuitBreakerConfig;
  state : CircuitState;
  failure_count : Z;
  success_count : Z;
  last_failure_time : Q;
  call_history : list bool;
  stats : Stats
}.

Definition default_config : CircuitBreakerConfig :=
  {| failure_threshold := 5; success_threshold := 2;
     timeout := 60; window_size := 10 |}.

(** [__init__] *)
Definition init (cfg : CircuitBreakerConfig) : t :=
  {| config := cfg; state := CLOSED; failure_count := 0; success_count := 0;
     last_failure_time := 0; call_history := [];
     stats := {| total_calls := 0; successful_calls := 0; failed_calls := 0;
                 rejected_calls := 0; state_changes := 0 |} |}.

Definition bump_state_changes (s : Stats) : Stats :=
  {| total_calls := total_calls s; successful_calls := successful_calls s;
     failed_calls := failed_calls s; rejected_calls := rejected_calls s;
     state_changes := state_changes s + 1 |}.

Definition bump_total (s : Stats) : Stats :=
  {| total_calls := total_calls s + 1; successful_calls := successful_calls s;
     failed_calls := failed_calls s; rejected_calls := rejected_calls s;
     state_changes := state_changes s |}.

Definition bump_successful (s : Stats) : Stats :=
  {| total_calls := total_calls s; successful_calls := successful_calls s + 1;
     failed_calls := failed_calls s; rejected_calls := rejected_calls s;
     state_changes := state_changes s |}.

Definition bump_failed (s : Stats) : Stats :=
  {| total_calls := total_calls s; successful_calls := successful_calls s;
     failed_calls := failed_calls s + 1; rejected_calls := rejected_calls s;
     state_changes := state_changes s |}.

Definition bump_rejected (s : Stats) : Stats :=
  {| total_calls := total_calls s; successful_calls := successful_calls s;
     failed_calls := failed_calls s; rejected_calls := rejected_calls s + 1;
     state_changes := state_changes s |}.

(** [_change_state]; [now] is the clock read made when entering [OPEN]. *)
Definition _change_state (cb : t) (new_state : CircuitState) (now : Q) : t :=
  if decide (state cb = new_state) then cb
  else
    let st' := bump_state_changes (stats cb) in
    match new_state with
    | OPEN =>
        {| config := config cb; state := OPEN;
           failure_count := failure_count cb; success_count := success_count cb;
           last_failure_time := now; call_history := call_history cb;
           stats := st' |}
    | CLOSED =>
        {| config := config cb; state := CLOSED;
           failure_count := 0; success_count := 0;
           last_failure_time := last_failure_time cb; call_history := [];
           stats := st' |}
    | HALF_OPEN =>
        {| config := config cb; state := HALF_OPEN;
           failure_count := failure_count cb; success_count := success_count cb;
           last_failure_time := last_failure_time cb;
           call_history := call_history cb; stats := st' |}
    end.

(** [_should_attempt_reset] *)
Definition _should_attempt_reset (cb : t) (now : Q) : bool :=
  if decide (state cb = OPEN) then
    Qle_bool (timeout (config cb)) (now - last_failure_time cb)
  else false.

(** [get_state] *)
Definition get_state (cb : t) : CircuitState := state cb.

(** [is_available]: the body assigns nothing, so the breaker it hands back
    is the one it was given. *)
Definition is_available (cb : t) (now : Q) : bool * t :=
  if _should_attempt_reset cb now then (true, cb)
  else (negb (bool_decide (state cb = OPEN)), cb).

Definition with_stats (cb : t) (s : Stats) : t :=
  {| config := config cb; state := state cb;
     failure_count := failure_count cb; success_count := success_count cb;
     last_failure_time := last_failure_time cb;
     call_history := call_history cb; stats := s |}.

(** The history append followed by the trim to [window_size]. *)
Definition push_history (cfg : CircuitBreakerConfig) (h : list bool) (ok : bool)
  : list bool :=
  let h' := h ++ [ok] in
  if window_size cfg <? Z.of_nat (length h') then tail h' else h'.

(** [_record_success] *)
Definition _record_success (cb : t) (now : Q) : t :=
  let cb1 :=
    {| config := config cb; state := state cb;
       failure_count := failure_count cb; success_count := success_count cb;
       last_failure_time := last_failure_time cb;
       call_history := push_history (config cb) (call_history cb) true;
       stats := bump_successful (stats cb) |} in
  match state cb1 with
  | HALF_OPEN =>
      let cb2 :=
        {| config := config cb1; state := state cb1;
           failure_count := failure_count cb1;
           success_count := success_count cb1 + 1;
           last_failure_time := last_failure_time cb1;
           call_history := call_history cb1; stats := stats cb1 |} in
      if success_threshold (config cb2) <=? success_count cb2
      then _change_state cb2 CLOSED now else cb2
  | CLOSED =>
      {| config := config cb1; state := state cb1;
         failure_count := 0; success_count := success_count cb1;
         last_failure_time := last_failure_time cb1;
         call_history := call_history cb1; stats := stats cb1 |}
  | OPEN => cb1
  end.

(** [_record_failure] *)
Definition _record_failure (cb : t) (now : Q) : t :=
  let cb1 :=
    {| config := config cb; state := state cb;
       failure_count := failure_count cb + 1; success_count := success_count cb;
       last_failure_time := last_failure_time cb;
       call_history := push_history (config cb) (call_history cb) false;
       stats := bump_failed (stats cb) |} in
  match state cb1 with
  | HALF_OPEN => _change_state cb1 OPEN now
  | _ =>
      if failure_threshold (config cb1) <=? failure_count cb1
      then _change_state cb1 OPEN now else cb1
  end.

(** The locked prologue of [call]: count the call, move an [OPEN] breaker
    whose cooldown has elapsed to [HALF_OPEN], reject if still [OPEN]. *)
Definition call_admit (cb : t) (now : Q) : outcome unit * t :=
  let cb1 := with_stats cb (bump_total (stats cb)) in
  let cb2 := if _should_attempt_reset cb1 now
             then _change_state cb1 HALF_OPEN now else cb1 in
  if decide (state cb2 = OPEN)
  then (Raise CircuitOpenError, with_stats cb2 (bump_rejected (stats cb2)))
  else (Return tt, cb2).

(** [call]: [func_ok] says whether the wrapped operation returned ([true])
    or raised ([false]); [now] is read by the prologue, [now'] when the
    outcome is recorded.  The result is [Return true] when the operation's
    own result is passed on and [Return false] when its exception is
    re-raised. *)
Definition call (cb : t) (now now' : Q) (func_ok : bool) : outcome bool * t :=
  match call_admit cb now with
  | (Raise e, cb') => (Raise e, cb')
  | (Return _, cb') =>
      if func_ok then (Return true, _record_success cb' now')
      else (Return false, _record_failure cb' now')
  end.

(** [reset] *)
Definition reset (cb : t) (now : Q) : t := _change_state cb CLOSED now.

(** A run of [call]s: each item gives the two clock readings of a call and
    whether its operation succeeds; the results are collected in call
    order. *)
Fixpoint calls (cb : t) (l : list (Q * Q * bool)) : list (outcome bool) * t :=
  match l with
  | [] => ([], cb)
  | (now, now', func_ok) :: rest =>
      let '(r, cb1) := call cb now now' func_ok in
      let '(rs, cb2) := calls cb1 rest in
      (r :: rs, cb2)
  end.

(** How the operation wrapped by a [call] ends: it returns; it raises an
    [Exception], which [call] records as a failure and re-raises; or it
    raises a [BaseException] that is not an [Exception] ([KeyboardInterrupt],
    [SystemExit], [GeneratorExit]), which [except Exception] does not
    catch. *)
Inductive func_end : Type :=
  | Returns
  | RaisesException
  | RaisesBaseException.

(** [call] with the three ends of its operation.  An exception that is not
    an [Exception] leaves [call] after the prologue has counted the call,
    with neither [_record_success] nor [_record_failure] run. *)
Definition call_func (cb : t) (now now' : Q) (f : func_end)
  : outcome bool * t :=
  match f with
  | Returns => call cb now now' true
  | RaisesException => call cb now now' false
  | RaisesBaseException =>
      match call_admit cb now with
      | (Raise e, cb') => (Raise e, cb')
      | (Return _, cb') => (Raise BaseException, cb')
      end
  end.

(** A run of [call]s, each with its two clock readings and the end of its
    operation. *)
Fixpoint calls_func (cb : t) (l : list (Q * Q * func_end))
  : list (outcome bool) * t :=
  match l with
  | [] => ([], cb)
  | (now, now', f) :: rest =>
      let '(r, cb1) := call_func cb now now' f in
      let '(rs, cb2) := calls_func cb1 rest in
      (r :: rs, cb2)
  end.

End CircuitBreaker.

(** ** Round robin ([src/plugins/round_robin.py]) *)

Module RoundRobin.

Record t : Type := { current_index : Z }.

(** [__init__] *)
Definition init : t := {| current_index := 0 |}.

(** [select_server]: an empty list gives [None]; otherwise the element at
    [current_index] is read (which raises when that position is outside the
    list) and the index becomes [(current_index + 1) % len(servers)]. *)
Definition select_server {A} (rr : t) (servers : list A)
  : outcome (option A) * t :=
  match servers with
  | [] => (Return None, rr)
  | _ :: _ =>
      match py_index servers (current_index rr) with
      | Raise e => (Raise e, rr)
      | Return selected_server =>
          (Return (Some selected_server),
           {| current_index :=
                (current_index rr + 1) mod Z.of_nat (length servers) |})
      end
  end.

(** [reset] *)
Definition reset (rr : t) : t := {| current_index := 0 |}.

(** [count] successive calls of [select_server] on the same list; a call
    that raises ends the run. *)
Fixpoint select_many {A} (count : nat) (rr : t) (servers : list A)
  : outcome (list (option A)) * t :=
  match count with
  | O => (Return [], rr)
  | S count' =>
      match select_server rr servers with
      | (Raise e, rr1) => (Raise e, rr1)
      | (Return x, rr1) =>
          match select_many count' rr1 servers with
          | (Raise e, rr2) => (Raise e, rr2)
          | (Return xs, rr2) => (Return (x :: xs), rr2)
          end
      end
  end.

End RoundRobin.

(** ** Weighted round robin ([src/plugins/weighted_round_robin.py]) *)

Module WeightedRoundRobin.

Record t : Type := {
  current_index : Z;
  current_weight : Z;
  max_weight : Z;
  gcd_weight : Z;
  backend_weights : gmap string Z
}.

(** [__init__] *)
Definition init : t :=
  {| current_index := 0; current_weight := 0; max_weight := 0;
     gcd_weight := 0; backend_weights := ∅ |}.

(** [list(self.backend_weights.values())] *)
Definition weight_values (m : gmap string Z) : list Z := (map_to_list m).*2.

(** [max(weights)] on a list known to be non-empty. *)
Definition py_max (numbers : list Z) : Z :=
  match numbers with
  | [] => 0
  | x :: rest => foldl Z.max x rest
  end.

(** [_gcd_list] *)
Definition _gcd_list (numbers : list Z) : Z :=
  match numbers with
  | [] => 0
  | x :: rest => foldl Z.gcd x rest
  end.

(** [_recalculate_weights] *)
Definition _recalculate_weights (st : t) : t :=
  match weight_values (backend_weights st) with
  | [] =>
      {| current_index := current_index st; current_weight := current_weight st;
         max_weight := 0; gcd_weight := 0;
         backend_weights := backend_weights st |}
  | weights =>
      {| current_index := current_index st; current_weight := current_weight st;
         max_weight := py_max weights; gcd_weight := _gcd_list weights;
         backend_weights := backend_weights st |}
  end.

(** [set_backend_weight] *)
Definition set_backend_weight (st : t) (backend_id : string) (weight : Z)
  : outcome unit * t :=
  if weight <=? 0 then (Raise ValueError, st)
  else
    (Return tt,
     _recalculate_weights
       {| current_index := current_index st;
          current_weight := current_weight st;
          max_weight := max_weight st; gcd_weight := gcd_weight st;
          backend_weights := <[backend_id := weight]> (backend_weights st) |}).

(** The first loop of [select_backend]: every backend without a registered
    weight gets the default weight 1. *)
Definition ensure_weight (st : t) (backend : string) : t :=
  match backend_weights st !! backend with
  | Some _ => st
  | None => snd (set_backend_weight st backend 1)
  end.

Definition ensure_weights (st : t) (backends : list string) : t :=
  foldl ensure_weight st backends.

(** [self.backend_weights.get(backend, 1)] *)
Definition weight_of (st : t) (backend : string) : Z :=
  default 1 (backend_weights st !! backend).

(** One pass through the body of the [while True] loop: the index advance,
    and the weight decrement when the index wraps to 0. *)
Definition advance (st : t) (len : Z) : t :=
  let idx := (current_index st + 1) mod len in
  let cw :=
    if idx =? 0 then
      let cw1 := current_weight st - gcd_weight st in
      if cw1 <=? 0 then max_weight st else cw1
    else current_weight st in
  {| current_index := idx; current_weight := cw;
     max_weight := max_weight st; gcd_weight := gcd_weight st;
     backend_weights := backend_weights st |}.

(** The [while True] loop, with [fuel] bounding the number of passes;
    [None] means the fuel ran out before the loop returned. *)
Fixpoint select_loop (fuel : nat) (st : t) (backends : list string)
  : option (outcome (option string) * t) :=
  match fuel with
  | O => None
  | S fuel' =>
      let st1 := advance st (Z.of_nat (length backends)) in
      if (current_index st1 =? 0) && (current_weight st1 =? 0)
      then Some (Return None, st1)
      else
        match py_index backends (current_index st1) with
        | Raise e => Some (Raise e, st1)
        | Return backend =>
            if current_weight st1 <=? weight_of st1 backend
            then Some (Return (Some backend), st1)
            else select_loop fuel' st1 backends
        end
  end.

(** [select_backend] *)
Definition select_backend (fuel : nat) (st : t) (backends : list string)
  : option (outcome (option string) * t) :=
  match backends with
  | [] => Some (Return None, st)
  | _ :: _ => select_loop fuel (ensure_weights st backends) backends
  end.

(** [count] successive calls of [select_backend] on the same list, each with
    the same fuel; the selected backends are collected in call order.  A
    call that does not return a backend ends the run with [None]. *)
Fixpoint select_many (fuel count : nat) (st : t) (backends : list string)
  : option (list string * t) :=
  match count with
  | O => Some ([], st)
  | S count' =>
      match select_backend fuel st backends with
      | Some (Return (Some b), st1) =>
          match select_many fuel count' st1 backends with
          | Some (picks, st2) => Some (b :: picks, st2)
          | None => None
          end
      | _ => None
      end
  end.

(** Registration of a list of (backend, weight) pairs, in list order. *)
Fixpoint register (st : t) (ws : list (string * Z)) : outcome unit * t :=
  match ws with
  | [] => (Return tt, st)
  | (b, w) :: rest =>
      match set_backend_weight st b w with
      | (Raise e, st1) => (Raise e, st1)
      | (Return _, st1) => register st1 rest
      end
  end.

End WeightedRoundRobin.

(** ** Least connections ([src/plugins/least_connections.py]) *)

Module LeastConnections.

Record t : Type := {
  servers : list string;
  connections : gmap string Z
}.

(** [__init__] *)
Definition init (servers : list string) : outcome t :=
  match servers with
  | [] => Raise ValueError
  | _ => Return {| servers := servers; connections := ∅ |}
  end.

(** [self.connections[server]] on a [defaultdict(int)]: a missing key is
    inserted with 0 by the read. *)
Definition read_count (conns : gmap string Z) (server : string)
  : Z * gmap string Z :=
  match conns !! server with
  | Some c => (c, conns)
  | None => (0, <[server := 0]> conns)
  end.

(** The scan of [get_next_server].  [best] is the pair
    [(min_connections, selected_server)], [None] standing for the initial
    [(inf, None)]. *)
Fixpoint scan (l : list string) (conns : gmap string Z)
    (best : option (Z * string)) : option (Z * string) * gmap string Z :=
  match l with
  | [] => (best, conns)
  | server :: rest =>
      let '(current_connections, conns1) := read_count conns server in
      let best1 :=
        match best with
        | None => Some (current_connections, server)
        | Some (min_connections, _) =>
            if current_connections <? min_connections
            then Some (current_connections, server) else best
        end in
      scan rest conns1 best1
  end.

(** [get_next_server] *)
Definition get_next_server (st : t) : option string * t :=
  match servers st with
  | [] => (None, st)
  | _ =>
      let '(best, conns1) := scan (servers st) (connections st) None in
      match best with
      | None => (None, {| servers := servers st; connections := conns1 |})
      | Some (_, selected_server) =>
          let conns2 :=
            if str_truthy selected_server
            then <[selected_server :=
                     fst (read_count conns1 selected_server) + 1]> conns1
            else conns1 in
          (Some selected_server,
           {| servers := servers st; connections := conns2 |})
      end
  end.

(** [release_connection] *)
Definition release_connection (st : t) (server : string) : t :=
  match connections st !! server with
  | Some c =>
      if 0 <? c
      then {| servers := servers st;
              connections := <[server := c - 1]> (connections st) |}
      else st
  | None => st
  end.

(** The count reported for a server ([get_server_stats], 0 when absent). *)
Definition count_of (st : t) (server : string) : Z :=
  default 0 (connections st !! server).

(** [add_server] *)
Definition add_server (st : t) (server : string) : t :=
  if bool_decide (server ∈ servers st) then st
  else {| servers := servers st ++ [server];
          connections := <[server := 0]> (connections st) |}.

(** [list.remove(x)]: the first occurrence of [x] is taken out. *)
Fixpoint list_remove (x : string) (l : list string) : list string :=
  match l with
  | [] => []
  | y :: rest => if decide (y = x) then rest else y :: list_remove x rest
  end.

(** [remove_server] *)
Definition remove_server (st : t) (server : string) : bool * t :=
  if bool_decide (server ∈ servers st) then
    (true, {| servers := list_remove server (servers st);
              connections := delete server (connections st) |})
  else (false, st).

(** [get_server_stats]: a copy of the connection table. *)
Definition get_server_stats (st : t) : gmap string Z := connections st.

(** [reset_connections] *)
Definition reset_connections (st : t) : t :=
  {| servers := servers st;
     connections :=
       foldl (fun conns server => <[server := 0]> conns) (connections st)
             (servers st) |}.

(** The operations of the algorithm, and a run of them. *)
Inductive op : Type :=
  | GetNext
  | Release (server : string)
  | AddServer (server : string)
  | RemoveServer (server : string)
  | ResetConnections.

Definition step (st : t) (o : op) : t :=
  match o with
  | GetNext => snd (get_next_server st)
  | Release server => release_connection st server
  | AddServer server => add_server st server
  | RemoveServer server => snd (remove_server st server)
  | ResetConnections => reset_connections st
  end.

Definition run (st : t) (ops : list op) : t := foldl step st ops.

End LeastConnections.

(** ** IP hash ([src/plugins/ip_hash.py]) *)

Module IPHash.

Record Stats : Type := {
  total_requests : Z;
  cache_hits : Z;
  unique_clients : Z
}.

Record t : Type := {
  backend_cache : gmap string string;
  stats : Stats
}.

(** [__init__] *)
Definition init : t :=
  {| backend_cache := ∅;
     stats := {| total_requests := 0; cache_hits := 0; unique_clients := 0 |} |}.

Section WithHash.

(** [int(hashlib.md5(client_ip.encode('utf-8')).hexdigest(), 16)]: the
    digest is computed by the Python standard library and is kept abstract.
    The client ids of this model are the strings that [encode('utf-8')]
    accepts; a Python [str] that holds a lone surrogate has no digest
    ([encode] raises [UnicodeEncodeError]) and is not among them. *)
Variable md5_int : string -> Z.

(** [_hash_ip] *)
Definition _hash_ip (client_ip : string) (backend_count : Z) : Z :=
  md5_int client_ip mod backend_count.

(** [select_backend] *)
Definition select_backend (st : t) (backends : list string) (client_ip : string)
  : outcome (option string) * t :=
  match backends with
  | [] => (Return None, st)
  | first :: _ =>
      if negb (str_truthy client_ip) then (Return (Some first), st)
      else
        let stats1 :=
          {| total_requests := total_requests (stats st) + 1;
             cache_hits := cache_hits (stats st);
             unique_clients := unique_clients (stats st) |} in
        let cached :=
          match backend_cache st !! client_ip with
          | Some cached_backend =>
              if bool_decide (cached_backend ∈ backends)
              then (Some cached_backend, backend_cache st)
              else (None, delete client_ip (backend_cache st))
          | None => (None, backend_cache st)
          end in
        match cached with
        | (Some cached_backend, cache1) =>
            (Return (Some cached_backend),
             {| backend_cache := cache1;
                stats := {| total_requests := total_requests stats1;
                            cache_hits := cache_hits stats1 + 1;
                            unique_clients := unique_clients stats1 |} |})
        | (None, cache1) =>
            let backend_index :=
              _hash_ip client_ip (Z.of_nat (length backends)) in
            match py_index backends backend_index with
            | Raise e =>
                (Raise e, {| backend_cache := cache1; stats := stats1 |})
            | Return selected_backend =>
                let stats2 :=
                  match cache1 !! client_ip with
                  | None =>
                      {| total_requests := total_requests stats1;
                         cache_hits := cache_hits stats1;
                         unique_clients := unique_clients stats1 + 1 |}
                  | Some _ => stats1
                  end in
                (Return (Some selected_backend),
                 {| backend_cache := <[client_ip := selected_backend]> cache1;
                    stats := stats2 |})
            end
        end
  end.

(** [count] successive calls of [select_backend] with the same backend list
    and the same client; the results are collected in call order. *)
Fixpoint select_many (count : nat) (st : t) (backends : list string)
    (client_ip : string) : list (outcome (option string)) * t :=
  match count with
  | O => ([], st)
  | S count' =>
      let '(r, st1) := select_backend st backends client_ip in
      let '(rs, st2) := select_many count' st1 backends client_ip in
      (r :: rs, st2)
  end.

(** The operations of the plugin, and a run of them. *)
Inductive op : Type :=
  | Select (backends : list string) (client_ip : string)
  | RemoveBackend (backend_id : string)
  | ClearCache.

End WithHash.

(** The list comprehension of [remove_backend]. *)
Definition clients_to_remove (cache : gmap string string) (backend_id : string)
  : list string :=
  (filter (fun kv => kv.2 = backend_id) (map_to_list cache)).*1.

(** [remove_backend] *)
Definition remove_backend (st : t) (backend_id : string) : t :=
  {| backend_cache :=
       foldl (fun cache ip => delete ip cache) (backend_cache st)
             (clients_to_remove (backend_cache st) backend_id);
     stats := stats st |}.

(** [clear_cache] *)
Definition clear_cache (st : t) : t :=
  {| backend_cache := ∅;
     stats := {| total_requests := total_requests (stats st);
                 cache_hits := cache_hits (stats st);
                 unique_clients := 0 |} |}.

Definition step (md5_int : string -> Z) (st : t) (o : op) : t :=
  match o with
  | Select backends client_ip =>
      snd (select_backend md5_int st backends client_ip)
  | RemoveBackend backend_id => remove_backend st backend_id
  | ClearCache => clear_cache st
  end.

Definition run (md5_int : string -> Z) (st : t) (ops : list op) : t :=
  foldl (step md5_int) st ops.

End IPHash.

(** ** Rate limiters ([src/reliability/rate_limiter.py]) *)

Record RateLimitConfig : Type := {
  requests_per_second : Q;
  burst_size : Z
}.

Record LimiterStats : Type := {
  total_requests : Z;
  accepted_requests : Z;
  rejected_requests : Z
}.

Definition limiter_stats0 : LimiterStats :=
  {| total_requests := 0; accepted_requests := 0; rejected_requests := 0 |}.

Definition count_request (s : LimiterStats) : LimiterStats :=
  {| total_requests := total_requests s + 1;
     accepted_requests := accepted_requests s;
     rejected_requests := rejected_requests s |}.

Definition count_accepted (s : LimiterStats) : LimiterStats :=
  {| total_requests := total_requests s;
     accepted_requests := accepted_requests s + 1;
     rejected_requests := rejected_requests s |}.

Definition count_rejected (s : LimiterStats) : LimiterStats :=
  {| total_requests := total_requests s;
     accepted_requests := accepted_requests s;
     rejected_requests := rejected_requests s + 1 |}.

(** ** Python numbers: [int] and [float] together

    A Python [float] is a binary64 double, here a primitive [float], whose
    operations round to nearest, ties to even.  The token bucket mixes the
    two kinds: its capacity and the cost of a request are [int]s, its rate
    and its clock readings are [float]s, and its token count is a [float]
    or an [int] by turns. *)

Inductive pynum : Type :=
  | PInt (n : Z)
  | PFloat (x : float).

(** [float(n)]: the double nearest to the int [n], ties to even, and
    [OverflowError] when that is beyond the largest double. *)
Definition float_of_int (n : Z) : outcome float :=
  match binary_normalize prec emax n 0 false with
  | S754_infinity _ => Raise OverflowError
  | s => Return (SF2Prim s)
  end.

(** How Python orders a float and an int: by their exact values, the int
    never converted.  A finite double is a whole number of float_units of
    [2^-1074], so both sides are counted in that unit; a nan compares with
    nothing. *)
Definition float_compare_int (x : float) (n : Z) : option comparison :=
  match Prim2SF x with
  | S754_nan => None
  | S754_infinity s => Some (if s then Lt else Gt)
  | S754_zero _ => Some (0 ?= n)
  | S754_finite s m e =>
      Some (cond_Zopp s (Z.pos m) * 2 ^ (e + 1074) ?= n * 2 ^ 1074)
  end.

(** [x < n], [x >= n] and [x <= n] for a float [x] and an int [n]. *)
Definition float_lt_int (x : float) (n : Z) : bool :=
  match float_compare_int x n with Some Lt => true | _ => false end.

Definition float_ge_int (x : float) (n : Z) : bool :=
  match float_compare_int x n with Some (Eq | Gt) => true | _ => false end.

Definition float_le_int (x : float) (n : Z) : bool :=
  match float_compare_int x n with Some (Lt | Eq) => true | _ => false end.

(** [a >= n] and [a <= n] for a number [a] and an int [n]. *)
Definition num_ge_int (a : pynum) (n : Z) : bool :=
  match a with
  | PInt k => n <=? k
  | PFloat x => float_ge_int x n
  end.

Definition num_le_int (a : pynum) (n : Z) : bool :=
  match a with
  | PInt k => k <=? n
  | PFloat x => float_le_int x n
  end.

(** [a + y] for a float [y]: an int [a] is converted first. *)
Definition num_add_float (a : pynum) (y : float) : outcome float :=
  match a with
  | PInt k =>
      match float_of_int k with
      | Return x => Return (x + y)%float
      | Raise e => Raise e
      end
  | PFloat x => Return (x + y)%float
  end.

(** [a - n] for an int [n]: exact between ints, and on a float [a] the
    float difference with [float(n)]. *)
Definition num_sub_int (a : pynum) (n : Z) : outcome pynum :=
  match a with
  | PInt k => Return (PInt (k - n))
  | PFloat x =>
      match float_of_int n with
      | Return y => Return (PFloat (x - y)%float)
      | Raise e => Raise e
      end
  end.

(** [min(n, x)] for an int [n] and a float [x]: the second argument only
    when it is strictly smaller, so [n] itself, an int, otherwise (also
    for a nan). *)
Definition py_min (n : Z) (x : float) : pynum :=
  if float_lt_int x n then PFloat x else PInt n.

Module TokenBucket.

Record t : Type := {
  capacity : Z;
  tokens : pynum;
  rate : float;
  last_update : float;
  stats : LimiterStats
}.

(** [__init__], at clock reading [now].  The configuration is passed as
    the two fields the constructor reads from it, [burst_size] an int and
    [requests_per_second] the double itself ([RateLimitConfig] above holds
    the rate as a rational, for the sliding window);
    [float(self.capacity)] can raise. *)
Definition init (burst_size : Z) (requests_per_second : float) (now : float)
    : outcome t :=
  match float_of_int burst_size with
  | Raise e => Raise e
  | Return full =>
      Return {| capacity := burst_size; tokens := PFloat full;
                rate := requests_per_second; last_update := now;
                stats := limiter_stats0 |}
  end.

(** [_refill_tokens]; an exception leaves the bucket as it was. *)
Definition _refill_tokens (tb : t) (now : float) : outcome t :=
  let elapsed := (now - last_update tb)%float in
  let tokens_to_add := (elapsed * rate tb)%float in
  match num_add_float (tokens tb) tokens_to_add with
  | Raise e => Raise e
  | Return refilled =>
      Return {| capacity := capacity tb;
                tokens := py_min (capacity tb) refilled;
                rate := rate tb; last_update := now; stats := stats tb |}
  end.

Definition with_stats (tb : t) (s : LimiterStats) : t :=
  {| capacity := capacity tb; tokens := tokens tb; rate := rate tb;
     last_update := last_update tb; stats := s |}.

(** [allow_request]; [cost] is the parameter the source names [tokens]. *)
Definition allow_request (tb : t) (now : float) (cost : Z)
    : outcome bool * t :=
  let tb0 := with_stats tb (count_request (stats tb)) in
  match _refill_tokens tb0 now with
  | Raise e => (Raise e, tb0)
  | Return tb1 =>
      if num_ge_int (tokens tb1) cost then
        match num_sub_int (tokens tb1) cost with
        | Raise e => (Raise e, tb1)
        | Return remaining =>
            (Return true,
             {| capacity := capacity tb1; tokens := remaining;
                rate := rate tb1; last_update := last_update tb1;
                stats := count_accepted (stats tb1) |})
        end
      else (Return false, with_stats tb1 (count_rejected (stats tb1)))
  end.

(** A run of [allow_request] calls, one per clock reading and cost. *)
Fixpoint allow_requests (tb : t) (calls : list (float * Z))
    : list (outcome bool) * t :=
  match calls with
  | [] => ([], tb)
  | (now, cost) :: rest =>
      let '(r, tb1) := allow_request tb now cost in
      let '(rs, tb2) := allow_requests tb1 rest in
      (r :: rs, tb2)
  end.

(** The bucket invariant of the specification, [0 <= tokens <= capacity]. *)
Definition tokens_in_range (tb : t) : bool :=
  num_ge_int (tokens tb) 0 && num_le_int (tokens tb) (capacity tb).

End TokenBucket.

Module SlidingWindow.

Record t : Type := {
  window_size : Q;
  max_requests : Z;
  request_times : list Q;
  stats : LimiterStats;
  windows_processed : Z
}.

(** [__init__] *)
Definition init (cfg : RateLimitConfig) : t :=
  {| window_size := 1; max_requests := py_int (requests_per_second cfg);
     request_times := []; stats := limiter_stats0; windows_processed := 0 |}.

(** The [while] loop of [_clean_old_requests]: entries are popped from the
    left while the oldest one is before the window start. *)
Fixpoint popleft_while (window_start : Q) (times : list Q) : list Q :=
  match times with
  | [] => []
  | x :: rest =>
      if Qlt_le_dec x window_start then popleft_while window_start rest
      else times
  end.

(** [_clean_old_requests] *)
Definition _clean_old_requests (sw : t) (now : Q) : t :=
  {| window_size := window_size sw; max_requests := max_requests sw;
     request_times :=
       popleft_while (now - window_size sw)%Q (request_times sw);
     stats := stats sw; windows_processed := windows_processed sw |}.

(** [allow_request]: [now] is the clock read by the clean-up and [now'] the
    later read whose value is appended to the log. *)
Definition allow_request (sw : t) (now now' : Q) : bool * t :=
  let sw1 := _clean_old_requests sw now in
  let stats1 := count_request (stats sw1) in
  if Z.of_nat (length (request_times sw1)) <? max_requests sw1 then
    (true,
     {| window_size := window_size sw1; max_requests := max_requests sw1;
        request_times := request_times sw1 ++ [now'];
        stats := count_accepted stats1;
        windows_processed := windows_processed sw1 |})
  else
    (false,
     {| window_size := window_size sw1; max_requests := max_requests sw1;
        request_times := request_times sw1;
        stats := count_rejected stats1;
        windows_processed := windows_processed sw1 |}).

(** A run of [allow_request] calls, one per pair of clock readings; the
    results are collected in call order. *)
Fixpoint allow_requests (sw : t) (clock : list (Q * Q)) : list bool * t :=
  match clock with
  | [] => ([], sw)
  | (now, now') :: rest =>
      let '(r, sw1) := allow_request sw now now' in
      let '(rs, sw2) := allow_requests sw1 rest in
      (r :: rs, sw2)
  end.

(** [get_current_rate] *)
Definition get_current_rate (sw : t) (now : Q) : Q * t :=
  let sw1 := _clean_old_requests sw now in
  ((inject_Z (Z.of_nat (length (request_times sw1))) / window_size sw1)%Q,
   sw1).

End SlidingWindow.

(** ** Connection pool ([src/core/connection_pool.py]) *)

Module ConnectionPool.

Inductive ConnectionState : Type := IDLE | IN_USE | INVALID.

#[global] Instance ConnectionState_eq_dec : EqDecision ConnectionState.
Proof. solve_decision. Defined.

Record PoolConfig : Type := {
  min_connections : Z;
  max_connections : Z;
  idle_timeout : Q;
  max_lifetime : Q;
  health_check_interval : Q
}.

Definition default_config : PoolConfig :=
  {| min_connections := 5; max_connections := 20; idle_timeout := 300;
     max_lifetime := 3600; health_check_interval := 60 |}.

(** The object behind a pooled connection, as far as the pool looks at it:
    its identity (what [==] compares), whether it has a [close] attribute
    and whether calling [close()] raises. *)
Record handle : Type := {
  handle_id : Z;
  has_close : bool;
  close_raises : bool
}.

#[global] Instance handle_eq_dec : EqDecision handle.
Proof. solve_decision. Defined.

(** The string ["Connection to <backend_id>"] made when no factory is given:
    the same value for every connection, and a [str] has no [close]. *)
Definition simulated_handle : handle :=
  {| handle_id := 0; has_close := false; close_raises := false |}.

(** A [PooledConnection].  [connection_id] is the number [n] of the id
    string ["<backend_id>_conn_<n>"]. *)
Record PooledConnection : Type := {
  connection_id : Z;
  connection : handle;
  state : ConnectionState;
  created_at : Q;
  last_used : Q;
  use_count : Z
}.

Record Stats : Type := {
  created_connections : Z;
  reused_connections : Z;
  closed_connections : Z;
  current_active : Z;
  current_idle : Z;
  pool_exhausted_count : Z
}.

(** The pool.  [connections] is the dict in insertion order; [available] is
    the queue, holding references (ids) to [PooledConnection] objects, which
    may outlive their dict entry.  [connection_factory] is [None] or a
    callable; the callable's [k]-th call returns a handle ([Some]) or raises
    ([None]), and [factory_calls] counts the calls made so far. *)
Record t : Type := {
  config : PoolConfig;
  connection_factory : option (nat -> option handle);
  factory_calls : nat;
  connections : list (Z * PooledConnection);
  available : list Z;
  stats : Stats;
  running : bool
}.

(** [__init__] *)
Definition init (cfg : PoolConfig) (factory : option (nat -> option handle))
  : t :=
  {| config := cfg; connection_factory := factory; factory_calls := 0;
     connections := []; available := [];
     stats := {| created_connections := 0; reused_connections := 0;
                 closed_connections := 0; current_active := 0;
                 current_idle := 0; pool_exhausted_count := 0 |};
     running := false |}.

(** [len(self.connections)] *)
Definition total (p : t) : Z := Z.of_nat (length (connections p)).

(** Dict operations on the insertion-ordered association list. *)
Fixpoint dict_get {V} (d : list (Z * V)) (k : Z) : option V :=
  match d with
  | [] => None
  | (k', v) :: rest => if decide (k' = k) then Some v else dict_get rest k
  end.

Fixpoint dict_set {V} (d : list (Z * V)) (k : Z) (v : V) : list (Z * V) :=
  match d with
  | [] => [(k, v)]
  | (k', v') :: rest =>
      if decide (k' = k) then (k, v) :: rest else (k', v') :: dict_set rest k v
  end.

Fixpoint dict_del {V} (d : list (Z * V)) (k : Z) : list (Z * V) :=
  match d with
  | [] => []
  | (k', v') :: rest =>
      if decide (k' = k) then rest else (k', v') :: dict_del rest k
  end.

(** [PooledConnection.is_expired] *)
Definition is_expired (c : PooledConnection) (max_lifetime : Q) (now : Q)
  : bool :=
  negb (Qle_bool (now - created_at c) max_lifetime).

(** [PooledConnection.is_idle_timeout] *)
Definition is_idle_timeout (c : PooledConnection) (idle_timeout : Q) (now : Q)
  : bool :=
  if decide (state c = IDLE)
  then negb (Qle_bool (now - last_used c) idle_timeout)
  else false.

(** [PooledConnection.mark_used] *)
Definition mark_used (c : PooledConnection) (now : Q) : PooledConnection :=
  {| connection_id := connection_id c; connection := connection c;
     state := IN_USE; created_at := created_at c; last_used := now;
     use_count := use_count c + 1 |}.

(** [PooledConnection.mark_idle] *)
Definition mark_idle (c : PooledConnection) (now : Q) : PooledConnection :=
  {| connection_id := connection_id c; connection := connection c;
     state := IDLE; created_at := created_at c; last_used := now;
     use_count := use_count c |}.

Definition set_connections (p : t) (d : list (Z * PooledConnection)) : t :=
  {| config := config p; connection_factory := connection_factory p;
     factory_calls := factory_calls p; connections := d;
     available := available p; stats := stats p; running := running p |}.

Definition set_available (p : t) (q : list Z) : t :=
  {| config := config p; connection_factory := connection_factory p;
     factory_calls := factory_calls p; connections := connections p;
     available := q; stats := stats p; running := running p |}.

Definition set_stats (p : t) (s : Stats) : t :=
  {| config := config p; connection_factory := connection_factory p;
     factory_calls := factory_calls p; connections := connections p;
     available := available p; stats := s; running := running p |}.

Definition set_running (p : t) (b : bool) : t :=
  {| config := config p; connection_factory := connection_factory p;
     factory_calls := factory_calls p; connections := connections p;
     available := available p; stats := stats p; running := b |}.

Definition set_factory_calls (p : t) (n : nat) : t :=
  {| config := config p; connection_factory := connection_factory p;
     factory_calls := n; connections := connections p;
     available := available p; stats := stats p; running := running p |}.

(** [_create_connection]: the id of the new connection, or [None]. *)
Definition _create_connection (p : t) (now : Q) : option Z * t :=
  if max_connections (config p) <=? total p then (None, p)
  else
    let made :=
      match connection_factory p with
      | None => (Some simulated_handle, p)
      | Some factory =>
          (factory (factory_calls p),
           set_factory_calls p (S (factory_calls p)))
      end in
    match made with
    | (None, p1) => (None, p1)
    | (Some conn, p1) =>
        let connection_id := created_connections (stats p1) in
        let pooled_conn :=
          {| connection_id := connection_id; connection := conn;
             state := IDLE; created_at := now; last_used := now;
             use_count := 0 |} in
        let s := stats p1 in
        (Some connection_id,
         set_stats
           (set_connections p1
              (dict_set (connections p1) connection_id pooled_conn))
           {| created_connections := created_connections s + 1;
              reused_connections := reused_connections s;
              closed_connections := closed_connections s;
              current_active := current_active s;
              current_idle := current_idle s + 1;
              pool_exhausted_count := pool_exhausted_count s |})
    end.

(** [_close_connection], for the connection object [conn]. *)
Definition _close_connection (p : t) (conn : PooledConnection) : t :=
  if has_close (connection conn) && close_raises (connection conn) then p
  else
    match dict_get (connections p) (connection_id conn) with
    | None => p
    | Some _ =>
        let s := stats p in
        set_stats
          (set_connections p (dict_del (connections p) (connection_id conn)))
          (if decide (state conn = IDLE) then
             {| created_connections := created_connections s;
                reused_connections := reused_connections s;
                closed_connections := closed_connections s + 1;
                current_active := current_active s;
                current_idle := Z.max 0 (current_idle s - 1);
                pool_exhausted_count := pool_exhausted_count s |}
           else
             {| created_connections := created_connections s;
                reused_connections := reused_connections s;
                closed_connections := closed_connections s + 1;
                current_active := Z.max 0 (current_active s - 1);
                current_idle := current_idle s;
                pool_exhausted_count := pool_exhausted_count s |})
    end.

(** The [for _ in range(min_connections)] loop of [start]. *)
Fixpoint create_n (n : nat) (p : t) (now : Q) : t :=
  match n with
  | O => p
  | S n' => create_n n' (snd (_create_connection p now)) now
  end.

(** [start] (the maintenance thread it launches is the operation
    [_perform_maintenance], run from outside). *)
Definition start (p : t) (now : Q) : t :=
  if running p then p
  else create_n (Z.to_nat (min_connections (config p)))
                (set_running p true) now.

(** The [for conn in self.connections.values()] loop of [stop].  [pending]
    is what the iterator has still to yield and [expected] the size of the
    dict when the iterator was made: each step of the iterator, the last one
    included, first compares the dict's size with [expected] and raises
    [RuntimeError] when they differ. *)
Fixpoint stop_loop (pending : list (Z * PooledConnection)) (expected : nat)
    (p : t) : outcome unit * t :=
  if negb (length (connections p) =? expected)%nat then (Raise RuntimeError, p)
  else
    match pending with
    | [] => (Return tt, p)
    | (_, conn) :: rest => stop_loop rest expected (_close_connection p conn)
    end.

(** [stop] *)
Definition stop (p : t) : outcome unit * t :=
  let p1 := set_running p false in
  match stop_loop (connections p1) (length (connections p1)) p1 with
  | (Raise e, p2) => (Raise e, p2)
  | (Return _, p2) => (Return tt, set_available (set_connections p2 []) [])
  end.

Definition stats_on_acquire (s : Stats) (reused : bool) : Stats :=
  {| created_connections := created_connections s;
     reused_connections :=
       if reused then reused_connections s + 1 else reused_connections s;
     closed_connections := closed_connections s;
     current_active := current_active s + 1;
     current_idle := Z.max 0 (current_idle s - 1);
     pool_exhausted_count := pool_exhausted_count s |}.

(** The second half of [acquire]: create a connection or report
    exhaustion. *)
Definition acquire_new (p : t) (now : Q) : option handle * t :=
  match _create_connection p now with
  | (Some id, p1) =>
      match dict_get (connections p1) id with
      | Some conn =>
          (Some (connection conn),
           set_stats
             (set_connections p1
                (dict_set (connections p1) id (mark_used conn now)))
             (stats_on_acquire (stats p1) false))
      | None => (None, p1)
      end
  | (None, p1) =>
      let s := stats p1 in
      (None,
       set_stats p1
         {| created_connections := created_connections s;
            reused_connections := reused_connections s;
            closed_connections := closed_connections s;
            current_active := current_active s;
            current_idle := current_idle s;
            pool_exhausted_count := pool_exhausted_count s + 1 |})
  end.

(** [acquire]: an empty queue means [queue.Empty] after the timeout. *)
Definition acquire (p : t) (now : Q) : option handle * t :=
  match available p with
  | id :: rest =>
      let p1 := set_available p rest in
      match dict_get (connections p1) id with
      | Some conn =>
          (Some (connection conn),
           set_stats
             (set_connections p1
                (dict_set (connections p1) id (mark_used conn now)))
             (stats_on_acquire (stats p1) true))
      | None => acquire_new p1 now
      end
  | [] => acquire_new p now
  end.

(** The search loop of [release]: the first connection, in dict order,
    whose handle equals the released one. *)
Fixpoint find_by_handle (d : list (Z * PooledConnection)) (h : handle)
  : option PooledConnection :=
  match d with
  | [] => None
  | (_, conn) :: rest =>
      if decide (connection conn = h) then Some conn
      else find_by_handle rest h
  end.

(** [release] *)
Definition release (p : t) (h : handle) (now : Q) : t :=
  match find_by_handle (connections p) h with
  | None => p
  | Some conn =>
      let s := stats p in
      set_stats
        (set_available
           (set_connections p
              (dict_set (connections p) (connection_id conn)
                 (mark_idle conn now)))
           (available p ++ [connection_id conn]))
        {| created_connections := created_connections s;
           reused_connections := reused_connections s;
           closed_connections := closed_connections s;
           current_active := Z.max 0 (current_active s - 1);
           current_idle := current_idle s + 1;
           pool_exhausted_count := pool_exhausted_count s |}
  end.

(** The marking loop of [_perform_maintenance]. *)
Definition connections_to_close (p : t) (now : Q) : list PooledConnection :=
  (filter
     (fun kc : Z * PooledConnection =>
        state kc.2 = IDLE
        /\ (is_expired kc.2 (max_lifetime (config p)) now
            || is_idle_timeout kc.2 (idle_timeout (config p)) now) = true
        /\ min_connections (config p) < total p)
     (connections p)).*2.

(** The [while len(self.connections) < min_connections] loop; [None] when
    [fuel] passes did not end it. *)
Fixpoint top_up (fuel : nat) (p : t) (now : Q) : option t :=
  if min_connections (config p) <=? total p then Some p
  else
    match fuel with
    | O => None
    | S fuel' =>
        match _create_connection p now with
        | (Some id, p1) =>
            top_up fuel' (set_available p1 (available p1 ++ [id])) now
        | (None, p1) => Some p1
        end
    end.

(** [_perform_maintenance] *)
Definition _perform_maintenance (fuel : nat) (p : t) (now : Q) : option t :=
  let marked := connections_to_close p now in
  top_up fuel (foldl _close_connection p marked) now.

(** The operations that churn a started pool. *)
Inductive op : Type :=
  | Acquire (now : Q)
  | Release (h : handle) (now : Q)
  | Maintenance (now : Q).

(** A sequence of operations, each maintenance pass with [fuel] for its
    top-up loop. *)
Fixpoint run (fuel : nat) (p : t) (ops : list op) : option t :=
  match ops with
  | [] => Some p
  | Acquire now :: rest => run fuel (snd (acquire p now)) rest
  | Release h now :: rest => run fuel (release p h now) rest
  | Maintenance now :: rest =>
      match _perform_maintenance fuel p now with
      | Some p1 => run fuel p1 rest
      | None => None
      end
  end.

End ConnectionPool.

(** * Vocabulary of the properties

    Example states, invariants and the other notions the statements below
    are written with. *)

(** ** Circuit breaker and round robin *)

(** A breaker tripped through the public interface: five failed calls in a
    row, the last one recorded at time 7, with the default configuration
    (cooldown 60). *)
Definition tripped_breaker : CircuitBreaker.t :=
  let fail cb now := snd (CircuitBreaker.call cb now now false) in
  fail (fail (fail (fail (fail
    (CircuitBreaker.init CircuitBreaker.default_config) 1%Q) 2%Q) 3%Q) 5%Q)
    7%Q.

(** Two selections over three servers leave the index at 2. *)
Definition rr_after_two : RoundRobin.t :=
  let servers := ["b1"; "b2"; "b3"]%string in
  snd (RoundRobin.select_server
         (snd (RoundRobin.select_server RoundRobin.init servers)) servers).

(** ** Rate limiters *)

(** *** Rounding to a double *)

(** What a record holds after [k] shifts of the integer [m0]: the quotient,
    the last bit shifted out, and whether any bit below it was set. *)
Definition shifted (m0 : Z) (k : Z) (mrs : shr_record) : Prop :=
  shr_m mrs = m0 / 2 ^ k
  /\ shr_r mrs = (0 <? k) && (2 ^ (k - 1) <=? m0 mod 2 ^ k)
  /\ shr_s mrs = (0 <? k) && negb (m0 mod 2 ^ (k - 1) =? 0).

(** Rounding to nearest, ties to even: whether the quotient [M] of a
    division by [G] that left [rem] is rounded up. *)
Definition round_up (G rem M : Z) : Z :=
  if (G <? 2 * rem) || ((G =? 2 * rem) && Z.odd M) then 1 else 0.

(** The two steps of [binary_round_aux] on an exact input, in closed form:
    the number of bits dropped and the rounded mantissa. *)
Definition rnd_k (m e : Z) : Z :=
  Z.max 0 (fexp prec emax (Zdigits2 m + e) - e).

Definition rnd_m (m e : Z) : Z :=
  let k := rnd_k m e in
  m / 2 ^ k + round_up (2 ^ k) (m mod 2 ^ k) (m / 2 ^ k).

(** The value of a finite double counted in units of [2^-1074], the
    smallest positive double. *)
Definition float_units (m e : Z) : Z := m * 2 ^ (e + 1074).

(** The exponent and the mantissa that rounding [m * 2^e] to nearest gives,
    before a mantissa of [2^53] is renormalised. *)
Definition round_exp (m e : Z) : Z := fexp prec emax (Zdigits2 m + e).

Definition round_mant (m e : Z) : Z :=
  let G := 2 ^ (round_exp m e + 1074) in
  float_units m e / G
  + round_up G (float_units m e mod G) (float_units m e / G).

(** The final exponent and mantissa of [binary_round]. *)
Definition round_final_exp (m e : Z) : Z :=
  if round_mant m e <? 2 ^ 53 then round_exp m e else round_exp m e + 1.

Definition round_final_mant (m e : Z) : positive :=
  if round_mant m e <? 2 ^ 53 then Z.to_pos (round_mant m e)
  else Z.to_pos (2 ^ 52).

(** *** Token bucket *)

(** A double that is not below zero: a zero of either sign, a positive
    double, plus infinity, or a nan. *)
Definition sf_not_negative (s : spec_float) : Prop :=
  match s with
  | S754_zero _ | S754_nan => True
  | S754_infinity b | S754_finite b _ _ => b = false
  end.

(** What the constructor establishes and every call keeps: a capacity that
    is not negative and has a double, a rate that is not negative, and a
    token count that is not negative and, while it is an int, at most the
    capacity. *)
Definition steady (tb : TokenBucket.t) : Prop :=
  0 <= TokenBucket.capacity tb
  /\ (exists full, float_of_int (TokenBucket.capacity tb) = Return full)
  /\ float_lt_int (TokenBucket.rate tb) 0 = false
  /\ match TokenBucket.tokens tb with
     | PInt n => 0 <= n <= TokenBucket.capacity tb
     | PFloat x => float_lt_int x 0 = false
     end.

(** The buckets of a service: built by the constructor with a burst size
    and a rate that are not negative, then asked with costs that are not
    negative at clock readings for which the elapsed time the call computes
    is not negative. *)
Inductive bucket_in_service : TokenBucket.t -> Prop :=
  | service_init (burst_size : Z) (requests_per_second now : float)
        (tb : TokenBucket.t) :
      0 <= burst_size ->
      float_lt_int requests_per_second 0 = false ->
      TokenBucket.init burst_size requests_per_second now = Return tb ->
      bucket_in_service tb
  | service_call (tb : TokenBucket.t) (now : float) (cost : Z)
        (r : outcome bool) (tb' : TokenBucket.t) :
      bucket_in_service tb ->
      float_lt_int (now - TokenBucket.last_update tb) 0 = false ->
      0 <= cost ->
      TokenBucket.allow_request tb now cost = (r, tb') ->
      bucket_in_service tb'.

(** The bucket the constructor returns for a burst size whose double is
    [full]. *)
Definition fresh_bucket (burst_size : Z) (full requests_per_second now : float)
    : TokenBucket.t :=
  {| TokenBucket.capacity := burst_size; TokenBucket.tokens := PFloat full;
     TokenBucket.rate := requests_per_second; TokenBucket.last_update := now;
     TokenBucket.stats := limiter_stats0 |}.

(** A bucket of capacity 10 refilled at 100 tokens per second, made at
    time 0 (the default configuration). *)
Definition default_bucket : TokenBucket.t := fresh_bucket 10 10 100 0.

(** A bucket of capacity 1 refilled at a tenth of a token per second, made
    at time 0 and emptied there by a first request. *)
Definition slow_bucket : TokenBucket.t := fresh_bucket 1 1 (1 / 10) 0.

(** Requests of cost 1 at the clock readings [times]. *)
Definition polls (times : list float) : list (float * Z) :=
  map (fun now => (now, 1)) times.

(** How many calls of a run were admitted, were rejected, and raised. *)
Fixpoint admissions (rs : list (outcome bool)) : Z :=
  match rs with
  | [] => 0
  | Return true :: rest => 1 + admissions rest
  | _ :: rest => admissions rest
  end.

Fixpoint rejections (rs : list (outcome bool)) : Z :=
  match rs with
  | [] => 0
  | Return false :: rest => 1 + rejections rest
  | _ :: rest => rejections rest
  end.

Fixpoint raises (rs : list (outcome bool)) : Z :=
  match rs with
  | [] => 0
  | Raise _ :: rest => 1 + raises rest
  | _ :: rest => raises rest
  end.

(** A bucket of capacity 10 whose rate is infinite, made at time 0. *)
Definition unbounded_bucket : TokenBucket.t := fresh_bucket 10 10 infinity 0.

(** ** Least connections *)

(** The count a connection table holds for a server, 0 when absent. *)
Definition cnt (conns : gmap string Z) (server : string) : Z :=
  default 0 (conns !! server).

(** [s] is the first server of [l] with the least count: every server
    before it has strictly more connections, every server after it at
    least as many. *)
Definition first_least (conns : gmap string Z) (l : list string) (s : string)
  : Prop :=
  exists l1 l2,
    l = l1 ++ s :: l2
    /\ Forall (fun x => cnt conns s < cnt conns x) l1
    /\ Forall (fun x => cnt conns s <= cnt conns x) l2.

(** What the scan holds in [best] after the prefix [p]. *)
Definition scan_inv (conns : gmap string Z) (p : list string)
    (best : option (Z * string)) : Prop :=
  match best with
  | None => p = []
  | Some (m, s) => m = cnt conns s /\ first_least conns p s
  end.

(** Three servers with 5, 2 and 8 active connections. *)
Definition lc_example : LeastConnections.t :=
  {| LeastConnections.servers := ["s1"; "s2"; "s3"]%string;
     LeastConnections.connections :=
       <["s1"%string := 5]> (<["s2"%string := 2]> (<["s3"%string := 8]> ∅)) |}.

(** ** IP hash *)

(** A stand-in for the digest, used to run the model: the length of the
    client id. *)
Definition toy_digest (client_ip : string) : Z :=
  Z.of_nat (String.length client_ip).

(** ** Connection pool *)

(** Connection creation cannot fail: there is no factory, or the factory
    never raises. *)
Definition factory_never_fails (factory : option (nat -> option ConnectionPool.handle))
  : Prop :=
  match factory with
  | None => True
  | Some f => forall k, is_Some (f k)
  end.

(** Every dict entry is stored under the id of its connection, and every id
    in use is below the creation counter. *)
Definition ids_ok (p : ConnectionPool.t) : Prop :=
  Forall (fun kc : Z * ConnectionPool.PooledConnection =>
            ConnectionPool.connection_id kc.2 = kc.1
            /\ kc.1 < ConnectionPool.created_connections (ConnectionPool.stats p))
         (ConnectionPool.connections p).

(** What every operation on a pool keeps: its configuration and factory,
    well-formed ids, and at most [max_connections] connections. *)
Definition pool_ok (cfg : ConnectionPool.PoolConfig)
    (factory : option (nat -> option ConnectionPool.handle))
    (p : ConnectionPool.t) : Prop :=
  ConnectionPool.config p = cfg
  /\ ConnectionPool.connection_factory p = factory
  /\ ids_ok p
  /\ ConnectionPool.total p <= ConnectionPool.max_connections cfg.

(** A churn on the default pool: three acquisitions, a release, and a
    maintenance pass after every connection has outlived [max_lifetime]. *)
Definition churn : list ConnectionPool.op :=
  [ConnectionPool.Acquire 1; ConnectionPool.Acquire 2;
   ConnectionPool.Release ConnectionPool.simulated_handle 3;
   ConnectionPool.Acquire 4; ConnectionPool.Maintenance 4000;
   ConnectionPool.Acquire 4001].

(** The default pool, started at time 0: five simulated connections. *)
Definition started_pool : ConnectionPool.t :=
  ConnectionPool.start
    (ConnectionPool.init ConnectionPool.default_config None) 0.

(** ** Weighted round robin *)

(** The state kept by the plugin's own operations: every registered weight
    is positive, and [max_weight] and [gcd_weight] are the ones
    [_recalculate_weights] computes from the registered weights. *)
Definition consistent (st : WeightedRoundRobin.t) : Prop :=
  (forall b w, WeightedRoundRobin.backend_weights st !! b = Some w -> 0 < w)
  /\ WeightedRoundRobin._recalculate_weights st = st.

(** What the selection loop relies on, for the backend list [bs]. *)
Definition loop_ok (bs : list string) (st : WeightedRoundRobin.t) : Prop :=
  0 < WeightedRoundRobin.gcd_weight st
  /\ 0 < WeightedRoundRobin.max_weight st
  /\ (WeightedRoundRobin.gcd_weight st | WeightedRoundRobin.max_weight st)
  /\ forall b, b ∈ bs ->
       0 < WeightedRoundRobin.weight_of st b
       /\ WeightedRoundRobin.weight_of st b <= WeightedRoundRobin.max_weight st
       /\ (WeightedRoundRobin.gcd_weight st | WeightedRoundRobin.weight_of st b).

(** The loop started in [st] returns a backend of [bs] whose weight is at
    least the current weight, for every fuel from some bound on. *)
Definition loop_returns (bs : list string) (st : WeightedRoundRobin.t) : Prop :=
  exists fuel0 : nat,
    forall fuel : nat, (fuel0 <= fuel)%nat ->
      exists b st',
        WeightedRoundRobin.select_loop fuel st bs = Some (Return (Some b), st')
        /\ b ∈ bs
        /\ WeightedRoundRobin.current_weight st'
           <= WeightedRoundRobin.weight_of st' b.

(** How many times a backend occurs in a list of selections. *)
Definition times_selected (b : string) (picks : list string) : nat :=
  length (filter (fun x => x = b) picks).

(** The greatest common divisor and the sum of a list of weights. *)
Definition gcd_of (l : list Z) : Z := foldr Z.gcd 0 l.
Definition sum_of (l : list Z) : Z := foldr Z.add 0 l.

(** The weight table after registering [ws] on top of [m0]. *)
Definition registered (m0 : gmap string Z) (ws : list (string * Z))
  : gmap string Z :=
  foldl (fun m bw => <[bw.1 := bw.2]> m) m0 ws.

(** *** The selection cycle

    With weights [c_b * g] and [max_weight = M * g], the selection loop walks
    a cycle of [M * n] slots, [n] being the number of backends: slot [q] is
    backend [q mod n] at level [M - q / n], and is selected when the backend
    has at least that many units of weight.  A call of [select_backend]
    moves from the current slot to the next selected one. *)

Module Cycle.

Section Slots.

Variable bs : list string.
Variable m : gmap string Z.
Variables mx g : Z.
Variable M : nat.

(** The weight of a backend in units of [g]. *)
Definition units (b : string) : nat := Z.to_nat (default 1 (m !! b) / g).

Definition backend_at (q : nat) : string :=
  default ""%string (bs !! (q mod length bs)%nat).

Definition selected (q : nat) : bool :=
  (M <=? units (backend_at q) + q / length bs)%nat.

Definition next_slot (q : nat) : nat :=
  if (S q <? M * length bs)%nat then S q else 0%nat.

(** The plugin state [st] stands at slot [q].  The initial weight 0 counts
    as the last level. *)
Definition at_slot (q : nat) (st : WeightedRoundRobin.t) : Prop :=
  (q < M * length bs)%nat
  /\ WeightedRoundRobin.backend_weights st = m
  /\ WeightedRoundRobin.max_weight st = mx
  /\ WeightedRoundRobin.gcd_weight st = g
  /\ WeightedRoundRobin.current_index st = Z.of_nat (q mod length bs)
  /\ (WeightedRoundRobin.current_weight st
      = (Z.of_nat M - Z.of_nat (q / length bs)) * g
      \/ (WeightedRoundRobin.current_weight st = 0
          /\ (q / length bs = M - 1)%nat)).

(** [l] lists the slots that follow [q], in order. *)
Fixpoint follows (q : nat) (l : list nat) : Prop :=
  match l with
  | [] => True
  | x :: l' => x = next_slot q /\ follows x l'
  end.

(** The [M * n] slots after [q], once round the cycle and back to [q]. *)
Definition cycle_after (q : nat) : list nat :=
  seq (S q) (M * length bs - S q) ++ seq 0 (S q).

(** The backends selected in one round at level [M - r]. *)
Definition round_picks (r : nat) : list string :=
  filter (fun b => (M <= units b + r)%nat) bs.

(** The backends selected in the first [R] rounds, in order. *)
Fixpoint rounds_picks (R : nat) : list string :=
  match R with
  | O => []
  | S R' => rounds_picks R' ++ round_picks R'
  end.

End Slots.

End Cycle.

(** ** Vocabulary of the further properties *)

(** The tripped breaker after a successful probe at time 100: Half-Open,
    one success short of closing. *)
Definition probing_breaker : CircuitBreaker.t :=
  snd (CircuitBreaker.call tripped_breaker 100 101 true).

(** Every call is counted once, as a success, a failure or a rejection. *)
Definition stats_balanced (cb : CircuitBreaker.t) : Prop :=
  CircuitBreaker.total_calls (CircuitBreaker.stats cb)
  = CircuitBreaker.successful_calls (CircuitBreaker.stats cb)
    + CircuitBreaker.failed_calls (CircuitBreaker.stats cb)
    + CircuitBreaker.rejected_calls (CircuitBreaker.stats cb).

(** The calls of a run that ended with an exception other than an
    [Exception] passing through [call]. *)
Fixpoint escaped (rs : list (outcome bool)) : Z :=
  match rs with
  | [] => 0
  | Raise BaseException :: rs' => 1 + escaped rs'
  | _ :: rs' => escaped rs'
  end.

(** The calls counted in [total_calls] but in none of the three other
    counters. *)
Definition unrecorded (cb : CircuitBreaker.t) : Z :=
  CircuitBreaker.total_calls (CircuitBreaker.stats cb)
  - CircuitBreaker.successful_calls (CircuitBreaker.stats cb)
  - CircuitBreaker.failed_calls (CircuitBreaker.stats cb)
  - CircuitBreaker.rejected_calls (CircuitBreaker.stats cb).

(** The history holds at most [window_size] outcomes. *)
Definition history_bounded (cb : CircuitBreaker.t) : Prop :=
  Z.of_nat (length (CircuitBreaker.call_history cb))
  <= Z.max 0 (CircuitBreaker.window_size (CircuitBreaker.config cb)).

(** The time stamps a run of the sliding window logged, one per admitted
    request. *)
Fixpoint admitted_times (rs : list bool) (clock : list (Q * Q)) : list Q :=
  match rs, clock with
  | r :: rs', (_, now') :: clock' =>
      (if r then [now'] else []) ++ admitted_times rs' clock'
  | _, _ => []
  end.

(** The clock readings of a run of the sliding window, in the order they
    are made, do not go back from [t0] on. *)
Fixpoint forward_clock (t0 : Q) (clock : list (Q * Q)) : Prop :=
  match clock with
  | [] => True
  | (now, now') :: clock' =>
      (t0 <= now)%Q /\ (now <= now')%Q /\ forward_clock now' clock'
  end.

(** The last reading of such a clock, [t0] when there is none. *)
Fixpoint clock_end (t0 : Q) (clock : list (Q * Q)) : Q :=
  match clock with
  | [] => t0
  | (_, now') :: clock' => clock_end now' clock'
  end.

(** The stamps of [times] that are not older than [window_start]. *)
Definition not_before (window_start : Q) (times : list Q) : list Q :=
  List.filter (fun x => Qle_bool window_start x) times.

(** [times] is in non-decreasing order. *)
Fixpoint nondecreasing (times : list Q) : Prop :=
  match times with
  | [] => True
  | x :: rest => Forall (fun y => (x <= y)%Q) rest /\ nondecreasing rest
  end.

(** The log of [sw] holds the stamps of [hist], the requests admitted so
    far, from some window start on; [hist] is in order and not after the
    clock reading [tc]. *)
Definition log_of (sw : SlidingWindow.t) (hist : list Q) (tc : Q) : Prop :=
  exists t,
    (t <= tc)%Q
    /\ SlidingWindow.request_times sw
       = not_before (t - SlidingWindow.window_size sw) hist
    /\ nondecreasing hist
    /\ Forall (fun x => (x <= tc)%Q) hist.

(** The log is not longer than the limit. *)
Definition log_bounded (sw : SlidingWindow.t) : Prop :=
  Z.of_nat (length (SlidingWindow.request_times sw))
  <= Z.max 0 (SlidingWindow.max_requests sw).

(** No two servers of the list differ by more than one connection. *)
Definition balanced (st : LeastConnections.t) : Prop :=
  forall a b,
    a ∈ LeastConnections.servers st -> b ∈ LeastConnections.servers st ->
    LeastConnections.count_of st a <= LeastConnections.count_of st b + 1.

(** No count is negative. *)
Definition counts_nonneg (st : LeastConnections.t) : Prop :=
  forall x, 0 <= LeastConnections.count_of st x.

(** How many times [x] is in the list [l]. *)
Definition occurrences (x : string) (l : list string) : nat :=
  length (filter (fun y => y = x) l).

(** The counters of the IP-hash plugin are consistent with its cache: the
    cache holds no more clients than were counted as unique, and no more
    hits than requests were counted. *)
Definition ip_stats_ok (st : IPHash.t) : Prop :=
  Z.of_nat (size (IPHash.backend_cache st))
  <= IPHash.unique_clients (IPHash.stats st)
  /\ 0 <= IPHash.cache_hits (IPHash.stats st)
  /\ IPHash.cache_hits (IPHash.stats st)
     <= IPHash.total_requests (IPHash.stats st).

(** The plugin after a first request of client 10.0.0.7, with [b1] the only
    backend. *)
Definition ip_hash_after_b1 : IPHash.t :=
  snd (IPHash.select_backend toy_digest IPHash.init ["b1"%string] "10.0.0.7").

(** Closing the connection raises: its handle has a [close] method, and
    calling it raises. *)
Definition refuses_close (c : ConnectionPool.PooledConnection) : bool :=
  ConnectionPool.has_close (ConnectionPool.connection c)
  && ConnectionPool.close_raises (ConnectionPool.connection c).

(** The pool as [stop] leaves it when it returns: not running, with no
    connection and an empty queue. *)
Definition stopped (p : ConnectionPool.t) : ConnectionPool.t :=
  ConnectionPool.set_available
    (ConnectionPool.set_connections (ConnectionPool.set_running p false) [])
    [].

(** The started default pool after one acquisition: connection 5 is in
    use. *)
Definition busy_pool : ConnectionPool.t :=
  snd (ConnectionPool.acquire started_pool 1).

(** * Properties *)

(** ** Circuit breaker *)

Lemma should_attempt_reset_true (cb : CircuitBreaker.t) (now : Q) :
  CircuitBreaker._should_attempt_reset cb now = true <->
  CircuitBreaker.state cb = CircuitBreaker.OPEN /\
  (CircuitBreaker.timeout (CircuitBreaker.config cb)
   <= now - CircuitBreaker.last_failure_time cb)%Q.
Proof.
  unfold CircuitBreaker._should_attempt_reset.
  destruct (decide (CircuitBreaker.state cb = CircuitBreaker.OPEN)) as [Ho|Ho].
  - rewrite Qle_bool_iff. tauto.
  - split; [discriminate | tauto].
Qed.

(** C1 (as amended): [is_available] answers true exactly when the breaker
    is Closed or HalfOpen, or Open with the cooldown elapsed; the query
    leaves the breaker as it found it, so [get_state] after it reports the
    state from before; the move from Open to HalfOpen after the cooldown is
    made by the prologue of [call]. *)
Theorem is_available_spec (cb : CircuitBreaker.t) (now : Q) :
  (fst (CircuitBreaker.is_available cb now) = true <->
     CircuitBreaker.state cb = CircuitBreaker.CLOSED
     \/ CircuitBreaker.state cb = CircuitBreaker.HALF_OPEN
     \/ (CircuitBreaker.state cb = CircuitBreaker.OPEN
         /\ (CircuitBreaker.timeout (CircuitBreaker.config cb)
             <= now - CircuitBreaker.last_failure_time cb)%Q))
  /\ snd (CircuitBreaker.is_available cb now) = cb
  /\ CircuitBreaker.get_state (snd (CircuitBreaker.is_available cb now))
     = CircuitBreaker.get_state cb
  /\ (CircuitBreaker._should_attempt_reset cb now = true ->
      CircuitBreaker.get_state (snd (CircuitBreaker.call_admit cb now))
      = CircuitBreaker.HALF_OPEN).
Proof.
  assert (Hsnd : snd (CircuitBreaker.is_available cb now) = cb).
  { unfold CircuitBreaker.is_available.
    by destruct (CircuitBreaker._should_attempt_reset cb now). }
  split; [| split; [exact Hsnd | split; [by rewrite Hsnd |]]].
  - unfold CircuitBreaker.is_available.
    destruct (CircuitBreaker._should_attempt_reset cb now) eqn:Hr; simpl.
    + apply should_attempt_reset_true in Hr. tauto.
    + split.
      * intros Hn. apply negb_true_iff, bool_decide_eq_false in Hn.
        destruct (CircuitBreaker.state cb); tauto.
      * intros [Hc | [Hh | [Ho Ht]]].
        -- rewrite Hc. reflexivity.
        -- rewrite Hh. reflexivity.
        -- assert (CircuitBreaker._should_attempt_reset cb now = true)
             by (apply should_attempt_reset_true; tauto).
           congruence.
  - intros Hr. unfold CircuitBreaker.call_admit.
    assert (Hr' : CircuitBreaker._should_attempt_reset
              (CircuitBreaker.with_stats cb
                 (CircuitBreaker.bump_total (CircuitBreaker.stats cb))) now
            = true) by exact Hr.
    rewrite Hr'.
    apply should_attempt_reset_true in Hr as [Ho _].
    unfold CircuitBreaker._change_state; simpl. rewrite Ho. simpl.
    reflexivity.
Qed.

(** C1, counterexample: on the tripped breaker, queried at time 100 (93
    seconds after it opened, cooldown 60), [is_available] answers true and
    the next [get_state] still reports Open, not HalfOpen. *)
Lemma is_available_leaves_open :
  CircuitBreaker.get_state tripped_breaker = CircuitBreaker.OPEN
  /\ fst (CircuitBreaker.is_available tripped_breaker 100%Q) = true
  /\ CircuitBreaker.get_state
       (snd (CircuitBreaker.is_available tripped_breaker 100%Q))
     <> CircuitBreaker.HALF_OPEN.
Proof. split; [reflexivity | split; [reflexivity | discriminate]]. Qed.

(** ** Round robin *)

(** C2, the code at the failing input: after two selections over three
    servers the index is 2, and a selection over the two servers that are
    still eligible raises [IndexError] instead of returning the element at
    position [2 mod 2 = 0]. *)
Theorem select_server_shrunk_list_raises :
  RoundRobin.current_index rr_after_two = 2
  /\ fst (RoundRobin.select_server rr_after_two ["b1"; "b2"]%string)
     = Raise IndexError.
Proof. split; reflexivity. Qed.

(** The empty list gives [None] whatever the index is. *)
Lemma select_server_empty {A} (rr : RoundRobin.t) :
  RoundRobin.select_server rr (@nil A) = (Return None, rr).
Proof. reflexivity. Qed.

(** With the index inside the list the selection is the element at the
    index, and the index advances modulo the length. *)
Lemma select_server_in_range {A} (rr : RoundRobin.t) (servers : list A) :
  0 <= RoundRobin.current_index rr < Z.of_nat (length servers) ->
  exists x,
    servers !! Z.to_nat (RoundRobin.current_index rr) = Some x
    /\ RoundRobin.select_server rr servers
       = (Return (Some x),
          {| RoundRobin.current_index :=
               (RoundRobin.current_index rr + 1)
                 mod Z.of_nat (length servers) |}).
Proof.
  intros Hi. destruct servers as [|a servers']; [simpl in Hi; lia |].
  set (servers := a :: servers') in *.
  destruct (lookup_lt_is_Some_2 servers
              (Z.to_nat (RoundRobin.current_index rr))) as [x Hx]; [lia |].
  exists x. split; [exact Hx |].
  unfold RoundRobin.select_server, py_index. fold servers.
  replace (0 <=? RoundRobin.current_index rr) with true by lia.
  replace (RoundRobin.current_index rr <? Z.of_nat (length servers))
    with true by lia.
  simpl. rewrite Hx. reflexivity.
Qed.

(** ** Rate limiters *)

(** *** Rounding to a double *)

(** The number of binary digits of a mantissa. *)
Lemma digits2_bounds (p : positive) :
  2 ^ (Z.pos (digits2_pos p) - 1) <= Z.pos p < 2 ^ Z.pos (digits2_pos p).
Proof.
  induction p as [p IH | p IH |]; cbn [digits2_pos].
  - rewrite Pos2Z.inj_succ.
    replace (Z.succ (Z.pos (digits2_pos p)) - 1) with (Z.succ (Z.pos (digits2_pos p) - 1)) by lia.
    rewrite !Z.pow_succ_r by lia. lia.
  - rewrite Pos2Z.inj_succ.
    replace (Z.succ (Z.pos (digits2_pos p)) - 1) with (Z.succ (Z.pos (digits2_pos p) - 1)) by lia.
    rewrite !Z.pow_succ_r by lia. lia.
  - simpl. lia.
Qed.

Lemma Zdigits2_bounds (m : Z) :
  0 < m -> 2 ^ (Zdigits2 m - 1) <= m < 2 ^ Zdigits2 m.
Proof. destruct m; try lia. intros _. apply digits2_bounds. Qed.

Lemma Zdigits2_pos (m : Z) : 0 < m -> 0 < Zdigits2 m.
Proof. destruct m; simpl; lia. Qed.

Lemma Zdigits2_unique (m k : Z) :
  2 ^ (k - 1) <= m < 2 ^ k -> 0 < m -> Zdigits2 m = k.
Proof.
  intros [Hlo Hhi] Hm.
  destruct (Zdigits2_bounds m Hm) as [Hlo' Hhi'].
  pose proof (Zdigits2_pos m Hm) as Hd.
  assert (Hk : 0 < k).
  { destruct (Z.lt_ge_cases 0 k); [done |].
    destruct (Z.eq_dec k 0) as [-> | Hk0]; [simpl in Hhi; lia |].
    rewrite Z.pow_neg_r in Hhi by lia. lia. }
  destruct (Z.lt_trichotomy (Zdigits2 m) k) as [Hlt | [Heq | Hgt]]; [| done |].
  - assert (2 ^ Zdigits2 m <= 2 ^ (k - 1)) by (apply Z.pow_le_mono_r; lia). lia.
  - assert (2 ^ k <= 2 ^ (Zdigits2 m - 1)) by (apply Z.pow_le_mono_r; lia). lia.
Qed.

(** Right shifts, as [shr] makes them. *)
Lemma iter_pos_nat {A} (f : A -> A) (p : positive) (x : A) :
  SpecFloat.iter_pos f p x = Nat.iter (Pos.to_nat p) f x.
Proof.
  revert x. induction p as [p IH | p IH |]; intros x; cbn [SpecFloat.iter_pos].
  - rewrite !IH. rewrite Pos2Nat.inj_xI.
    replace (S (2 * Pos.to_nat p)) with (Pos.to_nat p + Pos.to_nat p + 1)%nat by lia.
    rewrite !Nat.iter_add. reflexivity.
  - rewrite !IH. rewrite Pos2Nat.inj_xO.
    replace (2 * Pos.to_nat p)%nat with (Pos.to_nat p + Pos.to_nat p)%nat by lia.
    rewrite Nat.iter_add. reflexivity.
  - reflexivity.
Qed.

Lemma shr_1_nonneg (m : Z) (r s : bool) :
  0 <= m ->
  shr_1 {| shr_m := m; shr_r := r; shr_s := s |}
  = {| shr_m := m / 2; shr_r := Z.odd m; shr_s := r || s |}.
Proof.
  intros Hm. destruct m as [| p | p]; [reflexivity | | lia].
  destruct p as [p | p |]; cbn [shr_1].
  - f_equal. rewrite Pos2Z.inj_xI. apply (Z.div_unique _ _ _ 1); lia.
  - f_equal. rewrite Pos2Z.inj_xO. apply (Z.div_unique _ _ _ 0); lia.
  - reflexivity.
Qed.

Lemma shr_1_shifted (m0 k : Z) (mrs : shr_record) :
  0 <= m0 -> 0 <= k -> shifted m0 k mrs -> shifted m0 (k + 1) (shr_1 mrs).
Proof.
  intros Hm0 Hk (Hm & Hr & Hs). destruct mrs as [m r s].
  cbn [shr_m shr_r shr_s] in *.
  assert (Hp : 0 < 2 ^ k) by (apply Z.pow_pos_nonneg; lia).
  assert (Hm' : 0 <= m) by (subst m; apply Z.div_pos; lia).
  rewrite shr_1_nonneg by exact Hm'. unfold shifted. cbn [shr_m shr_r shr_s].
  replace (k + 1 - 1) with k by lia.
  rewrite Z.pow_add_r, Z.pow_1_r by lia.
  assert (Hmod : m0 mod (2 ^ k * 2) = m0 mod 2 ^ k + 2 ^ k * (m mod 2)).
  { subst m. rewrite Z.rem_mul_r by lia. reflexivity. }
  assert (Hmr : 0 <= m0 mod 2 ^ k < 2 ^ k) by (apply Z.mod_pos_bound; lia).
  assert (Hbit : 0 <= m mod 2 < 2) by (apply Z.mod_pos_bound; lia).
  split; [subst m; by rewrite Z.div_div by lia |]. split.
  - replace (0 <? k + 1) with true by lia. rewrite Hmod, Zodd_mod.
    cbn [andb]. destruct (Z.eqb_spec (m mod 2) 1) as [H1 | H1].
    + rewrite H1. symmetry. apply Z.leb_le. lia.
    + assert (H0 : m mod 2 = 0) by lia. rewrite H0.
      symmetry. apply Z.leb_gt. lia.
  - replace (0 <? k + 1) with true by lia. cbn [andb]. rewrite Hr, Hs.
    destruct (Z.ltb_spec 0 k) as [Hk0 | Hk0]; cbn [andb orb].
    + assert (Hp' : 0 < 2 ^ (k - 1)) by (apply Z.pow_pos_nonneg; lia).
      assert (Hk2 : 2 ^ k = 2 ^ (k - 1) * 2).
      { rewrite <- (Z.pow_1_r 2) at 3. rewrite <- Z.pow_add_r by lia.
        f_equal. lia. }
      assert (Hlow : m0 mod 2 ^ k
                     = m0 mod 2 ^ (k - 1)
                       + 2 ^ (k - 1) * ((m0 / 2 ^ (k - 1)) mod 2)).
      { rewrite Hk2. rewrite Z.rem_mul_r by lia. reflexivity. }
      assert (Hlr : 0 <= m0 mod 2 ^ (k - 1) < 2 ^ (k - 1))
        by (apply Z.mod_pos_bound; lia).
      assert (Hb : 0 <= (m0 / 2 ^ (k - 1)) mod 2 < 2)
        by (apply Z.mod_pos_bound; lia).
      assert (Hb01 : (m0 / 2 ^ (k - 1)) mod 2 = 0
                     \/ (m0 / 2 ^ (k - 1)) mod 2 = 1) by lia.
      destruct Hb01 as [Hb01 | Hb01]; rewrite Hb01 in Hlow;
      destruct (Z.leb_spec (2 ^ (k - 1)) (m0 mod 2 ^ k)) as [Hge | Hlt];
        destruct (Z.eqb_spec (m0 mod 2 ^ (k - 1)) 0) as [Hz | Hz];
        destruct (Z.eqb_spec (m0 mod 2 ^ k) 0) as [Hz' | Hz'];
        cbn [negb orb]; try reflexivity; exfalso; lia.
    + assert (k = 0) as -> by lia. simpl. rewrite Z.mod_1_r. reflexivity.
Qed.

Lemma iter_shr_1_shifted (m0 : Z) (n : nat) (mrs : shr_record) :
  0 <= m0 -> shifted m0 0 mrs ->
  shifted m0 (Z.of_nat n) (Nat.iter n shr_1 mrs).
Proof.
  intros Hm0 H0. induction n as [| n IH]; [exact H0 |].
  rewrite Nat2Z.inj_succ, <- Z.add_1_r. cbn [Nat.iter].
  apply shr_1_shifted; [done | lia | exact IH].
Qed.

Lemma shifted_0 (m0 : Z) :
  shifted m0 0 {| shr_m := m0; shr_r := false; shr_s := false |}.
Proof. unfold shifted. cbn. rewrite Z.div_1_r. done. Qed.

Lemma shr_shifted (m0 e n : Z) :
  0 <= m0 ->
  shifted m0 (Z.max 0 n)
    (fst (shr {| shr_m := m0; shr_r := false; shr_s := false |} e n))
  /\ snd (shr {| shr_m := m0; shr_r := false; shr_s := false |} e n)
     = e + Z.max 0 n.
Proof.
  intros Hm0. destruct n as [| p | p]; cbn [shr fst snd].
  - split; [apply shifted_0 | simpl; lia].
  - replace (Z.max 0 (Z.pos p)) with (Z.pos p) by lia. split; [| done].
    rewrite iter_pos_nat. rewrite <- (positive_nat_Z p) at 1.
    apply iter_shr_1_shifted; [done | apply shifted_0].
  - replace (Z.max 0 (Z.neg p)) with 0 by lia.
    split; [apply shifted_0 | lia].
Qed.

Lemma round_nearest_even_shifted (m0 k : Z) (mrs : shr_record) :
  0 <= m0 -> 0 <= k -> shifted m0 k mrs ->
  round_nearest_even (shr_m mrs) (loc_of_shr_record mrs)
  = m0 / 2 ^ k + round_up (2 ^ k) (m0 mod 2 ^ k) (m0 / 2 ^ k).
Proof.
  intros Hm0 Hk (Hm & Hr & Hs). destruct mrs as [m r s].
  cbn [shr_m shr_r shr_s] in *. rewrite <- Hm.
  assert (Hp : 0 < 2 ^ k) by (apply Z.pow_pos_nonneg; lia).
  assert (Hmr : 0 <= m0 mod 2 ^ k < 2 ^ k) by (apply Z.mod_pos_bound; lia).
  unfold round_up.
  destruct (Z.ltb_spec 0 k) as [Hk0 | Hk0]; cbn [andb] in Hr, Hs.
  - assert (Hp' : 0 < 2 ^ (k - 1)) by (apply Z.pow_pos_nonneg; lia).
    assert (Hk2 : 2 ^ k = 2 ^ (k - 1) * 2).
    { rewrite <- (Z.pow_1_r 2) at 3. rewrite <- Z.pow_add_r by lia.
      f_equal. lia. }
    assert (Hlow : m0 mod 2 ^ k
                   = m0 mod 2 ^ (k - 1)
                     + 2 ^ (k - 1) * ((m0 / 2 ^ (k - 1)) mod 2)).
    { rewrite Hk2. rewrite Z.rem_mul_r by lia. reflexivity. }
    assert (Hlr : 0 <= m0 mod 2 ^ (k - 1) < 2 ^ (k - 1))
      by (apply Z.mod_pos_bound; lia).
    assert (Hb : 0 <= (m0 / 2 ^ (k - 1)) mod 2 < 2)
      by (apply Z.mod_pos_bound; lia).
    assert (Hb01 : (m0 / 2 ^ (k - 1)) mod 2 = 0
                   \/ (m0 / 2 ^ (k - 1)) mod 2 = 1) by lia.
    rewrite <- Z.negb_even.
    destruct Hb01 as [Hb01 | Hb01]; rewrite Hb01 in Hlow;
    destruct (Z.leb_spec (2 ^ (k - 1)) (m0 mod 2 ^ k)) as [Hge | Hlt];
      destruct (Z.eqb_spec (m0 mod 2 ^ (k - 1)) 0) as [Hz | Hz];
      destruct (Z.ltb_spec (2 ^ k) (2 * (m0 mod 2 ^ k))) as [Hgt | Hngt];
      destruct (Z.eqb_spec (2 ^ k) (2 * (m0 mod 2 ^ k))) as [Heq | Hneq];
      try (exfalso; lia); subst r s;
      cbn [negb orb andb loc_of_shr_record round_nearest_even];
      try (destruct (Z.even m)); cbn [negb]; lia.
  - assert (k = 0) as -> by lia. subst r s.
    cbn [loc_of_shr_record round_nearest_even].
    rewrite Z.mod_1_r. simpl. lia.
Qed.

Lemma round_up_range (G rem M : Z) : 0 <= round_up G rem M <= 1.
Proof. unfold round_up. destruct (_ || _); lia. Qed.

Lemma rnd_m_nonneg (m e : Z) : 0 <= m -> 0 <= rnd_m m e.
Proof.
  intros Hm. unfold rnd_m.
  pose proof (round_up_range (2 ^ rnd_k m e) (m mod 2 ^ rnd_k m e)
                (m / 2 ^ rnd_k m e)).
  assert (0 <= m / 2 ^ rnd_k m e).
  { apply Z.div_pos; [done |]. apply Z.pow_pos_nonneg; unfold rnd_k; lia. }
  lia.
Qed.

Lemma shr_fexp_exact (m e : Z) :
  0 <= m ->
  shifted m (rnd_k m e) (fst (shr_fexp prec emax m e loc_Exact))
  /\ snd (shr_fexp prec emax m e loc_Exact) = e + rnd_k m e.
Proof. intros Hm. unfold shr_fexp, rnd_k. cbn [shr_record_of_loc]. by apply shr_shifted. Qed.

Lemma binary_round_aux_eq (s : bool) (m e : Z) :
  0 <= m ->
  binary_round_aux prec emax s m e loc_Exact
  = let e1 := e + rnd_k m e in
    let k2 := rnd_k (rnd_m m e) e1 in
    match rnd_m m e / 2 ^ k2 with
    | 0 => S754_zero s
    | Z.pos p =>
        if e1 + k2 <=? emax - prec then S754_finite s p (e1 + k2)
        else S754_infinity s
    | Z.neg _ => S754_nan
    end.
Proof.
  intros Hm. unfold binary_round_aux.
  destruct (shr_fexp_exact m e Hm) as [Hsh He].
  destruct (shr_fexp prec emax m e loc_Exact) as [mrs' e'].
  cbn [fst snd] in Hsh, He. subst e'.
  rewrite (round_nearest_even_shifted m (rnd_k m e) mrs' Hm) by
    (first [exact Hsh | unfold rnd_k; lia]).
  fold (rnd_m m e).
  destruct (shr_fexp_exact (rnd_m m e) (e + rnd_k m e) (rnd_m_nonneg m e Hm))
    as [(Hm2 & _) He2].
  destruct (shr_fexp prec emax (rnd_m m e) (e + rnd_k m e) loc_Exact)
    as [mrs'' e''].
  cbn [fst snd] in Hm2, He2. subst e''. rewrite Hm2. reflexivity.
Qed.

(** Binary64: a precision of 53 bits, exponents from -1074 to 971. *)

Lemma fexp_eq (x : Z) : fexp prec emax x = Z.max (x - 53) (-1074).
Proof. reflexivity. Qed.

Lemma pow2_pos (k : Z) : 0 <= k -> 0 < 2 ^ k.
Proof. intros. apply Z.pow_pos_nonneg; lia. Qed.

Lemma pow2_lt_inv (a b : Z) : 0 <= b -> 2 ^ a < 2 ^ b -> a < b.
Proof.
  intros Hb Hlt. destruct (Z.lt_ge_cases a b) as [| Hge]; [done |].
  assert (2 ^ b <= 2 ^ a) by (apply Z.pow_le_mono_r; lia). lia.
Qed.

Lemma pow2_le (a b : Z) : 0 <= a <= b -> 2 ^ a <= 2 ^ b.
Proof. intros. apply Z.pow_le_mono_r; lia. Qed.

Lemma pow2_add (a b : Z) : 0 <= a -> 0 <= b -> 2 ^ (a + b) = 2 ^ a * 2 ^ b.
Proof. intros. apply Z.pow_add_r; lia. Qed.

Lemma pos_iter_xO (m d : positive) :
  Z.pos (Pos.iter xO m d) = Z.pos m * 2 ^ Z.pos d.
Proof.
  induction d as [| d IH] using Pos.peano_ind.
  - simpl. lia.
  - rewrite Pos.iter_succ, Pos2Z.inj_xO, IH, Pos2Z.inj_succ.
    rewrite Z.pow_succ_r by lia. lia.
Qed.

Lemma shl_align_eq (mx : positive) (ex ex' : Z) :
  Z.pos (fst (shl_align mx ex ex')) = Z.pos mx * 2 ^ (ex - Z.min ex ex')
  /\ snd (shl_align mx ex ex') = Z.min ex ex'.
Proof.
  unfold shl_align. destruct (ex' - ex) as [| d | d] eqn:Hd; cbn [fst snd].
  - replace (Z.min ex ex') with ex by lia. rewrite Z.sub_diag. simpl. lia.
  - replace (Z.min ex ex') with ex by lia. rewrite Z.sub_diag. simpl. lia.
  - replace (Z.min ex ex') with ex' by lia. rewrite pos_iter_xO.
    split; [| done]. do 2 f_equal. lia.
Qed.

Lemma Zdigits2_mul_pow2 (m j : Z) :
  0 < m -> 0 <= j -> Zdigits2 (m * 2 ^ j) = Zdigits2 m + j.
Proof.
  intros Hm Hj. pose proof (Zdigits2_bounds m Hm) as [Hlo Hhi].
  pose proof (Zdigits2_pos m Hm) as Hd. pose proof (pow2_pos j Hj) as Hp.
  apply Zdigits2_unique; [| nia].
  replace (Zdigits2 m + j - 1) with (Zdigits2 m - 1 + j) by lia.
  rewrite !pow2_add by lia. nia.
Qed.

Lemma round_up_scale (c G rem M : Z) :
  0 < c -> round_up (G * c) (rem * c) M = round_up G rem M.
Proof.
  intros Hc. unfold round_up.
  replace (G * c <? 2 * (rem * c)) with (G <? 2 * rem).
  2:{ destruct (Z.ltb_spec G (2 * rem)); symmetry;
      [apply Z.ltb_lt | apply Z.ltb_ge]; nia. }
  replace (G * c =? 2 * (rem * c)) with (G =? 2 * rem).
  2:{ destruct (Z.eqb_spec G (2 * rem)); symmetry;
      [apply Z.eqb_eq | apply Z.eqb_neq]; nia. }
  reflexivity.
Qed.

Lemma round_exp_ge (m e : Z) : -1074 <= round_exp m e.
Proof. unfold round_exp. rewrite fexp_eq. lia. Qed.

(** Magnitudes follow values. *)
Lemma magnitude_mono (m1 e1 m2 e2 : Z) :
  0 < m1 -> 0 < m2 -> -1074 <= e1 -> -1074 <= e2 ->
  float_units m1 e1 <= float_units m2 e2 ->
  Zdigits2 m1 + e1 <= Zdigits2 m2 + e2.
Proof.
  unfold float_units. intros Hm1 Hm2 He1 He2 Hle.
  pose proof (Zdigits2_bounds m1 Hm1) as [Hlo1 _].
  pose proof (Zdigits2_bounds m2 Hm2) as [_ Hhi2].
  pose proof (Zdigits2_pos m1 Hm1). pose proof (Zdigits2_pos m2 Hm2).
  assert (Hp1 : 0 < 2 ^ (e1 + 1074)) by (apply pow2_pos; lia).
  assert (Hp2 : 0 < 2 ^ (e2 + 1074)) by (apply pow2_pos; lia).
  assert (Hlt : 2 ^ (Zdigits2 m1 - 1 + (e1 + 1074))
                < 2 ^ (Zdigits2 m2 + (e2 + 1074))).
  { rewrite (pow2_add (Zdigits2 m1 - 1)), (pow2_add (Zdigits2 m2)) by lia.
    assert (2 ^ (Zdigits2 m1 - 1) * 2 ^ (e1 + 1074) <= m1 * 2 ^ (e1 + 1074))
      by (apply Z.mul_le_mono_nonneg_r; lia).
    assert (m2 * 2 ^ (e2 + 1074) < 2 ^ Zdigits2 m2 * 2 ^ (e2 + 1074))
      by (apply Z.mul_lt_mono_pos_r; lia).
    lia. }
  apply pow2_lt_inv in Hlt; lia.
Qed.

Lemma round_exp_mono (m1 e1 m2 e2 : Z) :
  0 < m1 -> 0 < m2 -> -1074 <= e1 -> -1074 <= e2 ->
  float_units m1 e1 <= float_units m2 e2 ->
  round_exp m1 e1 <= round_exp m2 e2.
Proof.
  intros. unfold round_exp. rewrite !fexp_eq.
  pose proof (magnitude_mono m1 e1 m2 e2). lia.
Qed.

Lemma round_mant_shl (m mz e ez : Z) :
  0 < m -> -1074 <= ez -> ez <= e -> ez <= round_exp m e ->
  mz = m * 2 ^ (e - ez) ->
  Zdigits2 mz + ez = Zdigits2 m + e
  /\ rnd_k mz ez = round_exp m e - ez
  /\ rnd_m mz ez = round_mant m e.
Proof.
  intros Hm Hez Hle Hle' ->.
  assert (Hdig : Zdigits2 (m * 2 ^ (e - ez)) + ez = Zdigits2 m + e).
  { rewrite Zdigits2_mul_pow2 by lia. lia. }
  assert (Hk : rnd_k (m * 2 ^ (e - ez)) ez = round_exp m e - ez).
  { unfold rnd_k. rewrite Hdig. fold (round_exp m e). lia. }
  split; [exact Hdig |]. split; [exact Hk |].
  unfold rnd_m, round_mant. rewrite Hk. cbv zeta.
  set (k := round_exp m e - ez). set (c := 2 ^ (ez + 1074)).
  assert (Hc : 0 < c) by (apply pow2_pos; lia).
  assert (Hpk : 0 < 2 ^ k) by (apply pow2_pos; lia).
  assert (Hu : float_units m e = m * 2 ^ (e - ez) * c).
  { unfold float_units, c. rewrite <- Z.mul_assoc, <- pow2_add by lia.
    do 2 f_equal. lia. }
  assert (HG : 2 ^ (round_exp m e + 1074) = 2 ^ k * c).
  { unfold c, k. rewrite <- pow2_add by lia. f_equal. lia. }
  rewrite Hu, HG.
  rewrite Z.div_mul_cancel_r by lia.
  rewrite Z.mul_mod_distr_r by lia.
  rewrite round_up_scale by lia. reflexivity.
Qed.

Lemma div_pow2_bounds (m d k : Z) :
  0 <= k -> k < d -> 2 ^ (d - 1) <= m < 2 ^ d ->
  2 ^ (d - k - 1) <= m / 2 ^ k < 2 ^ (d - k).
Proof.
  intros Hk Hd [Hlo Hhi]. assert (Hpk : 0 < 2 ^ k) by (apply pow2_pos; lia).
  split.
  - apply Z.div_le_lower_bound; [lia |]. rewrite <- pow2_add by lia.
    replace (k + (d - k - 1)) with (d - 1) by lia. exact Hlo.
  - apply Z.div_lt_upper_bound; [lia |]. rewrite <- pow2_add by lia.
    replace (k + (d - k)) with d by lia. exact Hhi.
Qed.

(** The mantissa kept by the first shift of [binary_round]. *)
Lemma round_quotient_bounds (m e : Z) :
  0 < m -> -1074 <= e ->
  let D := Zdigits2 m + e - round_exp m e in
  1 <= D <= 53
  /\ 2 ^ (D - 1) <= float_units m e / 2 ^ (round_exp m e + 1074) < 2 ^ D.
Proof.
  intros Hm He D.
  pose proof (Zdigits2_pos m Hm) as Hd.
  assert (HD : 1 <= D <= 53).
  { unfold D, round_exp. rewrite fexp_eq. lia. }
  split; [exact HD |].
  pose proof (Zdigits2_bounds m Hm) as [Hlo Hhi].
  assert (Hp : 0 < 2 ^ (e + 1074)) by (apply pow2_pos; lia).
  pose proof (round_exp_ge m e) as Hre.
  pose proof (div_pow2_bounds (float_units m e) (Zdigits2 m + (e + 1074))
                (round_exp m e + 1074)) as Hb.
  replace (Zdigits2 m + (e + 1074) - (round_exp m e + 1074)) with D in Hb
    by (unfold D; lia).
  apply Hb; [lia | unfold D in HD; lia |].
  unfold float_units. split.
  - replace (Zdigits2 m + (e + 1074) - 1) with (Zdigits2 m - 1 + (e + 1074))
      by lia.
    rewrite (pow2_add (Zdigits2 m - 1)) by lia.
    apply Z.mul_le_mono_nonneg_r; lia.
  - rewrite (pow2_add (Zdigits2 m)) by lia. apply Z.mul_lt_mono_pos_r; lia.
Qed.

Lemma round_mant_bounds (m e : Z) :
  0 < m -> -1074 <= e ->
  let D := Zdigits2 m + e - round_exp m e in
  2 ^ (D - 1) <= round_mant m e <= 2 ^ D.
Proof.
  intros Hm He D.
  destruct (round_quotient_bounds m e Hm He) as [HD HM]. fold D in HD, HM.
  unfold round_mant. cbv zeta.
  pose proof (round_up_range (2 ^ (round_exp m e + 1074))
                (float_units m e mod 2 ^ (round_exp m e + 1074))
                (float_units m e / 2 ^ (round_exp m e + 1074))).
  lia.
Qed.

Lemma round_mant_range (m e : Z) :
  0 < m -> -1074 <= e -> 1 <= round_mant m e <= 2 ^ 53.
Proof.
  intros Hm He. pose proof (round_mant_bounds m e Hm He) as Hb.
  destruct (round_quotient_bounds m e Hm He) as [HD _]. cbv zeta in *.
  set (D := Zdigits2 m + e - round_exp m e) in *.
  assert (1 <= 2 ^ (D - 1)) by (pose proof (pow2_pos (D - 1)); lia).
  assert (2 ^ D <= 2 ^ 53) by (apply pow2_le; lia).
  lia.
Qed.

Lemma binary_round_eq (m : positive) (e : Z) :
  -1074 <= e ->
  binary_round prec emax false m e
  = (if round_final_exp (Z.pos m) e <=? 971
     then S754_finite false (round_final_mant (Z.pos m) e)
            (round_final_exp (Z.pos m) e)
     else S754_infinity false)
  /\ canonical_mantissa prec emax (round_final_mant (Z.pos m) e)
       (round_final_exp (Z.pos m) e) = true.
Proof.
  intros He. unfold binary_round.
  change (Z.pos (digits2_pos m)) with (Zdigits2 (Z.pos m)).
  fold (round_exp (Z.pos m) e).
  destruct (shl_align_eq m e (round_exp (Z.pos m) e)) as [Hmz Hez].
  destruct (shl_align m e (round_exp (Z.pos m) e)) as [mz ez].
  cbn [fst snd] in Hmz, Hez.
  pose proof (round_exp_ge (Z.pos m) e) as Hre.
  destruct (round_mant_shl (Z.pos m) (Z.pos mz) e ez) as (Hdig & Hk & HM);
    [lia | lia | lia | lia | by rewrite Hmz, Hez |].
  rewrite binary_round_aux_eq by lia. cbv zeta. rewrite HM, Hk.
  replace (ez + (round_exp (Z.pos m) e - ez)) with (round_exp (Z.pos m) e)
    by lia.
  pose proof (round_mant_range (Z.pos m) e ltac:(lia) He) as HM1.
  pose proof (round_mant_bounds (Z.pos m) e ltac:(lia) He) as HMb.
  destruct (round_quotient_bounds (Z.pos m) e ltac:(lia) He) as [HD _].
  cbv zeta in HMb, HD.
  set (M1 := round_mant (Z.pos m) e) in *.
  set (e' := round_exp (Z.pos m) e) in *.
  set (D := Zdigits2 (Z.pos m) + e - e') in *.
  unfold round_final_exp, round_final_mant. fold M1 e'.
  pose proof (Zdigits2_bounds M1 ltac:(lia)) as [Hdlo Hdhi].
  pose proof (Zdigits2_pos M1 ltac:(lia)) as Hdpos.
  destruct (Z.ltb_spec M1 (2 ^ 53)) as [Hlt | Hge].
  - assert (Hd53 : Zdigits2 M1 <= 53).
    { assert (2 ^ (Zdigits2 M1 - 1) < 2 ^ 53) by lia.
      apply pow2_lt_inv in H; lia. }
    assert (HdD : D <= Zdigits2 M1).
    { assert (2 ^ (D - 1) < 2 ^ Zdigits2 M1) by lia.
      apply pow2_lt_inv in H; lia. }
    assert (Hfe : fexp prec emax (Zdigits2 M1 + e') = e').
    { rewrite fexp_eq. unfold D in HdD. unfold e', round_exp in *.
      rewrite fexp_eq in *. lia. }
    assert (Hk2 : rnd_k M1 e' = 0) by (unfold rnd_k; rewrite Hfe; lia).
    rewrite Hk2. rewrite Z.pow_0_r, Z.div_1_r, Z.add_0_r.
    destruct M1 as [| p | p] eqn:HM1e; [lia | | lia].
    change (Z.to_pos (Z.pos p)) with p. split; [reflexivity |].
    unfold canonical_mantissa.
    change (Z.pos (digits2_pos p)) with (Zdigits2 (Z.pos p)).
    rewrite Hfe. apply Z.eqb_refl.
  - assert (HM53 : M1 = 2 ^ 53) by lia. rewrite HM53.
    assert (Hfe : fexp prec emax (Zdigits2 (2 ^ 53) + e') = e' + 1).
    { change (Zdigits2 (2 ^ 53)) with 54. rewrite fexp_eq. lia. }
    assert (Hk2 : rnd_k (2 ^ 53) e' = 1) by (unfold rnd_k; rewrite Hfe; lia).
    rewrite Hk2.
    change (2 ^ 53 / 2 ^ 1) with (Z.pos (Z.to_pos (2 ^ 52))).
    split; [reflexivity |].
    unfold canonical_mantissa.
    change (Z.pos (digits2_pos (Z.to_pos (2 ^ 52)))) with 53.
    rewrite fexp_eq. apply Z.eqb_eq. lia.
Qed.

Lemma round_final_units (m e : Z) :
  0 < m -> -1074 <= e ->
  float_units (Z.pos (round_final_mant m e)) (round_final_exp m e)
  = round_mant m e * 2 ^ (round_exp m e + 1074).
Proof.
  intros Hm He. pose proof (round_mant_range m e Hm He) as HM.
  pose proof (round_exp_ge m e) as Hre.
  unfold round_final_mant, round_final_exp, float_units.
  destruct (Z.ltb_spec (round_mant m e) (2 ^ 53)) as [Hlt | Hge].
  - rewrite Z2Pos.id by lia. reflexivity.
  - assert (HM53 : round_mant m e = 2 ^ 53) by lia. rewrite HM53.
    replace (round_exp m e + 1 + 1074) with (1 + (round_exp m e + 1074))
      by lia.
    rewrite pow2_add by lia. rewrite Z2Pos.id by lia.
    change (2 ^ 53) with (2 ^ 52 * 2 ^ 1). lia.
Qed.

Lemma valid_finite (s : bool) (m : positive) (e : Z) :
  valid_binary (S754_finite s m e) = true ->
  -1074 <= e <= 971 /\ round_exp (Z.pos m) e = e /\ Z.pos m < 2 ^ 53.
Proof.
  cbn [SpecFloat.valid_binary]. unfold bounded, canonical_mantissa.
  intros [Hc Hb]%andb_prop. apply Z.eqb_eq in Hc. apply Z.leb_le in Hb.
  change (Z.pos (digits2_pos m)) with (Zdigits2 (Z.pos m)) in Hc.
  change (emax - prec) with 971 in Hb.
  pose proof Hc as Hc'. rewrite fexp_eq in Hc'.
  split; [lia |]. split; [exact Hc |].
  pose proof (Zdigits2_bounds (Z.pos m) ltac:(lia)) as [_ Hhi].
  assert (2 ^ Zdigits2 (Z.pos m) <= 2 ^ 53).
  { apply pow2_le. pose proof (Zdigits2_pos (Z.pos m)). lia. }
  lia.
Qed.

Lemma round_up_positive_rem (G r M : Z) :
  0 < G -> round_up G r M = 1 -> 0 < r.
Proof.
  unfold round_up. intros HG.
  destruct (Z.ltb_spec G (2 * r)); destruct (Z.eqb_spec G (2 * r));
    cbn [orb andb]; try destruct (Z.odd M); intros; lia.
Qed.

Lemma round_grid_le (G x K : Z) :
  0 < G -> x <= K * G ->
  x / G + round_up G (x mod G) (x / G) <= K.
Proof.
  intros HG Hle.
  pose proof (Z.div_mod x G ltac:(lia)) as Hx.
  pose proof (Z.mod_pos_bound x G HG) as Hr.
  pose proof (round_up_range G (x mod G) (x / G)) as Hu.
  assert (Hup : round_up G (x mod G) (x / G) = 0
                \/ round_up G (x mod G) (x / G) = 1) by lia.
  destruct Hup as [Hup | Hup]; rewrite Hup.
  - assert (x / G * G <= K * G) by lia.
    assert (x / G <= K) by (apply (Z.mul_le_mono_pos_r _ _ G); lia). lia.
  - apply round_up_positive_rem in Hup; [| done].
    assert (x / G * G < K * G) by lia.
    assert (x / G < K) by (apply (Z.mul_lt_mono_pos_r G); lia). lia.
Qed.

Lemma round_grid_mono (G x1 x2 : Z) :
  0 < G -> x1 <= x2 ->
  x1 / G + round_up G (x1 mod G) (x1 / G)
  <= x2 / G + round_up G (x2 mod G) (x2 / G).
Proof.
  intros HG Hle.
  pose proof (Z.div_mod x1 G ltac:(lia)) as Hx1.
  pose proof (Z.div_mod x2 G ltac:(lia)) as Hx2.
  pose proof (Z.mod_pos_bound x1 G HG) as Hr1.
  pose proof (Z.mod_pos_bound x2 G HG) as Hr2.
  pose proof (round_up_range G (x1 mod G) (x1 / G)) as Hu1.
  pose proof (round_up_range G (x2 mod G) (x2 / G)) as Hu2.
  assert (HM : x1 / G <= x2 / G) by (apply Z.div_le_mono; lia).
  destruct (Z.eq_dec (x1 / G) (x2 / G)) as [Heq | Hne]; [| lia].
  rewrite <- Heq in *.
  assert (Hrem : x1 mod G <= x2 mod G) by lia.
  assert (round_up G (x1 mod G) (x1 / G) <= round_up G (x2 mod G) (x1 / G)).
  { unfold round_up.
    destruct (Z.ltb_spec G (2 * (x1 mod G)));
      destruct (Z.eqb_spec G (2 * (x1 mod G)));
      destruct (Z.ltb_spec G (2 * (x2 mod G)));
      destruct (Z.eqb_spec G (2 * (x2 mod G)));
      cbn [orb andb]; try destruct (Z.odd (x1 / G)); lia. }
  lia.
Qed.

(** Rounding never crosses a double: a value that is at most the double
    [my * 2^ey] rounds to a finite double that is at most it. *)
Lemma binary_round_le (m my : positive) (e ey : Z) :
  -1074 <= e ->
  valid_binary (S754_finite false my ey) = true ->
  float_units (Z.pos m) e <= float_units (Z.pos my) ey ->
  exists mr er,
    binary_round prec emax false m e = S754_finite false mr er
    /\ valid_binary (S754_finite false mr er) = true
    /\ float_units (Z.pos mr) er <= float_units (Z.pos my) ey.
Proof.
  intros He Hv Hle.
  destruct (valid_finite _ _ _ Hv) as (Hey & Hcy & Hmy).
  destruct (binary_round_eq m e He) as [Heq Hcan].
  pose proof (round_final_units (Z.pos m) e ltac:(lia) He) as Hu.
  pose proof (round_exp_mono (Z.pos m) e (Z.pos my) ey
                ltac:(lia) ltac:(lia) He ltac:(lia) Hle) as Hexp.
  rewrite Hcy in Hexp.
  pose proof (round_exp_ge (Z.pos m) e) as Hre.
  pose proof (round_mant_range (Z.pos m) e ltac:(lia) He) as HM.
  set (e' := round_exp (Z.pos m) e) in *.
  set (G := 2 ^ (e' + 1074)) in *.
  assert (HG : 0 < G) by (apply pow2_pos; lia).
  assert (Hy : float_units (Z.pos my) ey = Z.pos my * 2 ^ (ey - e') * G).
  { unfold float_units, G. rewrite <- Z.mul_assoc, <- pow2_add by lia.
    do 2 f_equal. lia. }
  assert (Hgrid : round_mant (Z.pos m) e <= Z.pos my * 2 ^ (ey - e')).
  { unfold round_mant. cbv zeta. fold e' G. apply round_grid_le; lia. }
  assert (Hval : round_mant (Z.pos m) e * G <= float_units (Z.pos my) ey).
  { rewrite Hy. apply Z.mul_le_mono_nonneg_r; lia. }
  assert (Hfin : round_final_exp (Z.pos m) e <= 971).
  { unfold round_final_exp. fold e'.
    destruct (Z.ltb_spec (round_mant (Z.pos m) e) (2 ^ 53)) as [Hlt | Hge];
      [lia |].
    assert (HM53 : round_mant (Z.pos m) e = 2 ^ 53) by lia.
    rewrite HM53 in Hval. unfold float_units in Hval.
    assert (Hp : 0 < 2 ^ (ey + 1074)) by (apply pow2_pos; lia).
    assert (2 ^ 53 * G < 2 ^ 53 * 2 ^ (ey + 1074)) by nia.
    assert (HGlt : G < 2 ^ (ey + 1074)) by lia.
    apply pow2_lt_inv in HGlt; lia. }
  exists (round_final_mant (Z.pos m) e), (round_final_exp (Z.pos m) e).
  split; [| split].
  - rewrite Heq. by replace (_ <=? 971) with true by lia.
  - cbn [SpecFloat.valid_binary]. unfold bounded. rewrite Hcan.
    change (emax - prec) with 971. cbn [andb]. lia.
  - rewrite Hu. exact Hval.
Qed.

(** Rounding is monotone in the exponent it ends with, hence in whether it
    overflows. *)
Lemma round_final_exp_mono (m1 m2 e1 e2 : Z) :
  0 < m1 -> 0 < m2 -> -1074 <= e1 -> -1074 <= e2 ->
  float_units m1 e1 <= float_units m2 e2 ->
  round_final_exp m1 e1 <= round_final_exp m2 e2.
Proof.
  intros Hm1 Hm2 He1 He2 Hle.
  pose proof (round_exp_mono m1 e1 m2 e2 Hm1 Hm2 He1 He2 Hle) as Hexp.
  pose proof (round_mant_range m1 e1 Hm1 He1) as HM1.
  pose proof (round_mant_range m2 e2 Hm2 He2) as HM2.
  pose proof (round_exp_ge m1 e1) as Hre.
  unfold round_final_exp.
  destruct (Z.ltb_spec (round_mant m1 e1) (2 ^ 53)) as [Hlt1 | Hge1];
    destruct (Z.ltb_spec (round_mant m2 e2) (2 ^ 53)) as [Hlt2 | Hge2];
    try lia.
  destruct (Z.eq_dec (round_exp m1 e1) (round_exp m2 e2)) as [Heq | Hne];
    [| lia].
  exfalso.
  assert (round_mant m1 e1 <= round_mant m2 e2); [| lia].
  unfold round_mant. cbv zeta. rewrite <- Heq.
  apply round_grid_mono; [apply pow2_pos; lia | exact Hle].
Qed.

(** *** Token bucket *)

Lemma prim_valid_finite (x : float) (s : bool) (m : positive) (e : Z) :
  Prim2SF x = S754_finite s m e ->
  valid_binary (S754_finite s m e) = true.
Proof. intros <-. apply Prim2SF_valid. Qed.

Lemma units_pos (m : positive) (e : Z) : -1074 <= e -> 0 < float_units (Z.pos m) e.
Proof.
  intros He. unfold float_units. apply Z.mul_pos_pos; [lia | apply pow2_pos; lia].
Qed.

Lemma float_lt_int_0_false (x : float) :
  float_lt_int x 0 = false <-> sf_not_negative (Prim2SF x).
Proof.
  unfold float_lt_int, float_compare_int.
  destruct (Prim2SF x) as [s | s | | s m e] eqn:Hx; cbn [sf_not_negative].
  - simpl. tauto.
  - destruct s; split; (discriminate || tauto).
  - tauto.
  - destruct (valid_finite _ _ _ (prim_valid_finite x s m e Hx)) as (He & _).
    pose proof (units_pos m e ltac:(lia)) as Hu. unfold float_units in Hu.
    destruct s; cbn [cond_Zopp]; rewrite Z.mul_0_l.
    + replace (- Z.pos m * 2 ^ (e + 1074) ?= 0) with Lt
        by (symmetry; apply Z.compare_lt_iff; lia).
      split; discriminate.
    + replace (Z.pos m * 2 ^ (e + 1074) ?= 0) with Gt
        by (symmetry; apply Z.compare_gt_iff; lia).
      tauto.
Qed.

Lemma binary_round_aux_not_negative (m e : Z) (l : location) :
  sf_not_negative (binary_round_aux prec emax false m e l).
Proof.
  unfold binary_round_aux. destruct (shr_fexp prec emax m e l) as [mrs e'].
  destruct (shr_fexp prec emax _ e' loc_Exact) as [mrs' e''].
  destruct (shr_m mrs'); [done | | done].
  by destruct (_ <=? _).
Qed.

Lemma binary_round_not_negative (m : positive) (e : Z) :
  sf_not_negative (binary_round prec emax false m e).
Proof.
  unfold binary_round. destruct (shl_align m e _) as [mz ez].
  apply binary_round_aux_not_negative.
Qed.

Lemma SFmul_not_negative (a b : spec_float) :
  sf_not_negative a -> sf_not_negative b ->
  sf_not_negative (SFmul prec emax a b).
Proof.
  destruct a as [sa | sa | | sa ma ea], b as [sb | sb | | sb mb eb];
    cbn [sf_not_negative SFmul]; intros Ha Hb; subst; try done.
  apply binary_round_aux_not_negative.
Qed.

Lemma SFadd_not_negative (a b : spec_float) :
  sf_not_negative a -> sf_not_negative b ->
  sf_not_negative (SFadd prec emax a b).
Proof.
  destruct a as [sa | sa | | sa ma ea], b as [sb | sb | | sb mb eb];
    cbn [sf_not_negative SFadd]; intros Ha Hb; subst; try done.
  - by destruct sa, sb.
  - cbn [cond_Zopp Z.add binary_normalize]. apply binary_round_not_negative.
Qed.

Lemma binary_normalize_not_negative (n : Z) :
  0 <= n -> sf_not_negative (binary_normalize prec emax n 0 false).
Proof.
  intros Hn. destruct n as [| p | p]; [done | | lia].
  apply binary_round_not_negative.
Qed.

Lemma float_of_int_zero :
  float_of_int 0 = Return (SF2Prim (S754_zero false))
  /\ Prim2SF (SF2Prim (S754_zero false)) = S754_zero false.
Proof. split; [reflexivity |]. by apply Prim2SF_SF2Prim. Qed.

Lemma float_of_int_pos (p : positive) :
  let mr := round_final_mant (Z.pos p) 0 in
  let er := round_final_exp (Z.pos p) 0 in
  valid_binary (S754_finite false mr er) = (er <=? 971)
  /\ float_of_int (Z.pos p)
     = if er <=? 971 then Return (SF2Prim (S754_finite false mr er))
       else Raise OverflowError.
Proof.
  intros mr er. destruct (binary_round_eq p 0 ltac:(lia)) as [Heq Hcan].
  fold mr er in Heq, Hcan. split.
  - cbn [SpecFloat.valid_binary]. unfold bounded. rewrite Hcan. reflexivity.
  - unfold float_of_int. cbn [binary_normalize]. rewrite Heq.
    by destruct (er <=? 971).
Qed.

Lemma units_int (n : Z) : float_units n 0 = n * 2 ^ 1074.
Proof. reflexivity. Qed.

(** An int between 0 and an int that has a double has one too. *)
Lemma float_of_int_returns (n cap : Z) (full : float) :
  0 <= n <= cap -> float_of_int cap = Return full ->
  exists c, float_of_int n = Return c /\ sf_not_negative (Prim2SF c).
Proof.
  intros Hn Hcap. destruct n as [| p | p]; [| | lia].
  - destruct float_of_int_zero as [H0 H0']. eexists. split; [exact H0 |].
    by rewrite H0'.
  - destruct cap as [| q | q]; [lia | | lia].
    destruct (float_of_int_pos q) as [_ Hq]. cbv zeta in Hq.
    rewrite Hq in Hcap.
    destruct (Z.leb_spec (round_final_exp (Z.pos q) 0) 971) as [Hfin |];
      [| discriminate].
    pose proof (round_final_exp_mono (Z.pos p) (Z.pos q) 0 0
                  ltac:(lia) ltac:(lia) ltac:(lia) ltac:(lia)) as Hmono.
    rewrite !units_int in Hmono.
    assert (Hle : round_final_exp (Z.pos p) 0 <= 971) by lia.
    destruct (float_of_int_pos p) as [Hv Hp]. cbv zeta in Hv, Hp.
    apply Z.leb_le in Hle. rewrite Hle in Hv, Hp.
    eexists. split; [exact Hp |].
    by rewrite Prim2SF_SF2Prim by exact Hv.
Qed.

(** An int that is at most a double converts to a double that is at most
    it. *)
Lemma float_of_int_le (n : Z) (mx : positive) (ex : Z) :
  0 < n ->
  valid_binary (S754_finite false mx ex) = true ->
  n * 2 ^ 1074 <= float_units (Z.pos mx) ex ->
  exists c mc ec,
    float_of_int n = Return c
    /\ Prim2SF c = S754_finite false mc ec
    /\ float_units (Z.pos mc) ec <= float_units (Z.pos mx) ex.
Proof.
  intros Hn Hv Hle. destruct n as [| p | p]; [lia | | lia].
  rewrite <- units_int in Hle.
  destruct (binary_round_le p mx 0 ex ltac:(lia) Hv Hle)
    as (mr & er & Heq & Hvr & Hur).
  exists (SF2Prim (S754_finite false mr er)), mr, er.
  split; [| split; [by apply Prim2SF_SF2Prim | exact Hur]].
  unfold float_of_int. cbn [binary_normalize]. by rewrite Heq.
Qed.

Lemma shl_align_units (m : positive) (e ez : Z) :
  -1074 <= ez -> ez <= e ->
  float_units (Z.pos (fst (shl_align m e ez))) ez = float_units (Z.pos m) e.
Proof.
  intros Hez Hle. destruct (shl_align_eq m e ez) as [Hm _]. rewrite Hm.
  replace (Z.min e ez) with ez by lia. unfold float_units.
  rewrite <- Z.mul_assoc, <- pow2_add by lia. do 2 f_equal. lia.
Qed.

(** The difference of two positive doubles, the smaller taken from the
    larger, is a double between 0 and the larger. *)
Lemma SFsub_le (ms mc : positive) (es ec : Z) :
  valid_binary (S754_finite false ms es) = true ->
  valid_binary (S754_finite false mc ec) = true ->
  float_units (Z.pos mc) ec <= float_units (Z.pos ms) es ->
  SFsub prec emax (S754_finite false ms es) (S754_finite false mc ec)
  = S754_zero false
  \/ exists mr er,
       SFsub prec emax (S754_finite false ms es) (S754_finite false mc ec)
       = S754_finite false mr er
       /\ float_units (Z.pos mr) er <= float_units (Z.pos ms) es.
Proof.
  intros Hvs Hvc Hle.
  destruct (valid_finite _ _ _ Hvs) as (Hes & _).
  destruct (valid_finite _ _ _ Hvc) as (Hec & _).
  cbn [SFsub cond_Zopp]. set (ez := Z.min es ec).
  pose proof (shl_align_units ms es ez ltac:(lia) ltac:(lia)) as Hus.
  pose proof (shl_align_units mc ec ez ltac:(lia) ltac:(lia)) as Huc.
  set (ms' := Z.pos (fst (shl_align ms es ez))) in *.
  set (mc' := Z.pos (fst (shl_align mc ec ez))) in *.
  assert (Hp : 0 < 2 ^ (ez + 1074)) by (apply pow2_pos; lia).
  assert (Hd : float_units (ms' - mc') ez = float_units (Z.pos ms) es - float_units (Z.pos mc) ec).
  { rewrite <- Hus, <- Huc. unfold float_units. lia. }
  assert (Hd0 : 0 <= ms' - mc').
  { assert (Hnn : 0 <= float_units (ms' - mc') ez) by lia.
    unfold float_units in Hnn. nia. }
  destruct (ms' - mc') as [| p | p] eqn:Hdiff; [by left | | lia].
  right. cbn [binary_normalize].
  pose proof (units_pos mc ec ltac:(lia)) as Hcpos.
  destruct (binary_round_le p ms ez es ltac:(lia) Hvs ltac:(lia))
    as (mr & er & Heq & _ & Hur).
  by exists mr, er.
Qed.

Lemma float_ge_int_not_lt (x : float) (n : Z) :
  float_ge_int x n = true -> float_lt_int x n = false.
Proof.
  unfold float_ge_int, float_lt_int.
  by destruct (float_compare_int x n) as [[] |].
Qed.

(** The sum the refill computes exists and is not below zero. *)
Lemma refill_sum_not_negative (tb : TokenBucket.t) (now : float) :
  steady tb ->
  float_lt_int (now - TokenBucket.last_update tb) 0 = false ->
  exists refilled,
    num_add_float (TokenBucket.tokens tb)
      ((now - TokenBucket.last_update tb) * TokenBucket.rate tb)
    = Return refilled
    /\ sf_not_negative (Prim2SF refilled).
Proof.
  intros (Hcap & [full Hfull] & Hrate & Htok) Hel.
  apply float_lt_int_0_false in Hel, Hrate.
  assert (Hadd : sf_not_negative
                   (Prim2SF ((now - TokenBucket.last_update tb)
                             * TokenBucket.rate tb))).
  { rewrite mul_spec. by apply SFmul_not_negative. }
  destruct (TokenBucket.tokens tb) as [n | x]; cbn [num_add_float].
  - destruct (float_of_int_returns n _ full Htok Hfull) as (c & Hc & Hnn).
    rewrite Hc. eexists. split; [reflexivity |].
    rewrite add_spec. by apply SFadd_not_negative.
  - apply float_lt_int_0_false in Htok. eexists. split; [reflexivity |].
    rewrite add_spec. by apply SFadd_not_negative.
Qed.

(** [min(capacity, refilled)] is in range. *)
Lemma py_min_in_range (cap : Z) (s : float) :
  0 <= cap -> sf_not_negative (Prim2SF s) ->
  num_ge_int (py_min cap s) 0 = true
  /\ num_le_int (py_min cap s) cap = true
  /\ match py_min cap s with
     | PInt n => n = cap
     | PFloat x => x = s /\ float_lt_int s cap = true
     end.
Proof.
  intros Hcap Hnn. unfold py_min.
  destruct (float_lt_int s cap) eqn:Hlt; cbn [num_ge_int num_le_int].
  - split; [| split; [| done]].
    + unfold float_ge_int. unfold float_lt_int in Hlt.
      unfold float_compare_int in *.
      destruct (Prim2SF s) as [sg | sg | | sg m e] eqn:Hs;
        cbn [sf_not_negative] in Hnn; subst; try done.
      destruct (valid_finite _ _ _ (prim_valid_finite s _ m e Hs)) as (He & _).
      pose proof (units_pos m e ltac:(lia)) as Hu. unfold float_units in Hu.
      cbn [cond_Zopp]. rewrite Z.mul_0_l.
      by replace (Z.pos m * 2 ^ (e + 1074) ?= 0) with Gt
        by (symmetry; apply Z.compare_gt_iff; lia).
    + unfold float_le_int. unfold float_lt_int in Hlt.
      by destruct (float_compare_int s cap) as [[] |].
  - split; [apply Z.leb_le; lia |]. split; [apply Z.leb_refl | done].
Qed.

(** Taking a cost out of a float count that holds it leaves a count in
    range. *)
Lemma deduct_in_range (cap cost : Z) (s : float) :
  0 <= cost -> sf_not_negative (Prim2SF s) ->
  float_lt_int s cap = true -> float_ge_int s cost = true ->
  exists y,
    float_of_int cost = Return y
    /\ float_ge_int (s - y) 0 = true
    /\ float_le_int (s - y) cap = true.
Proof.
  intros Hcost Hnn Hlt Hge.
  unfold float_lt_int, float_ge_int, float_le_int, float_compare_int in *.
  destruct (Prim2SF s) as [sg | sg | | sg m e] eqn:Hs;
    cbn [sf_not_negative] in Hnn; subst; try done.
  - (* a zero *)
    assert (cost = 0) as ->.
    { destruct (Z.compare_spec 0 cost); [done | done | lia]. }
    destruct float_of_int_zero as [H0 H0']. eexists. split; [exact H0 |].
    rewrite sub_spec, Hs, H0'. unfold SF64sub.
    destruct sg; cbn [SFsub]; (split; [done |]);
      by destruct (0 ?= cap).
  - (* a positive double *)
    pose proof (prim_valid_finite s _ m e Hs) as Hv.
    destruct (valid_finite _ _ _ Hv) as (He & _).
    cbn [cond_Zopp] in *.
    assert (Hltc : float_units (Z.pos m) e < cap * 2 ^ 1074).
    { unfold float_units. destruct (Z.compare_spec (Z.pos m * 2 ^ (e + 1074))
                                (cap * 2 ^ 1074)); done. }
    assert (Hgec : cost * 2 ^ 1074 <= float_units (Z.pos m) e).
    { unfold float_units. destruct (Z.compare_spec (Z.pos m * 2 ^ (e + 1074))
                                (cost * 2 ^ 1074)); [lia | done | lia]. }
    destruct (Z.eq_dec cost 0) as [-> | Hc0].
    + destruct float_of_int_zero as [H0 H0']. eexists. split; [exact H0 |].
      rewrite sub_spec, Hs, H0'. unfold SF64sub. cbn [SFsub cond_Zopp].
      pose proof (units_pos m e ltac:(lia)) as Hu. unfold float_units in Hu, Hltc.
      rewrite Z.mul_0_l.
      replace (Z.pos m * 2 ^ (e + 1074) ?= 0) with Gt
        by (symmetry; apply Z.compare_gt_iff; lia).
      replace (Z.pos m * 2 ^ (e + 1074) ?= cap * 2 ^ 1074) with Lt
        by (symmetry; apply Z.compare_lt_iff; lia).
      done.
    + destruct (float_of_int_le cost m e ltac:(lia) Hv Hgec)
        as (y & mc & ec & Hy & Hyc & Hule).
      exists y. split; [exact Hy |].
      pose proof (prim_valid_finite y _ mc ec Hyc) as Hvc.
      pose proof (SFsub_le m mc e ec Hv Hvc Hule) as Hsub.
      pose proof (sub_spec s y) as Hspec. rewrite Hs, Hyc in Hspec.
      unfold SF64sub in Hspec.
      destruct Hsub as [Hz | (mr & er & Hr & Hur)].
      * rewrite Hz in Hspec. rewrite Hspec. split; [done |].
        pose proof (units_pos m e ltac:(lia)) as Hu.
        assert (0 < cap * 2 ^ 1074) by lia.
        assert (0 < cap) by nia.
        by replace (0 ?= cap) with Lt
          by (symmetry; apply Z.compare_lt_iff; lia).
      * rewrite Hr in Hspec. rewrite Hspec. cbn [cond_Zopp].
        pose proof (prim_valid_finite (s - y) _ mr er Hspec) as Hvr.
        destruct (valid_finite _ _ _ Hvr) as (Her & _).
        pose proof (units_pos mr er ltac:(lia)) as Hu.
        unfold float_units in Hu, Hur, Hltc. rewrite Z.mul_0_l.
        replace (Z.pos mr * 2 ^ (er + 1074) ?= 0) with Gt
          by (symmetry; apply Z.compare_gt_iff; lia).
        replace (Z.pos mr * 2 ^ (er + 1074) ?= cap * 2 ^ 1074) with Lt
          by (symmetry; apply Z.compare_lt_iff; lia).
        done.
Qed.

(** Adding to a zero gives a number that compares as what was added. *)
Lemma add_to_zero_compare (z p : float) (n : Z) :
  (exists sg, Prim2SF z = S754_zero sg) ->
  float_compare_int (z + p) n = float_compare_int p n.
Proof.
  intros [sg Hz]. unfold float_compare_int. rewrite add_spec, Hz.
  unfold SF64add.
  destruct (Prim2SF p) as [sp | sp | | sp mp ep]; cbn [SFadd]; try done.
  by destruct sg, sp.
Qed.

Lemma not_negative_le_0_zero (x : float) :
  float_lt_int x 0 = false -> float_le_int x 0 = true ->
  exists sg, Prim2SF x = S754_zero sg.
Proof.
  intros Hnn%float_lt_int_0_false Hle.
  unfold float_le_int, float_compare_int in Hle.
  destruct (Prim2SF x) as [sg | sg | | sg m e] eqn:Hx;
    cbn [sf_not_negative] in Hnn; subst; try done.
  - by exists sg.
  - destruct (valid_finite _ _ _ (prim_valid_finite x _ m e Hx)) as (He & _).
    pose proof (units_pos m e ltac:(lia)) as Hu. unfold float_units in Hu.
    cbn [cond_Zopp] in Hle. rewrite Z.mul_0_l in Hle.
    by replace (Z.pos m * 2 ^ (e + 1074) ?= 0) with Gt in Hle
      by (symmetry; apply Z.compare_gt_iff; lia).
Qed.

(** An empty bucket to which at least the capacity is added is full. *)
Lemma refill_from_empty (tb : TokenBucket.t) (p refilled : float) :
  steady tb ->
  num_le_int (TokenBucket.tokens tb) 0 = true ->
  float_ge_int p (TokenBucket.capacity tb) = true ->
  num_add_float (TokenBucket.tokens tb) p = Return refilled ->
  py_min (TokenBucket.capacity tb) refilled = PInt (TokenBucket.capacity tb).
Proof.
  intros (Hcap & _ & _ & Htok) Hempty Hge Hsum.
  assert (Hcmp : float_compare_int refilled (TokenBucket.capacity tb)
                 = float_compare_int p (TokenBucket.capacity tb)).
  { destruct (TokenBucket.tokens tb) as [n | x];
      cbn [num_add_float num_le_int] in *.
    - apply Z.leb_le in Hempty. assert (n = 0) as -> by lia.
      destruct float_of_int_zero as [H0 H0']. rewrite H0 in Hsum.
      injection Hsum as <-. apply add_to_zero_compare. by eexists.
    - injection Hsum as <-. apply add_to_zero_compare.
      by apply not_negative_le_0_zero. }
  unfold py_min, float_lt_int. rewrite Hcmp.
  unfold float_ge_int in Hge.
  by destruct (float_compare_int p (TokenBucket.capacity tb)) as [[] |].
Qed.

Lemma init_steady (burst_size : Z) (requests_per_second now : float)
    (tb : TokenBucket.t) :
  0 <= burst_size ->
  float_lt_int requests_per_second 0 = false ->
  TokenBucket.init burst_size requests_per_second now = Return tb ->
  steady tb.
Proof.
  intros Hb Hr. unfold TokenBucket.init.
  destruct (float_of_int burst_size) as [full | e] eqn:Hfull; [| done].
  intros [= <-]. unfold steady. cbn.
  split; [exact Hb |]. split; [by exists full |]. split; [exact Hr |].
  destruct (float_of_int_returns burst_size burst_size full ltac:(lia) Hfull)
    as (c & Hc & Hnn).
  rewrite Hfull in Hc. injection Hc as <-. by apply float_lt_int_0_false.
Qed.

(** One call on a steady bucket. *)
Lemma allow_request_step (tb : TokenBucket.t) (now : float) (cost : Z) :
  steady tb ->
  float_lt_int (now - TokenBucket.last_update tb) 0 = false ->
  0 <= cost ->
  let tokens_to_add :=
    ((now - TokenBucket.last_update tb) * TokenBucket.rate tb)%float in
  let counted :=
    TokenBucket.with_stats tb (count_request (TokenBucket.stats tb)) in
  exists refilled tb1 admitted tb',
    num_add_float (TokenBucket.tokens tb) tokens_to_add = Return refilled
    /\ TokenBucket._refill_tokens counted now = Return tb1
    /\ TokenBucket.tokens tb1 = py_min (TokenBucket.capacity tb) refilled
    /\ TokenBucket.allow_request tb now cost = (Return admitted, tb')
    /\ admitted = num_ge_int (TokenBucket.tokens tb1) cost
    /\ (if admitted
        then num_sub_int (TokenBucket.tokens tb1) cost
             = Return (TokenBucket.tokens tb')
        else TokenBucket.tokens tb' = TokenBucket.tokens tb1)
    /\ TokenBucket.capacity tb' = TokenBucket.capacity tb
    /\ TokenBucket.tokens_in_range tb' = true
    /\ (num_le_int (TokenBucket.tokens tb) 0 = true ->
        float_ge_int tokens_to_add (TokenBucket.capacity tb) = true ->
        TokenBucket.tokens tb1 = PInt (TokenBucket.capacity tb))
    /\ steady tb'.
Proof.
  intros Hst Hel Hcost tokens_to_add counted.
  destruct (refill_sum_not_negative tb now Hst Hel) as (refilled & Hsum & Hnn).
  fold tokens_to_add in Hsum.
  pose proof Hst as (Hcap & Hfull & Hrate & Htok).
  destruct (py_min_in_range (TokenBucket.capacity tb) refilled Hcap Hnn)
    as (Hlo & Hhi & Hmin).
  set (tb1 := {| TokenBucket.capacity := TokenBucket.capacity tb;
                 TokenBucket.tokens :=
                   py_min (TokenBucket.capacity tb) refilled;
                 TokenBucket.rate := TokenBucket.rate tb;
                 TokenBucket.last_update := now;
                 TokenBucket.stats := count_request (TokenBucket.stats tb) |}).
  assert (Hrefill : TokenBucket._refill_tokens counted now = Return tb1).
  { unfold TokenBucket._refill_tokens, counted. cbn. fold tokens_to_add.
    by rewrite Hsum. }
  assert (Hempty : num_le_int (TokenBucket.tokens tb) 0 = true ->
                   float_ge_int tokens_to_add (TokenBucket.capacity tb) = true ->
                   TokenBucket.tokens tb1 = PInt (TokenBucket.capacity tb)).
  { intros H0 Hge. by apply (refill_from_empty tb tokens_to_add). }
  exists refilled, tb1.
  unfold TokenBucket.allow_request. fold counted. rewrite Hrefill.
  destruct (num_ge_int (TokenBucket.tokens tb1) cost) eqn:Hadm.
  - (* admitted *)
    cbn [TokenBucket.tokens tb1] in Hadm |- *.
    destruct (py_min (TokenBucket.capacity tb) refilled) as [n | x] eqn:Hpm.
    + subst n. cbn [num_ge_int num_sub_int] in *. apply Z.leb_le in Hadm.
      eexists true, _. split; [exact Hsum |].
      do 6 (split; [reflexivity |]). split; [| split; [exact Hempty |]].
      * unfold TokenBucket.tokens_in_range. cbn.
        apply andb_true_intro. split; apply Z.leb_le; lia.
      * unfold steady. cbn. repeat (split; [done || lia |]). lia.
    + destruct Hmin as [-> Hlt]. cbn [num_ge_int num_sub_int] in *.
      destruct (deduct_in_range _ cost refilled Hcost Hnn Hlt Hadm)
        as (y & Hy & Hge0 & Hlec).
      rewrite Hy.
      eexists true, _. split; [exact Hsum |].
      do 6 (split; [reflexivity |]). split; [| split; [exact Hempty |]].
      * unfold TokenBucket.tokens_in_range. cbn. by rewrite Hge0, Hlec.
      * unfold steady. cbn. repeat (split; [done |]).
        by apply float_ge_int_not_lt.
  - (* rejected *)
    eexists false, _. split; [exact Hsum |].
    do 6 (split; [reflexivity |]). split; [| split; [exact Hempty |]].
    + unfold TokenBucket.tokens_in_range. cbn. by rewrite Hlo, Hhi.
    + unfold steady. cbn. repeat (split; [done |]).
      destruct (py_min (TokenBucket.capacity tb) refilled) as [n | x].
      * subst n. lia.
      * cbn [num_ge_int] in Hlo. by apply float_ge_int_not_lt.
Qed.

Lemma in_service_steady (tb : TokenBucket.t) :
  bucket_in_service tb -> steady tb.
Proof.
  induction 1 as [burst rps now tb Hb Hr Hinit
                 | tb now cost r tb' _ IH Hel Hcost Hcall].
  - by apply (init_steady burst rps now).
  - destruct (allow_request_step tb now cost IH Hel Hcost)
      as (? & ? & ? & tb'' & _ & _ & _ & Hcall' & _ & _ & _ & _ & _ & Hst).
    rewrite Hcall in Hcall'. by injection Hcall' as _ <-.
Qed.

(** C4 (as amended): on a bucket in service, built with a burst size and a
    rate that are not negative and asked so far with costs that are not
    negative at clock readings that did not go back, a call with a cost
    that is not negative, made when the elapsed time it computes is not
    negative, returns; it first refills the bucket to
    [min(capacity, tokens + elapsed * rate)], computed in doubles; it admits
    exactly when the refilled count is at least the cost, deducts the cost
    on admission and nothing on rejection; and it leaves
    [0 <= tokens <= capacity].  A bucket with no tokens is at its capacity
    after the one refill whose computed [elapsed * rate] is at least the
    capacity. *)
Theorem allow_request_keeps_tokens_in_range
    (tb : TokenBucket.t) (now : float) (cost : Z) :
  bucket_in_service tb ->
  float_lt_int (now - TokenBucket.last_update tb) 0 = false ->
  0 <= cost ->
  let tokens_to_add :=
    ((now - TokenBucket.last_update tb) * TokenBucket.rate tb)%float in
  let counted :=
    TokenBucket.with_stats tb (count_request (TokenBucket.stats tb)) in
  exists refilled tb1 admitted tb',
    num_add_float (TokenBucket.tokens tb) tokens_to_add = Return refilled
    /\ TokenBucket._refill_tokens counted now = Return tb1
    /\ TokenBucket.tokens tb1 = py_min (TokenBucket.capacity tb) refilled
    /\ TokenBucket.allow_request tb now cost = (Return admitted, tb')
    /\ admitted = num_ge_int (TokenBucket.tokens tb1) cost
    /\ (if admitted
        then num_sub_int (TokenBucket.tokens tb1) cost
             = Return (TokenBucket.tokens tb')
        else TokenBucket.tokens tb' = TokenBucket.tokens tb1)
    /\ TokenBucket.capacity tb' = TokenBucket.capacity tb
    /\ TokenBucket.tokens_in_range tb' = true
    /\ (num_le_int (TokenBucket.tokens tb) 0 = true ->
        float_ge_int tokens_to_add (TokenBucket.capacity tb) = true ->
        TokenBucket.tokens tb1 = PInt (TokenBucket.capacity tb)).
Proof.
  intros Hserv Hel Hcost tokens_to_add counted.
  destruct (allow_request_step tb now cost (in_service_steady tb Hserv)
              Hel Hcost)
    as (refilled & tb1 & admitted & tb' & H1 & H2 & H3 & H4 & H5 & H6 & H7
        & H8 & H9 & _).
  exists refilled, tb1, admitted, tb'. repeat (split; [assumption |]).
  assumption.
Qed.

Lemma allow_request_keeps_tokens_in_range_witness :
  TokenBucket.tokens_in_range
    (snd (TokenBucket.allow_request default_bucket 1 1)) = true.
Proof.
  assert (Hserv : bucket_in_service default_bucket).
  { apply (service_init 10 100 0); [lia | reflexivity | reflexivity]. }
  destruct (allow_request_keeps_tokens_in_range default_bucket 1 1 Hserv
              eq_refl ltac:(lia))
    as (refilled & tb1 & admitted & tb' & _ & _ & _ & Hcall & _ & _ & _
        & Hrange & _).
  rewrite Hcall. exact Hrange.
Defined.

(** C4, counterexamples.  A full bucket of capacity 10 asked for a cost of
    -5 admits the request and ends with 15 tokens, above its capacity.  An
    emptied bucket of capacity 1 and rate 0.1 that is polled every second
    holds 0.99999999999999989 tokens at time 10, [capacity / rate] seconds
    after it was emptied, and rejects a request there, while the same bucket
    left alone until time 10 admits it.  A negative rate, a clock that goes
    back and a negative burst size each leave a negative token count, and a
    burst size of [2^1024] has no double, so that the constructor raises. *)
Lemma allow_request_outside_the_provisos :
  (TokenBucket.init 10 100 0 = Return default_bucket
   /\ fst (TokenBucket.allow_request default_bucket 0 (-5)) = Return true
   /\ TokenBucket.tokens (snd (TokenBucket.allow_request default_bucket 0 (-5)))
      = PInt 15
   /\ TokenBucket.tokens_in_range
        (snd (TokenBucket.allow_request default_bucket 0 (-5))) = false)
  /\ (TokenBucket.init 1 (1 / 10) 0 = Return slow_bucket
      /\ (1 / (1 / 10) = 10)%float
      /\ fst (TokenBucket.allow_requests slow_bucket
                (polls [0; 1; 2; 3; 4; 5; 6; 7; 8; 9; 10]%float))
         = Return true :: repeat (Return false) 10
      /\ TokenBucket.tokens
           (snd (TokenBucket.allow_requests slow_bucket
                   (polls [0; 1; 2; 3; 4; 5; 6; 7; 8; 9; 10]%float)))
         = PFloat (1 - 0x1p-53)
      /\ fst (TokenBucket.allow_requests slow_bucket (polls [0; 10]%float))
         = [Return true; Return true])
  /\ (TokenBucket.init 10 (-1) 0 = Return (fresh_bucket 10 10 (-1) 0)
      /\ TokenBucket.tokens
           (snd (TokenBucket.allow_request (fresh_bucket 10 10 (-1) 0) 20 1))
         = PFloat (-10)
      /\ TokenBucket.tokens_in_range
           (snd (TokenBucket.allow_request (fresh_bucket 10 10 (-1) 0) 20 1))
         = false)
  /\ (TokenBucket.init 10 100 5 = Return (fresh_bucket 10 10 100 5)
      /\ TokenBucket.tokens
           (snd (TokenBucket.allow_request (fresh_bucket 10 10 100 5) 4 1))
         = PFloat (-90)
      /\ TokenBucket.tokens_in_range
           (snd (TokenBucket.allow_request (fresh_bucket 10 10 100 5) 4 1))
         = false)
  /\ (TokenBucket.init (-1) 100 0 = Return (fresh_bucket (-1) (-1) 100 0)
      /\ TokenBucket.tokens
           (snd (TokenBucket.allow_request (fresh_bucket (-1) (-1) 100 0) 4 1))
         = PInt (-1)
      /\ TokenBucket.tokens_in_range
           (snd (TokenBucket.allow_request (fresh_bucket (-1) (-1) 100 0) 4 1))
         = false)
  /\ TokenBucket.init (2 ^ 1024) 100 0 = Raise OverflowError.
Proof. repeat split; vm_compute; reflexivity. Qed.

Lemma py_int_small (x : Q) : (0 <= x)%Q -> (x < 1)%Q -> py_int x = 0.
Proof.
  destruct x as [n d]. unfold Qle, Qlt, py_int; simpl. intros Hlo Hhi.
  apply Z.quot_small. lia.
Qed.

Lemma py_int_below_one (x : Q) : (x < 1)%Q -> py_int x <= 0.
Proof.
  destruct x as [n d]. unfold Qlt, py_int; simpl. intros Hhi.
  destruct (Z.le_gt_cases 0 n) as [Hn | Hn].
  - rewrite Z.quot_small; lia.
  - apply Z.quot_le_upper_bound; lia.
Qed.

Lemma py_int_small_abs (x : Q) : (-1 < x)%Q -> (x < 1)%Q -> py_int x = 0.
Proof.
  destruct x as [n d]. unfold Qlt, py_int; simpl. intros Hlo Hhi.
  destruct (Z.le_gt_cases 0 n) as [Hn | Hn].
  - apply Z.quot_small. lia.
  - rewrite <- (Z.opp_involutive n), Z.quot_opp_l by lia.
    rewrite Z.quot_small by lia. reflexivity.
Qed.

Lemma py_int_negative (x : Q) : (x <= -1)%Q -> py_int x < 0.
Proof.
  destruct x as [n d]. unfold Qle, py_int; simpl. intros Hhi.
  rewrite <- (Z.opp_involutive n), Z.quot_opp_l by lia.
  assert (1 <= (- n) ÷ Z.pos d); [| lia].
  apply Z.quot_le_lower_bound; lia.
Qed.

(** A limiter whose limit is not positive rejects every request and keeps
    its limit and its log. *)
Lemma sliding_window_rejects (sw : SlidingWindow.t) (now now' : Q) :
  SlidingWindow.max_requests sw <= 0 ->
  fst (SlidingWindow.allow_request sw now now') = false
  /\ SlidingWindow.max_requests (snd (SlidingWindow.allow_request sw now now'))
     = SlidingWindow.max_requests sw.
Proof.
  intros Hmax. unfold SlidingWindow.allow_request.
  destruct (Z.of_nat (length (SlidingWindow.request_times
                                (SlidingWindow._clean_old_requests sw now)))
            <? SlidingWindow.max_requests
                 (SlidingWindow._clean_old_requests sw now)) eqn:Hlt.
  - apply Z.ltb_lt in Hlt. simpl in Hlt. lia.
  - split; reflexivity.
Qed.

Lemma sliding_window_rejects_all (clock : list (Q * Q)) :
  forall sw : SlidingWindow.t,
    SlidingWindow.max_requests sw <= 0 ->
    Forall (fun r => r = false) (fst (SlidingWindow.allow_requests sw clock)).
Proof.
  induction clock as [| [now now'] rest IH]; intros sw Hmax; simpl.
  - constructor.
  - destruct (sliding_window_rejects sw now now' Hmax) as [Hr Hm].
    destruct (SlidingWindow.allow_request sw now now') as [r sw1].
    simpl in Hr, Hm. specialize (IH sw1 ltac:(lia)).
    destruct (SlidingWindow.allow_requests sw1 rest) as [rs sw2].
    simpl in *. constructor; [exact Hr | exact IH].
Qed.

(** C10 (as amended): a sliding-window limiter made with a rate below 1
    has a limit [max_requests] that is not positive: 0 for a rate above -1,
    since [int()] truncates towards zero, and negative for a rate of -1 or
    less; and every [allow_request] call on it, at whatever times, returns
    [False]. *)
Theorem sliding_window_sub_one_rate_admits_nothing
    (cfg : RateLimitConfig) (clock : list (Q * Q)) :
  (requests_per_second cfg < 1)%Q ->
  SlidingWindow.max_requests (SlidingWindow.init cfg) <= 0
  /\ ((-1 < requests_per_second cfg)%Q ->
      SlidingWindow.max_requests (SlidingWindow.init cfg) = 0)
  /\ ((requests_per_second cfg <= -1)%Q ->
      SlidingWindow.max_requests (SlidingWindow.init cfg) < 0)
  /\ Forall (fun r => r = false)
       (fst (SlidingWindow.allow_requests (SlidingWindow.init cfg) clock)).
Proof.
  intros Hhi.
  assert (Hmax : SlidingWindow.max_requests (SlidingWindow.init cfg) <= 0)
    by (by apply py_int_below_one).
  split; [exact Hmax |]. split; [| split].
  - intros Hlo. simpl. by apply py_int_small_abs.
  - intros Hlo. simpl. by apply py_int_negative.
  - apply sliding_window_rejects_all. exact Hmax.
Qed.

Lemma sliding_window_sub_one_rate_admits_nothing_witness :
  SlidingWindow.max_requests
    (SlidingWindow.init {| requests_per_second := 1 # 2; burst_size := 10 |})
  = 0
  /\ Forall (fun r => r = false)
       (fst (SlidingWindow.allow_requests
               (SlidingWindow.init
                  {| requests_per_second := 1 # 2; burst_size := 10 |})
               [(0, 0); (3, 3); (10, 10)]%Q)).
Proof.
  destruct (sliding_window_sub_one_rate_admits_nothing
              {| requests_per_second := 1 # 2; burst_size := 10 |}
              [(0, 0); (3, 3); (10, 10)]%Q) as (_ & Hzero & _ & Hall).
  - reflexivity.
  - split; [apply Hzero; reflexivity | exact Hall].
Defined.

(** C10, counterexample: the rate -3/2 is strictly less than 1, and the
    limit of the limiter made with it is [int(-1.5) = -1], not 0. *)
Lemma sliding_window_negative_rate_limit :
  (requests_per_second {| requests_per_second := -3 # 2; burst_size := 10 |}
   < 1)%Q
  /\ SlidingWindow.max_requests
       (SlidingWindow.init
          {| requests_per_second := -3 # 2; burst_size := 10 |})
     = -1
  /\ SlidingWindow.max_requests
       (SlidingWindow.init
          {| requests_per_second := -3 # 2; burst_size := 10 |})
     <> 0.
Proof. repeat split; vm_compute; discriminate. Qed.

(** ** Least connections *)

Lemma read_count_fst (conns : gmap string Z) (server : string) :
  fst (LeastConnections.read_count conns server) = cnt conns server.
Proof.
  unfold LeastConnections.read_count, cnt.
  by destruct (conns !! server).
Qed.

Lemma read_count_snd (conns : gmap string Z) (server x : string) :
  cnt (snd (LeastConnections.read_count conns server)) x = cnt conns x.
Proof.
  unfold LeastConnections.read_count, cnt.
  destruct (conns !! server) eqn:Hs; simpl; [done |].
  destruct (decide (server = x)) as [-> | Hne].
  - by rewrite lookup_insert_eq, Hs.
  - by rewrite lookup_insert_ne.
Qed.

Lemma scan_inv_step (conns : gmap string Z) (p : list string)
    (best : option (Z * string)) (server : string) :
  scan_inv conns p best ->
  scan_inv conns (p ++ [server])
    (match best with
     | None => Some (cnt conns server, server)
     | Some (min_connections, _) =>
         if cnt conns server <? min_connections
         then Some (cnt conns server, server) else best
     end).
Proof.
  destruct best as [[m s] |]; simpl.
  - intros [-> (l1 & l2 & -> & Hl1 & Hl2)].
    destruct (cnt conns server <? cnt conns s) eqn:Hlt.
    + apply Z.ltb_lt in Hlt. split; [done |].
      exists (l1 ++ s :: l2), []. split; [done |]. split; [| constructor].
      apply Forall_app. split.
      * eapply Forall_impl; [exact Hl1 |]. simpl. intros x Hx. lia.
      * constructor; [lia |].
        eapply Forall_impl; [exact Hl2 |]. simpl. intros x Hx. lia.
    + apply Z.ltb_ge in Hlt. split; [done |].
      exists l1, (l2 ++ [server]). split; [by rewrite <- app_assoc |].
      split; [exact Hl1 |].
      apply Forall_app. split; [exact Hl2 |]. constructor; [lia | constructor].
  - intros ->. split; [done |].
    exists [], []. repeat split; constructor.
Qed.

Lemma scan_spec (conns0 : gmap string Z) (l : list string) :
  forall (p : list string) (conns : gmap string Z) (best : option (Z * string)),
    (forall x, cnt conns x = cnt conns0 x) ->
    scan_inv conns0 p best ->
    scan_inv conns0 (p ++ l) (fst (LeastConnections.scan l conns best))
    /\ forall x, cnt (snd (LeastConnections.scan l conns best)) x = cnt conns0 x.
Proof.
  induction l as [| server rest IH]; intros p conns best Heq Hinv; simpl.
  - by rewrite app_nil_r.
  - pose proof (read_count_fst conns server) as Hf.
    pose proof (read_count_snd conns server) as Hs.
    destruct (LeastConnections.read_count conns server) as [c conns1].
    simpl in Hf, Hs. subst c. rewrite Heq.
    replace (p ++ server :: rest) with ((p ++ [server]) ++ rest)
      by (by rewrite <- app_assoc).
    apply IH.
    + intros x. by rewrite Hs.
    + by apply scan_inv_step.
Qed.


Lemma release_other (st : LeastConnections.t) (server x : string) :
  x <> server ->
  LeastConnections.count_of (LeastConnections.release_connection st server) x
  = LeastConnections.count_of st x.
Proof.
  intros Hne. unfold LeastConnections.count_of,
    LeastConnections.release_connection.
  destruct (LeastConnections.connections st !! server) as [c |]; [| done].
  destruct (0 <? c); [| done]. simpl. by rewrite lookup_insert_ne.
Qed.



(** The example of the specification: counts 5, 2, 8 select the server
    with 2, whose count becomes 3. *)
Example get_next_server_5_2_8 :
  fst (LeastConnections.get_next_server lc_example) = Some "s2"%string
  /\ LeastConnections.count_of
       (snd (LeastConnections.get_next_server lc_example)) "s2" = 3.
Proof. split; vm_compute; reflexivity. Qed.


(** ** IP hash *)

Lemma py_index_in_range {A} (l : list A) (i : Z) :
  0 <= i < Z.of_nat (length l) ->
  exists x, l !! Z.to_nat i = Some x /\ py_index l i = Return x.
Proof.
  intros Hi.
  destruct (lookup_lt_is_Some_2 l (Z.to_nat i)) as [x Hx]; [lia |].
  exists x. split; [exact Hx |]. unfold py_index.
  replace (0 <=? i) with true by lia.
  replace (i <? Z.of_nat (length l)) with true by lia.
  simpl. by rewrite Hx.
Qed.

Lemma foldl_delete_lookup (ks : list string) :
  forall (m : gmap string string) (k : string),
    foldl (fun cache ip => delete ip cache) m ks !! k
    = if decide (k ∈ ks) then None else m !! k.
Proof.
  induction ks as [| k0 ks IH]; intros m k; simpl.
  - destruct (decide (k ∈ [])) as [Hin | _]; [by apply elem_of_nil in Hin | done].
  - rewrite IH.
    destruct (decide (k ∈ ks)) as [Hin | Hnin].
    + rewrite decide_True; [done | by right].
    + destruct (decide (k0 = k)) as [-> | Hne].
      * rewrite decide_True; [apply lookup_delete_eq | by left].
      * rewrite decide_False; [by apply lookup_delete_ne |].
        intros Hk. apply elem_of_cons in Hk as [-> | Hk]; done.
Qed.

Lemma elem_of_clients_to_remove (cache : gmap string string)
    (backend_id ip : string) :
  ip ∈ IPHash.clients_to_remove cache backend_id <->
  cache !! ip = Some backend_id.
Proof.
  unfold IPHash.clients_to_remove. rewrite list_elem_of_fmap. split.
  - intros ([k v] & -> & Hin). apply list_elem_of_filter in Hin as [Hv Hin].
    simpl in *. subst v. by apply elem_of_map_to_list in Hin.
  - intros Hl. exists (ip, backend_id). split; [done |].
    apply list_elem_of_filter. split; [done |].
    by apply elem_of_map_to_list.
Qed.

(** [remove_backend b] deletes exactly the entries that map to [b]. *)
Lemma remove_backend_lookup (st : IPHash.t) (backend_id ip : string) :
  IPHash.backend_cache (IPHash.remove_backend st backend_id) !! ip
  = if decide (IPHash.backend_cache st !! ip = Some backend_id)
    then None else IPHash.backend_cache st !! ip.
Proof.
  unfold IPHash.remove_backend; simpl. rewrite foldl_delete_lookup.
  destruct (decide (ip ∈ IPHash.clients_to_remove
                          (IPHash.backend_cache st) backend_id)) as [Hin | Hnin].
  - apply elem_of_clients_to_remove in Hin. by rewrite decide_True.
  - rewrite decide_False; [done |].
    intros Hl. by apply Hnin, elem_of_clients_to_remove.
Qed.

(** A call for a client with a cached backend that is still eligible
    returns it and keeps the cache. *)
Lemma select_backend_cached (md5_int : string -> Z) (st : IPHash.t)
    (backends : list string) (client_ip b : string) :
  str_truthy client_ip = true ->
  IPHash.backend_cache st !! client_ip = Some b ->
  b ∈ backends ->
  exists st',
    IPHash.select_backend md5_int st backends client_ip
    = (Return (Some b), st')
    /\ IPHash.backend_cache st' = IPHash.backend_cache st.
Proof.
  intros Hip Hc Hin. unfold IPHash.select_backend.
  destruct backends as [| first rest]; [by apply elem_of_nil in Hin |].
  rewrite Hip, Hc; simpl. rewrite bool_decide_eq_true_2 by done.
  eexists. split; reflexivity.
Qed.

(** A call for a client without a usable cache entry returns the backend at
    position [md5 mod len] and caches it. *)
Lemma select_backend_fresh (md5_int : string -> Z) (st : IPHash.t)
    (backends : list string) (client_ip : string) :
  backends <> [] ->
  str_truthy client_ip = true ->
  (forall c, IPHash.backend_cache st !! client_ip = Some c -> c ∉ backends) ->
  exists b st',
    IPHash.select_backend md5_int st backends client_ip
    = (Return (Some b), st')
    /\ backends !! Z.to_nat (md5_int client_ip mod Z.of_nat (length backends))
       = Some b
    /\ IPHash.backend_cache st'
       = <[client_ip := b]> (IPHash.backend_cache st).
Proof.
  intros Hne Hip Hstale.
  destruct (py_index_in_range backends
              (md5_int client_ip mod Z.of_nat (length backends)))
    as (b & Hb & Hidx).
  { apply Z.mod_pos_bound. destruct backends; [done | simpl; lia]. }
  exists b. unfold IPHash.select_backend.
  destruct backends as [| first rest] eqn:Hbs; [done |]. rewrite <- Hbs in *.
  rewrite Hip; simpl.
  destruct (IPHash.backend_cache st !! client_ip) as [c |] eqn:Hc.
  - rewrite bool_decide_eq_false_2 by (by apply Hstale).
    unfold IPHash._hash_ip. rewrite Hidx.
    eexists. split; [reflexivity |]. split; [exact Hb |].
    simpl. by rewrite insert_delete_eq.
  - unfold IPHash._hash_ip. rewrite Hidx.
    eexists. split; [reflexivity |]. split; [exact Hb | done].
Qed.

Lemma str_truthy_true (s : string) : str_truthy s = true <-> s <> ""%string.
Proof. destruct s; simpl; split; intros H; done. Qed.

Lemma select_many_cached (md5_int : string -> Z) (backends : list string)
    (client_ip b : string) (n : nat) :
  str_truthy client_ip = true ->
  b ∈ backends ->
  forall st : IPHash.t,
    IPHash.backend_cache st !! client_ip = Some b ->
    Forall (fun r => r = Return (Some b))
      (fst (IPHash.select_many md5_int n st backends client_ip)).
Proof.
  intros Hip Hin. induction n as [| n IH]; intros st Hc; simpl.
  - constructor.
  - destruct (select_backend_cached md5_int st backends client_ip b Hip Hc Hin)
      as (st1 & Hsel & Hcache).
    rewrite Hsel. specialize (IH st1 ltac:(by rewrite Hcache)).
    destruct (IPHash.select_many md5_int n st1 backends client_ip)
      as [rs st2].
    simpl in *. by constructor.
Qed.

(** C7: for a non-empty client id and a non-empty backend list, every call
    of a run of [select_backend] calls with that client and that list
    returns the same backend [b] of the list; [b] is the cached backend
    when the cache holds one that is still in the list, and otherwise (no
    entry, or a stale one, which is dropped) the backend at position
    [md5(client) mod len], which the first call caches; and
    [remove_backend b0] deletes exactly the cache entries that map to
    [b0]. *)
Theorem ip_hash_sticky (md5_int : string -> Z) (st : IPHash.t)
    (backends : list string) (client_ip : string) :
  backends <> [] ->
  client_ip <> ""%string ->
  (exists b,
     b ∈ backends
     /\ (forall n,
           Forall (fun r => r = Return (Some b))
             (fst (IPHash.select_many md5_int (S n) st backends client_ip)))
     /\ IPHash.backend_cache
          (snd (IPHash.select_backend md5_int st backends client_ip))
        !! client_ip = Some b
     /\ (forall c, IPHash.backend_cache st !! client_ip = Some c ->
                   c ∈ backends -> b = c)
     /\ ((forall c, IPHash.backend_cache st !! client_ip = Some c ->
                    c ∉ backends) ->
         backends
           !! Z.to_nat (md5_int client_ip mod Z.of_nat (length backends))
         = Some b))
  /\ (forall backend_id ip,
        IPHash.backend_cache (IPHash.remove_backend st backend_id) !! ip
        = if decide (IPHash.backend_cache st !! ip = Some backend_id)
          then None else IPHash.backend_cache st !! ip).
Proof.
  intros Hne Hip. apply str_truthy_true in Hip.
  split; [| intros; apply remove_backend_lookup].
  assert (Hcases :
    (exists c, IPHash.backend_cache st !! client_ip = Some c /\ c ∈ backends)
    \/ (forall c, IPHash.backend_cache st !! client_ip = Some c ->
                  c ∉ backends)).
  { destruct (IPHash.backend_cache st !! client_ip) as [c |].
    - destruct (decide (c ∈ backends)) as [Hin | Hnin].
      + left. by exists c.
      + right. intros c' [= <-]. exact Hnin.
    - right. intros c' [=]. }
  destruct Hcases as [(c & Hc & Hin) | Hstale].
  - destruct (select_backend_cached md5_int st backends client_ip c Hip Hc Hin)
      as (st1 & Hsel & Hcache).
    exists c. split; [exact Hin |]. split; [| split; [| split]].
    + intros n. by apply select_many_cached.
    + rewrite Hsel. simpl. by rewrite Hcache.
    + intros c' Hc' _. congruence.
    + intros Hno. exfalso. by apply (Hno c).
  - destruct (select_backend_fresh md5_int st backends client_ip Hne Hip Hstale)
      as (b & st1 & Hsel & Hb & Hcache).
    assert (Hin : b ∈ backends) by (by eapply list_elem_of_lookup_2).
    exists b. split; [exact Hin |]. split; [| split; [| split]].
    + intros n. simpl. rewrite Hsel.
      pose proof (select_many_cached md5_int backends client_ip b n Hip Hin st1)
        as Hrest.
      destruct (IPHash.select_many md5_int n st1 backends client_ip)
        as [rs st2].
      simpl in *. constructor; [done |]. apply Hrest.
      rewrite Hcache. apply lookup_insert_eq.
    + rewrite Hsel. simpl. rewrite Hcache. apply lookup_insert_eq.
    + intros c Hc Hcin. exfalso. by apply (Hstale c).
    + intros _. exact Hb.
Qed.

Lemma ip_hash_sticky_witness :
  exists b,
    b ∈ ["b1"; "b2"; "b3"]%string
    /\ (forall n,
          Forall (fun r => r = Return (Some b))
            (fst (IPHash.select_many toy_digest (S n) IPHash.init
                    ["b1"; "b2"; "b3"]%string "10.0.0.7")))
    /\ IPHash.backend_cache
         (snd (IPHash.select_backend toy_digest IPHash.init
                 ["b1"; "b2"; "b3"]%string "10.0.0.7"))
       !! "10.0.0.7"%string = Some b
    /\ (forall c, IPHash.backend_cache IPHash.init !! "10.0.0.7"%string = Some c
                  -> c ∈ ["b1"; "b2"; "b3"]%string -> b = c)
    /\ ((forall c,
           IPHash.backend_cache IPHash.init !! "10.0.0.7"%string = Some c ->
           c ∉ ["b1"; "b2"; "b3"]%string) ->
        ["b1"; "b2"; "b3"]%string
          !! Z.to_nat (toy_digest "10.0.0.7"
                       mod Z.of_nat (length ["b1"; "b2"; "b3"]%string))
        = Some b).
Proof.
  refine (proj1 (ip_hash_sticky toy_digest IPHash.init
                   ["b1"; "b2"; "b3"]%string "10.0.0.7" _ _)).
  - discriminate.
  - discriminate.
Defined.

(** ** Connection pool *)

Lemma dict_get_None_below {V} (d : list (Z * V)) (k : Z) :
  Forall (fun kv => kv.1 < k) d -> ConnectionPool.dict_get d k = None.
Proof.
  induction 1 as [| [k' v] d Hk _ IH]; simpl; [done |].
  simpl in Hk. rewrite decide_False by lia. exact IH.
Qed.

Lemma dict_set_fresh {V} (d : list (Z * V)) (k : Z) (v : V) :
  ConnectionPool.dict_get d k = None ->
  ConnectionPool.dict_set d k v = d ++ [(k, v)].
Proof.
  induction d as [| [k' v'] d IH]; simpl; [done |].
  destruct (decide (k' = k)); [done |]. intros H. by rewrite IH.
Qed.

Lemma dict_set_length_present {V} (d : list (Z * V)) (k : Z) (v : V) :
  is_Some (ConnectionPool.dict_get d k) ->
  length (ConnectionPool.dict_set d k v) = length d.
Proof.
  induction d as [| [k' v'] d IH]; simpl.
  - by intros [? ?].
  - destruct (decide (k' = k)); [done |]. intros H. simpl. by rewrite IH.
Qed.

Lemma dict_set_Forall {V} (P : Z * V -> Prop) (d : list (Z * V)) (k : Z) (v : V) :
  P (k, v) -> Forall P d -> Forall P (ConnectionPool.dict_set d k v).
Proof.
  intros Hk. induction 1 as [| [k' v'] d Hx Hd IH]; simpl.
  - by constructor.
  - destruct (decide (k' = k)); by constructor.
Qed.

Lemma dict_del_Forall {V} (P : Z * V -> Prop) (d : list (Z * V)) (k : Z) :
  Forall P d -> Forall P (ConnectionPool.dict_del d k).
Proof.
  induction 1 as [| [k' v'] d Hx Hd IH]; simpl; [done |].
  destruct (decide (k' = k)); [done | by constructor].
Qed.

Lemma dict_del_length {V} (d : list (Z * V)) (k : Z) :
  (length (ConnectionPool.dict_del d k) <= length d)%nat.
Proof.
  induction d as [| [k' v'] d IH]; simpl; [done |].
  destruct (decide (k' = k)); simpl; lia.
Qed.

Lemma dict_get_Some_elem {V} (d : list (Z * V)) (k : Z) (v : V) :
  ConnectionPool.dict_get d k = Some v -> (k, v) ∈ d.
Proof.
  induction d as [| [k' v'] d IH]; simpl; [done |].
  destruct (decide (k' = k)) as [-> | Hne].
  - intros [= ->]. by left.
  - intros H. right. by apply IH.
Qed.

Lemma find_by_handle_elem (d : list (Z * ConnectionPool.PooledConnection))
    (h : ConnectionPool.handle) (conn : ConnectionPool.PooledConnection) :
  ConnectionPool.find_by_handle d h = Some conn -> exists k, (k, conn) ∈ d.
Proof.
  induction d as [| [k c] d IH]; simpl; [done |].
  destruct (decide (ConnectionPool.connection c = h)).
  - intros [= ->]. exists k. by left.
  - intros H. destruct (IH H) as [k' Hk']. exists k'. by right.
Qed.

Lemma elem_dict_get_is_Some {V} (d : list (Z * V)) (k : Z) (v : V) :
  (k, v) ∈ d -> is_Some (ConnectionPool.dict_get d k).
Proof.
  induction d as [| [k' v'] d IH]; simpl.
  - intros H. by apply elem_of_nil in H.
  - intros H. destruct (decide (k' = k)); [by eexists |].
    apply elem_of_cons in H as [[= -> ->] | H]; [done | by apply IH].
Qed.

Lemma ids_ok_keys_below (p : ConnectionPool.t) :
  ids_ok p ->
  Forall (fun kc : Z * ConnectionPool.PooledConnection =>
            kc.1 < ConnectionPool.created_connections (ConnectionPool.stats p))
         (ConnectionPool.connections p).
Proof.
  intros H. eapply Forall_impl; [exact H |]. intros kc [_ Hk]. exact Hk.
Qed.

(** [_create_connection] keeps the pool well formed and adds at most one
    connection; when creation cannot fail and the pool is below its
    maximum it adds exactly one, stored under the id it returns. *)
Lemma create_connection_ok (cfg : ConnectionPool.PoolConfig)
    (factory : option (nat -> option ConnectionPool.handle))
    (p : ConnectionPool.t) (now : Q) :
  pool_ok cfg factory p ->
  pool_ok cfg factory (snd (ConnectionPool._create_connection p now))
  /\ ConnectionPool.available (snd (ConnectionPool._create_connection p now))
     = ConnectionPool.available p
  /\ ConnectionPool.running (snd (ConnectionPool._create_connection p now))
     = ConnectionPool.running p
  /\ (fst (ConnectionPool._create_connection p now) = None ->
      ConnectionPool.total (snd (ConnectionPool._create_connection p now))
      = ConnectionPool.total p)
  /\ (forall id, fst (ConnectionPool._create_connection p now) = Some id ->
      ConnectionPool.total (snd (ConnectionPool._create_connection p now))
      = ConnectionPool.total p + 1
      /\ is_Some (ConnectionPool.dict_get
                    (ConnectionPool.connections
                       (snd (ConnectionPool._create_connection p now))) id))
  /\ (factory_never_fails factory ->
      ConnectionPool.total p < ConnectionPool.max_connections cfg ->
      is_Some (fst (ConnectionPool._create_connection p now))).
Proof.
  intros (Hcfg & Hfac & Hids & Hmax).
  unfold ConnectionPool._create_connection. rewrite Hcfg, Hfac.
  destruct (ConnectionPool.max_connections cfg <=? ConnectionPool.total p)
    eqn:Hfull.
  { apply Z.leb_le in Hfull. simpl.
    repeat split; try done. lia. }
  apply Z.leb_gt in Hfull.
  assert (Hgrow : forall (p1 : ConnectionPool.t) (conn : ConnectionPool.handle),
    ConnectionPool.config p1 = cfg ->
    ConnectionPool.connection_factory p1 = factory ->
    ConnectionPool.connections p1 = ConnectionPool.connections p ->
    ConnectionPool.stats p1 = ConnectionPool.stats p ->
    let id := ConnectionPool.created_connections (ConnectionPool.stats p1) in
    let pc := {| ConnectionPool.connection_id := id;
                 ConnectionPool.connection := conn;
                 ConnectionPool.state := ConnectionPool.IDLE;
                 ConnectionPool.created_at := now;
                 ConnectionPool.last_used := now;
                 ConnectionPool.use_count := 0 |} in
    let d := ConnectionPool.dict_set (ConnectionPool.connections p1) id pc in
    d = ConnectionPool.connections p ++ [(id, pc)]
    /\ Forall (fun kc : Z * ConnectionPool.PooledConnection =>
                 ConnectionPool.connection_id kc.2 = kc.1 /\ kc.1 < id + 1) d
    /\ is_Some (ConnectionPool.dict_get d id)).
  { intros p1 conn _ _ Hc Hs id pc d.
    assert (Hd : d = ConnectionPool.connections p ++ [(id, pc)]).
    { subst d. rewrite Hc. apply dict_set_fresh, dict_get_None_below.
      subst id. rewrite Hs. by apply ids_ok_keys_below. }
    split; [exact Hd |]. split.
    - rewrite Hd. apply Forall_app. split.
      + eapply Forall_impl; [exact Hids |]. subst id. rewrite Hs.
        intros kc [H1 H2]. split; [done | lia].
      + constructor; [| constructor]. simpl. split; [done | lia].
    - apply (elem_dict_get_is_Some _ _ pc). rewrite Hd.
      apply elem_of_app. right. by left. }
  destruct factory as [f |]; simpl.
  - destruct (f (ConnectionPool.factory_calls p)) as [conn |] eqn:Hf; simpl.
    + destruct (Hgrow
                  (ConnectionPool.set_factory_calls p
                     (S (ConnectionPool.factory_calls p))) conn)
        as (Hd & Hall & Hget); try done.
      simpl in Hd, Hall, Hget.
      split; [| split; [done | split; [done | split; [done | split]]]].
      * split; [done |]. split; [done |]. split; [exact Hall |].
        unfold ConnectionPool.total in *; simpl. rewrite Hd, length_app.
        simpl. lia.
      * intros id [= <-]. split; [| exact Hget].
        unfold ConnectionPool.total; simpl. rewrite Hd, length_app.
        simpl. lia.
      * by intros _ _.
    + split; [| split; [done | split; [done | split; [done | split]]]].
      * by repeat split.
      * intros id [=].
      * intros Hnf _. destruct (Hnf (ConnectionPool.factory_calls p)) as [h Hh].
        congruence.
  - destruct (Hgrow p ConnectionPool.simulated_handle) as (Hd & Hall & Hget);
      try done.
    simpl in Hd, Hall, Hget.
    split; [| split; [done | split; [done | split; [done | split]]]].
    + split; [done |]. split; [done |]. split; [exact Hall |].
      unfold ConnectionPool.total in *; simpl. rewrite Hd, length_app.
      simpl. lia.
    + intros id [= <-]. split; [| exact Hget].
      unfold ConnectionPool.total; simpl. rewrite Hd, length_app.
      simpl. lia.
    + by intros _ _.
Qed.

(** Replacing a stored connection by an updated copy of itself changes
    neither the well-formedness nor the size of the pool. *)
Lemma update_present_ok (cfg : ConnectionPool.PoolConfig)
    (factory : option (nat -> option ConnectionPool.handle))
    (p p' : ConnectionPool.t) (id : Z)
    (conn conn' : ConnectionPool.PooledConnection) :
  pool_ok cfg factory p ->
  ConnectionPool.dict_get (ConnectionPool.connections p) id = Some conn ->
  ConnectionPool.connection_id conn' = ConnectionPool.connection_id conn ->
  ConnectionPool.config p' = ConnectionPool.config p ->
  ConnectionPool.connection_factory p' = ConnectionPool.connection_factory p ->
  ConnectionPool.connections p'
  = ConnectionPool.dict_set (ConnectionPool.connections p) id conn' ->
  ConnectionPool.created_connections (ConnectionPool.stats p')
  = ConnectionPool.created_connections (ConnectionPool.stats p) ->
  pool_ok cfg factory p' /\ ConnectionPool.total p' = ConnectionPool.total p.
Proof.
  intros (Hcfg & Hfac & Hids & Hmax) Hget Hid Hcfg' Hfac' Hd Hcr.
  assert (Hlen : ConnectionPool.total p' = ConnectionPool.total p).
  { unfold ConnectionPool.total. rewrite Hd.
    rewrite dict_set_length_present; [done | by eexists]. }
  split; [| exact Hlen].
  split; [congruence |]. split; [congruence |]. split; [| lia].
  unfold ids_ok in *. rewrite Hd, Hcr.
  apply dict_set_Forall; [| exact Hids].
  apply dict_get_Some_elem in Hget.
  rewrite Forall_forall in Hids. specialize (Hids _ Hget).
  simpl in *. destruct Hids as [Hkey Hbelow].
  split; [by rewrite Hid | exact Hbelow].
Qed.

Lemma close_connection_ok (cfg : ConnectionPool.PoolConfig)
    (factory : option (nat -> option ConnectionPool.handle))
    (p : ConnectionPool.t) (conn : ConnectionPool.PooledConnection) :
  pool_ok cfg factory p ->
  pool_ok cfg factory (ConnectionPool._close_connection p conn)
  /\ ConnectionPool.total (ConnectionPool._close_connection p conn)
     <= ConnectionPool.total p.
Proof.
  intros Hok. unfold ConnectionPool._close_connection.
  destruct (ConnectionPool.has_close (ConnectionPool.connection conn)
            && ConnectionPool.close_raises (ConnectionPool.connection conn));
    [split; [done | lia] |].
  destruct (ConnectionPool.dict_get (ConnectionPool.connections p)
              (ConnectionPool.connection_id conn)); [| split; [done | lia]].
  destruct Hok as (Hcfg & Hfac & Hids & Hmax).
  pose proof (dict_del_length (ConnectionPool.connections p)
                (ConnectionPool.connection_id conn)) as Hlen.
  assert (Htot : Z.of_nat (length (ConnectionPool.dict_del
                    (ConnectionPool.connections p)
                    (ConnectionPool.connection_id conn)))
                 <= ConnectionPool.total p)
    by (unfold ConnectionPool.total; lia).
  split; [| unfold ConnectionPool.total at 1; simpl; exact Htot].
  split; [done |]. split; [done |]. split.
  - unfold ids_ok in *. simpl.
    apply dict_del_Forall.
    destruct (decide (ConnectionPool.state conn = ConnectionPool.IDLE));
      exact Hids.
  - unfold ConnectionPool.total at 1; simpl. lia.
Qed.

Lemma close_all_ok (cfg : ConnectionPool.PoolConfig)
    (factory : option (nat -> option ConnectionPool.handle))
    (marked : list ConnectionPool.PooledConnection) :
  forall p : ConnectionPool.t,
    pool_ok cfg factory p ->
    pool_ok cfg factory (foldl ConnectionPool._close_connection p marked)
    /\ ConnectionPool.total (foldl ConnectionPool._close_connection p marked)
       <= ConnectionPool.total p.
Proof.
  induction marked as [| conn rest IH]; intros p Hok; simpl.
  - split; [done | lia].
  - destruct (close_connection_ok cfg factory p conn Hok) as [Hok1 Hle1].
    destruct (IH _ Hok1) as [Hok2 Hle2]. split; [done | lia].
Qed.

Lemma acquire_new_ok (cfg : ConnectionPool.PoolConfig)
    (factory : option (nat -> option ConnectionPool.handle))
    (p : ConnectionPool.t) (now : Q) :
  pool_ok cfg factory p ->
  pool_ok cfg factory (snd (ConnectionPool.acquire_new p now))
  /\ ConnectionPool.total p
     <= ConnectionPool.total (snd (ConnectionPool.acquire_new p now)).
Proof.
  intros Hok. unfold ConnectionPool.acquire_new.
  destruct (create_connection_ok cfg factory p now Hok)
    as (Hok1 & _ & _ & Hnone & Hsome & _).
  destruct (ConnectionPool._create_connection p now) as [[id |] p1];
    simpl in *.
  - destruct (Hsome id eq_refl) as [Htot _].
    destruct (ConnectionPool.dict_get (ConnectionPool.connections p1) id)
      as [conn |] eqn:Hget; simpl; [| split; [done | lia]].
    destruct (update_present_ok cfg factory p1
      (ConnectionPool.set_stats
         (ConnectionPool.set_connections p1
            (ConnectionPool.dict_set (ConnectionPool.connections p1) id
               (ConnectionPool.mark_used conn now)))
         (ConnectionPool.stats_on_acquire (ConnectionPool.stats p1) false))
      id conn (ConnectionPool.mark_used conn now)) as [Hok2 Htot2];
      try done.
    split; [done | lia].
  - specialize (Hnone eq_refl). split; [| unfold ConnectionPool.total in *; simpl; lia].
    destruct Hok1 as (? & ? & ? & ?). by repeat split.
Qed.

Lemma acquire_ok (cfg : ConnectionPool.PoolConfig)
    (factory : option (nat -> option ConnectionPool.handle))
    (p : ConnectionPool.t) (now : Q) :
  pool_ok cfg factory p ->
  pool_ok cfg factory (snd (ConnectionPool.acquire p now))
  /\ ConnectionPool.total p
     <= ConnectionPool.total (snd (ConnectionPool.acquire p now)).
Proof.
  intros Hok. unfold ConnectionPool.acquire.
  destruct (ConnectionPool.available p) as [| id rest] eqn:Hq;
    [by apply acquire_new_ok |].
  assert (Hok1 : pool_ok cfg factory (ConnectionPool.set_available p rest)).
  { destruct Hok as (? & ? & ? & ?). by repeat split. }
  destruct (ConnectionPool.dict_get
              (ConnectionPool.connections (ConnectionPool.set_available p rest))
              id) as [conn |] eqn:Hget.
  - destruct (update_present_ok cfg factory (ConnectionPool.set_available p rest)
      (ConnectionPool.set_stats
         (ConnectionPool.set_connections (ConnectionPool.set_available p rest)
            (ConnectionPool.dict_set
               (ConnectionPool.connections
                  (ConnectionPool.set_available p rest)) id
               (ConnectionPool.mark_used conn now)))
         (ConnectionPool.stats_on_acquire
            (ConnectionPool.stats (ConnectionPool.set_available p rest)) true))
      id conn (ConnectionPool.mark_used conn now)) as [Hok2 Htot2];
      try done.
    split; [done |]. simpl in *. unfold ConnectionPool.total in *. simpl in *.
    lia.
  - destruct (acquire_new_ok cfg factory _ now Hok1) as [Hok2 Hle].
    split; [done |]. unfold ConnectionPool.total in *. simpl in *. lia.
Qed.

Lemma release_ok (cfg : ConnectionPool.PoolConfig)
    (factory : option (nat -> option ConnectionPool.handle))
    (p : ConnectionPool.t) (h : ConnectionPool.handle) (now : Q) :
  pool_ok cfg factory p ->
  pool_ok cfg factory (ConnectionPool.release p h now)
  /\ ConnectionPool.total (ConnectionPool.release p h now)
     = ConnectionPool.total p.
Proof.
  intros Hok. unfold ConnectionPool.release.
  destruct (ConnectionPool.find_by_handle (ConnectionPool.connections p) h)
    as [conn |] eqn:Hfind; [| done].
  destruct (find_by_handle_elem _ _ _ Hfind) as [k Hk].
  assert (Hkey : ConnectionPool.connection_id conn = k).
  { destruct Hok as (_ & _ & Hids & _). unfold ids_ok in Hids.
    rewrite Forall_forall in Hids. by destruct (Hids _ Hk). }
  assert (Hget : exists c0,
            ConnectionPool.dict_get (ConnectionPool.connections p)
              (ConnectionPool.connection_id conn) = Some c0
            /\ ConnectionPool.connection_id c0
               = ConnectionPool.connection_id conn).
  { destruct (elem_dict_get_is_Some _ _ _ Hk) as [c0 Hc0].
    exists c0. rewrite Hkey. split; [done |].
    apply dict_get_Some_elem in Hc0.
    destruct Hok as (_ & _ & Hids & _). unfold ids_ok in Hids.
    rewrite Forall_forall in Hids. by destruct (Hids _ Hc0). }
  destruct Hget as (c0 & Hc0 & Hid0).
  eapply (update_present_ok cfg factory p _ _ c0
            (ConnectionPool.mark_idle conn now)); try done.
Qed.

Lemma set_available_ok (cfg : ConnectionPool.PoolConfig)
    (factory : option (nat -> option ConnectionPool.handle))
    (p : ConnectionPool.t) (q : list Z) :
  pool_ok cfg factory p -> pool_ok cfg factory (ConnectionPool.set_available p q).
Proof. intros (? & ? & ? & ?). by repeat split. Qed.

Lemma top_up_ok (cfg : ConnectionPool.PoolConfig)
    (factory : option (nat -> option ConnectionPool.handle)) (now : Q) :
  factory_never_fails factory ->
  ConnectionPool.min_connections cfg <= ConnectionPool.max_connections cfg ->
  forall (fuel : nat) (p : ConnectionPool.t),
    pool_ok cfg factory p ->
    (Z.to_nat (ConnectionPool.min_connections cfg - ConnectionPool.total p)
     <= fuel)%nat ->
    exists p',
      ConnectionPool.top_up fuel p now = Some p'
      /\ pool_ok cfg factory p'
      /\ ConnectionPool.min_connections cfg <= ConnectionPool.total p'.
Proof.
  intros Hnf Hmm. induction fuel as [| fuel IH]; intros p Hok Hfuel.
  - exists p. simpl. destruct Hok as (Hcfg & Hrest). rewrite Hcfg.
    replace (ConnectionPool.min_connections cfg <=? ConnectionPool.total p)
      with true by lia.
    split; [done |]. split; [by split | lia].
  - simpl. pose proof Hok as (Hcfg & _). rewrite Hcfg.
    destruct (ConnectionPool.min_connections cfg <=? ConnectionPool.total p)
      eqn:Hfull.
    { apply Z.leb_le in Hfull. by exists p. }
    apply Z.leb_gt in Hfull.
    destruct (create_connection_ok cfg factory p now Hok)
      as (Hok1 & _ & _ & _ & Hsome & Hmade).
    destruct (Hmade Hnf ltac:(lia)) as [id Hid].
    destruct (ConnectionPool._create_connection p now) as [r p1].
    simpl in *. subst r. destruct (Hsome id eq_refl) as [Htot _].
    apply IH; [by apply set_available_ok |].
    unfold ConnectionPool.total in *. simpl. lia.
Qed.

Lemma perform_maintenance_ok (cfg : ConnectionPool.PoolConfig)
    (factory : option (nat -> option ConnectionPool.handle))
    (fuel : nat) (p : ConnectionPool.t) (now : Q) :
  factory_never_fails factory ->
  0 <= ConnectionPool.min_connections cfg <= ConnectionPool.max_connections cfg ->
  (Z.to_nat (ConnectionPool.min_connections cfg) <= fuel)%nat ->
  pool_ok cfg factory p ->
  exists p',
    ConnectionPool._perform_maintenance fuel p now = Some p'
    /\ pool_ok cfg factory p'
    /\ ConnectionPool.min_connections cfg <= ConnectionPool.total p'.
Proof.
  intros Hnf Hmm Hfuel Hok. unfold ConnectionPool._perform_maintenance.
  destruct (close_all_ok cfg factory
              (ConnectionPool.connections_to_close p now) p Hok) as [Hok1 _].
  apply top_up_ok; [done | lia | done |].
  unfold ConnectionPool.total. lia.
Qed.

Lemma create_n_ok (cfg : ConnectionPool.PoolConfig)
    (factory : option (nat -> option ConnectionPool.handle)) (now : Q) :
  factory_never_fails factory ->
  forall (n : nat) (p : ConnectionPool.t),
    pool_ok cfg factory p ->
    pool_ok cfg factory (ConnectionPool.create_n n p now)
    /\ ConnectionPool.total (ConnectionPool.create_n n p now)
       = Z.min (ConnectionPool.total p + Z.of_nat n)
               (ConnectionPool.max_connections cfg).
Proof.
  intros Hnf. induction n as [| n IH]; intros p Hok; simpl.
  - split; [done |]. destruct Hok as (_ & _ & _ & Hmax). lia.
  - destruct (create_connection_ok cfg factory p now Hok)
      as (Hok1 & _ & _ & Hnone & Hsome & Hmade).
    destruct (IH _ Hok1) as [Hok2 Htot2]. split; [done |].
    rewrite Htot2. pose proof Hok as (_ & _ & _ & Hmax).
    destruct (fst (ConnectionPool._create_connection p now)) as [id |] eqn:Hr.
    + destruct (Hsome id eq_refl) as [Htot _]. lia.
    + specialize (Hnone eq_refl).
      destruct (Z.lt_ge_cases (ConnectionPool.total p)
                  (ConnectionPool.max_connections cfg)) as [Hlt | Hge].
      * destruct (Hmade Hnf Hlt) as [? ?]. congruence.
      * lia.
Qed.

Lemma run_ok (cfg : ConnectionPool.PoolConfig)
    (factory : option (nat -> option ConnectionPool.handle)) (fuel : nat) :
  factory_never_fails factory ->
  0 <= ConnectionPool.min_connections cfg <= ConnectionPool.max_connections cfg ->
  (Z.to_nat (ConnectionPool.min_connections cfg) <= fuel)%nat ->
  forall (ops : list ConnectionPool.op) (p : ConnectionPool.t),
    pool_ok cfg factory p ->
    ConnectionPool.min_connections cfg <= ConnectionPool.total p ->
    exists p',
      ConnectionPool.run fuel p ops = Some p'
      /\ pool_ok cfg factory p'
      /\ ConnectionPool.min_connections cfg <= ConnectionPool.total p'.
Proof.
  intros Hnf Hmm Hfuel.
  induction ops as [| [now | h now | now] rest IH]; intros p Hok Hmin; simpl.
  - by exists p.
  - destruct (acquire_ok cfg factory p now Hok) as [Hok1 Hle].
    apply IH; [done | lia].
  - destruct (release_ok cfg factory p h now Hok) as [Hok1 Heq].
    apply IH; [done | lia].
  - destruct (perform_maintenance_ok cfg factory fuel p now Hnf Hmm Hfuel Hok)
      as (p1 & Hrun & Hok1 & Hmin1).
    rewrite Hrun. by apply IH.
Qed.

(** C9 (as amended): for a pool configured with
    [0 <= min_connections <= max_connections] whose connection creation
    cannot fail (no factory, or a factory that never raises), started from
    new, every sequence of acquire, release and maintenance operations runs
    to the end and leaves the pool holding at least [min_connections] and
    at most [max_connections] connections. *)
Theorem pool_size_within_bounds (cfg : ConnectionPool.PoolConfig)
    (factory : option (nat -> option ConnectionPool.handle))
    (now : Q) (ops : list ConnectionPool.op) (fuel : nat) :
  0 <= ConnectionPool.min_connections cfg <= ConnectionPool.max_connections cfg ->
  factory_never_fails factory ->
  (Z.to_nat (ConnectionPool.min_connections cfg) <= fuel)%nat ->
  exists p',
    ConnectionPool.run fuel
      (ConnectionPool.start (ConnectionPool.init cfg factory) now) ops
    = Some p'
    /\ ConnectionPool.min_connections cfg <= ConnectionPool.total p'
    /\ ConnectionPool.total p' <= ConnectionPool.max_connections cfg.
Proof.
  intros Hmm Hnf Hfuel.
  assert (Hinit : pool_ok cfg factory
                    (ConnectionPool.set_running
                       (ConnectionPool.init cfg factory) true)).
  { split; [done |]. split; [done |]. split; [constructor |].
    unfold ConnectionPool.total; simpl. lia. }
  destruct (create_n_ok cfg factory now Hnf
              (Z.to_nat (ConnectionPool.min_connections cfg)) _ Hinit)
    as [Hok Htot].
  destruct (run_ok cfg factory fuel Hnf Hmm Hfuel ops
              (ConnectionPool.start (ConnectionPool.init cfg factory) now))
    as (p' & Hrun & Hok' & Hmin').
  - exact Hok.
  - unfold ConnectionPool.start; simpl.
    change (ConnectionPool.min_connections
              (ConnectionPool.config (ConnectionPool.init cfg factory)))
      with (ConnectionPool.min_connections cfg).
    rewrite Htot. unfold ConnectionPool.total at 1; simpl. lia.
  - exists p'. split; [exact Hrun |]. split; [exact Hmin' |].
    by destruct Hok' as (_ & _ & _ & Hmax).
Qed.

(** The upper bound needs nothing of the factory: whatever it does, no
    operation takes a well-formed pool above [max_connections]. *)
Lemma pool_never_above_max (cfg : ConnectionPool.PoolConfig)
    (factory : option (nat -> option ConnectionPool.handle))
    (p : ConnectionPool.t) (h : ConnectionPool.handle) (now : Q) :
  pool_ok cfg factory p ->
  ConnectionPool.total (snd (ConnectionPool.acquire p now))
  <= ConnectionPool.max_connections cfg
  /\ ConnectionPool.total (ConnectionPool.release p h now)
     <= ConnectionPool.max_connections cfg.
Proof.
  intros Hok.
  destruct (acquire_ok cfg factory p now Hok) as [(_ & _ & _ & Ha) _].
  destruct (release_ok cfg factory p h now Hok) as [(_ & _ & _ & Hr) _].
  by split.
Qed.

Lemma pool_size_within_bounds_witness :
  exists p',
    ConnectionPool.run 5
      (ConnectionPool.start
         (ConnectionPool.init ConnectionPool.default_config None) 0) churn
    = Some p'
    /\ ConnectionPool.min_connections ConnectionPool.default_config
       <= ConnectionPool.total p'
    /\ ConnectionPool.total p'
       <= ConnectionPool.max_connections ConnectionPool.default_config.
Proof.
  apply (pool_size_within_bounds ConnectionPool.default_config None 0 churn 5).
  - simpl. lia.
  - exact I.
  - simpl. lia.
Defined.

(** C9, counterexample: a pool whose factory raises on every call is
    started and churned, and holds no connection at all, below its
    [min_connections] of 5. *)
Lemma pool_below_min_when_factory_fails :
  exists p',
    ConnectionPool.running
      (ConnectionPool.start
         (ConnectionPool.init ConnectionPool.default_config
            (Some (fun _ => None))) 0) = true
    /\ ConnectionPool.run 5
         (ConnectionPool.start
            (ConnectionPool.init ConnectionPool.default_config
               (Some (fun _ => None))) 0) churn
       = Some p'
    /\ ConnectionPool.total p' = 0
    /\ ~ (ConnectionPool.min_connections ConnectionPool.default_config
          <= ConnectionPool.total p').
Proof.
  eexists. split; [reflexivity |]. split; [vm_compute; reflexivity |].
  split; [reflexivity |]. vm_compute. intros H. apply H. reflexivity.
Qed.

(** C5, the code at the failing input: [stop()] on the started default pool
    closes the first of its five connections and then raises
    [RuntimeError], because the dict it iterates over has changed size; four
    connections stay in the pool; and an [acquire] after the stop, the pool
    not having been started again, returns a connection. *)
Theorem acquire_after_stop_returns_connection :
  ConnectionPool.total started_pool = 5
  /\ fst (ConnectionPool.stop started_pool) = Raise RuntimeError
  /\ ConnectionPool.running (snd (ConnectionPool.stop started_pool)) = false
  /\ ConnectionPool.total (snd (ConnectionPool.stop started_pool)) = 4
  /\ fst (ConnectionPool.acquire (snd (ConnectionPool.stop started_pool)) 1)
     = Some ConnectionPool.simulated_handle.
Proof. repeat split; vm_compute; reflexivity. Qed.

(** [acquire] does not look at [running]: it hands out the same connection
    whether the pool is started or stopped. *)
Lemma acquire_ignores_running (p : ConnectionPool.t) (b : bool) (now : Q) :
  fst (ConnectionPool.acquire (ConnectionPool.set_running p b) now)
  = fst (ConnectionPool.acquire p now).
Proof.
  destruct p as [cfg factory calls conns avail st run].
  unfold ConnectionPool.acquire, ConnectionPool.acquire_new,
    ConnectionPool._create_connection, ConnectionPool.total; simpl.
  destruct avail as [| id rest]; simpl.
  - destruct (ConnectionPool.max_connections cfg <=? Z.of_nat (length conns));
      [done |].
    destruct factory as [f |]; simpl.
    + destruct (f calls); simpl; [| done].
      by destruct (ConnectionPool.dict_get _ _).
    + by destruct (ConnectionPool.dict_get _ _).
  - destruct (ConnectionPool.dict_get conns id); [done |].
    destruct (ConnectionPool.max_connections cfg <=? Z.of_nat (length conns));
      [done |].
    destruct factory as [f |]; simpl.
    + destruct (f calls); simpl; [| done].
      by destruct (ConnectionPool.dict_get _ _).
    + by destruct (ConnectionPool.dict_get _ _).
Qed.

(** Even when [stop()] returns normally (every connection it met refused to
    close, or there was none), the next [acquire] creates a connection as
    long as the pool may hold one. *)
Lemma acquire_after_clean_stop (p p' : ConnectionPool.t) (now : Q) :
  ConnectionPool.stop p = (Return tt, p') ->
  ConnectionPool.connection_factory p = None ->
  0 < ConnectionPool.max_connections (ConnectionPool.config p) ->
  ConnectionPool.running p' = false
  /\ fst (ConnectionPool.acquire p' now) = Some ConnectionPool.simulated_handle.
Proof.
  unfold ConnectionPool.stop. intros Hstop Hfac Hmax.
  destruct (ConnectionPool.stop_loop _ _ _) as [[[] | e] p2] eqn:Hloop;
    [| discriminate].
  injection Hstop as <-.
  assert (Hkeep : forall pending expected q r q',
            ConnectionPool.stop_loop pending expected q = (r, q') ->
            ConnectionPool.config q' = ConnectionPool.config q
            /\ ConnectionPool.connection_factory q'
               = ConnectionPool.connection_factory q
            /\ ConnectionPool.running q' = ConnectionPool.running q).
  { induction pending as [| [k c] pending IH]; intros expected q r q'; simpl.
    - destruct (negb _); by intros [= _ <-].
    - destruct (negb _); [by intros [= _ <-] |].
      intros Hl. apply IH in Hl as (H1 & H2 & H3).
      rewrite H1, H2, H3. unfold ConnectionPool._close_connection.
      destruct (_ && _); [done |].
      by destruct (ConnectionPool.dict_get _ _). }
  apply Hkeep in Hloop as (Hcfg & Hfac' & Hrun). simpl in *.
  split; [exact Hrun |].
  unfold ConnectionPool.acquire, ConnectionPool.acquire_new,
    ConnectionPool._create_connection, ConnectionPool.total,
    ConnectionPool.set_available, ConnectionPool.set_connections,
    ConnectionPool.set_stats; simpl.
  rewrite Hcfg, Hfac', Hfac. change (Z.of_nat 0) with 0.
  replace (ConnectionPool.max_connections (ConnectionPool.config p) <=? 0)
    with false by lia.
  simpl. rewrite decide_True by done. reflexivity.
Qed.

(** ** Weighted round robin *)

(** *** Facts about [max] and [gcd] of the registered weights *)

Lemma foldl_max_spec (l : list Z) :
  forall a : Z,
    a <= foldl Z.max a l
    /\ (forall x, x ∈ l -> x <= foldl Z.max a l)
    /\ foldl Z.max a l ∈ a :: l.
Proof.
  induction l as [| y l IH]; intros a; simpl.
  - split; [lia |]. split; [| by left].
    intros x Hx. by apply elem_of_nil in Hx.
  - destruct (IH (Z.max a y)) as (Hge & Hall & Hin).
    split; [lia |]. split.
    + intros x Hx. apply elem_of_cons in Hx as [-> | Hx]; [lia | by apply Hall].
    + apply elem_of_cons in Hin as [Heq | Hin].
      * rewrite Heq. destruct (Z.max_spec a y) as [[_ ->] | [_ ->]].
        -- right. by left.
        -- by left.
      * right. by right.
Qed.

Lemma foldl_gcd_spec (l : list Z) :
  forall a : Z,
    (foldl Z.gcd a l | a)
    /\ (forall x, x ∈ l -> (foldl Z.gcd a l | x))
    /\ (0 < a -> 0 < foldl Z.gcd a l).
Proof.
  induction l as [| y l IH]; intros a; simpl.
  - split; [reflexivity |]. split; [| done].
    intros x Hx. by apply elem_of_nil in Hx.
  - destruct (IH (Z.gcd a y)) as (Hdiv & Hall & Hpos).
    split; [| split].
    + etransitivity; [exact Hdiv | apply Z.gcd_divide_l].
    + intros x Hx. apply elem_of_cons in Hx as [-> | Hx]; [| by apply Hall].
      etransitivity; [exact Hdiv | apply Z.gcd_divide_r].
    + intros Ha. apply Hpos.
      pose proof (Z.gcd_nonneg a y).
      assert (Z.gcd a y <> 0) by (intros H0; apply Z.gcd_eq_0_l in H0; lia).
      lia.
Qed.

Lemma recalculate_spec (st : WeightedRoundRobin.t) :
  (forall b w, WeightedRoundRobin.backend_weights st !! b = Some w -> 0 < w) ->
  WeightedRoundRobin.backend_weights st <> ∅ ->
  let st' := WeightedRoundRobin._recalculate_weights st in
  0 < WeightedRoundRobin.gcd_weight st'
  /\ 0 < WeightedRoundRobin.max_weight st'
  /\ (WeightedRoundRobin.gcd_weight st' | WeightedRoundRobin.max_weight st')
  /\ forall b w, WeightedRoundRobin.backend_weights st !! b = Some w ->
       w <= WeightedRoundRobin.max_weight st'
       /\ (WeightedRoundRobin.gcd_weight st' | w).
Proof.
  intros Hpos Hne. unfold WeightedRoundRobin._recalculate_weights.
  assert (Hvals : forall x,
            x ∈ WeightedRoundRobin.weight_values
                  (WeightedRoundRobin.backend_weights st) <->
            exists b, WeightedRoundRobin.backend_weights st !! b = Some x).
  { intros x. unfold WeightedRoundRobin.weight_values.
    rewrite list_elem_of_fmap. split.
    - intros ([b w] & -> & Hin). exists b. by apply elem_of_map_to_list.
    - intros [b Hb]. exists (b, x). split; [done |].
      by apply elem_of_map_to_list. }
  destruct (WeightedRoundRobin.weight_values
              (WeightedRoundRobin.backend_weights st)) as [| x rest] eqn:Hv.
  { exfalso. apply Hne. apply map_empty. intros b.
    destruct (WeightedRoundRobin.backend_weights st !! b) as [w |] eqn:Hb;
      [| done].
    assert (Hin : w ∈ @nil Z) by (apply Hvals; by exists b).
    by apply elem_of_nil in Hin. }
  simpl.
  destruct (foldl_max_spec rest x) as (Hmge & Hmall & Hmin).
  destruct (foldl_gcd_spec rest x) as (Hgdiv & Hgall & Hgpos).
  assert (Hxpos : forall y, y ∈ x :: rest -> 0 < y).
  { intros y Hy. apply Hvals in Hy as [b Hb]. by eapply Hpos. }
  assert (Hgdiv_all : forall y, y ∈ x :: rest -> (foldl Z.gcd x rest | y)).
  { intros y Hy. apply elem_of_cons in Hy as [-> | Hy]; [done | by apply Hgall]. }
  split; [apply Hgpos, Hxpos; by left |].
  split; [apply Hxpos, Hmin |].
  split; [apply Hgdiv_all, Hmin |].
  intros b w Hb.
  assert (Hw : w ∈ x :: rest) by (apply Hvals; by exists b).
  split; [| by apply Hgdiv_all].
  apply elem_of_cons in Hw as [-> | Hw]; [done | by apply Hmall].
Qed.

Lemma recalculate_idempotent (st : WeightedRoundRobin.t) :
  WeightedRoundRobin._recalculate_weights
    (WeightedRoundRobin._recalculate_weights st)
  = WeightedRoundRobin._recalculate_weights st.
Proof.
  unfold WeightedRoundRobin._recalculate_weights.
  destruct (WeightedRoundRobin.weight_values
              (WeightedRoundRobin.backend_weights st)) eqn:Hv;
    simpl; rewrite Hv; reflexivity.
Qed.

Lemma recalculate_fields (st : WeightedRoundRobin.t) :
  WeightedRoundRobin.backend_weights (WeightedRoundRobin._recalculate_weights st)
  = WeightedRoundRobin.backend_weights st
  /\ WeightedRoundRobin.current_index (WeightedRoundRobin._recalculate_weights st)
     = WeightedRoundRobin.current_index st
  /\ WeightedRoundRobin.current_weight (WeightedRoundRobin._recalculate_weights st)
     = WeightedRoundRobin.current_weight st.
Proof.
  unfold WeightedRoundRobin._recalculate_weights.
  by destruct (WeightedRoundRobin.weight_values _).
Qed.

Lemma set_backend_weight_spec (st : WeightedRoundRobin.t) (b : string) (w : Z) :
  0 < w ->
  (forall b' w', WeightedRoundRobin.backend_weights st !! b' = Some w' -> 0 < w') ->
  let st' := snd (WeightedRoundRobin.set_backend_weight st b w) in
  fst (WeightedRoundRobin.set_backend_weight st b w) = Return tt
  /\ consistent st'
  /\ WeightedRoundRobin.backend_weights st'
     = <[b := w]> (WeightedRoundRobin.backend_weights st)
  /\ WeightedRoundRobin.current_index st' = WeightedRoundRobin.current_index st
  /\ WeightedRoundRobin.current_weight st' = WeightedRoundRobin.current_weight st.
Proof.
  intros Hw Hpos. unfold WeightedRoundRobin.set_backend_weight.
  replace (w <=? 0) with false by lia. simpl.
  match goal with
  | |- context [WeightedRoundRobin._recalculate_weights ?s] =>
      destruct (recalculate_fields s) as (Hm & Hi & Hc)
  end.
  simpl in Hm, Hi, Hc.
  split; [done |]. split; [| by repeat split].
  split; [| apply recalculate_idempotent].
  intros b' w'. rewrite Hm. intros Hl.
  apply lookup_insert_Some in Hl as [[_ <-] | [_ Hl]]; [done | by eapply Hpos].
Qed.

Lemma ensure_weight_spec (st : WeightedRoundRobin.t) (b : string) :
  consistent st ->
  consistent (WeightedRoundRobin.ensure_weight st b)
  /\ is_Some (WeightedRoundRobin.backend_weights
                (WeightedRoundRobin.ensure_weight st b) !! b)
  /\ (forall b' w,
        WeightedRoundRobin.backend_weights st !! b' = Some w ->
        WeightedRoundRobin.backend_weights
          (WeightedRoundRobin.ensure_weight st b) !! b' = Some w)
  /\ WeightedRoundRobin.current_index (WeightedRoundRobin.ensure_weight st b)
     = WeightedRoundRobin.current_index st
  /\ WeightedRoundRobin.current_weight (WeightedRoundRobin.ensure_weight st b)
     = WeightedRoundRobin.current_weight st.
Proof.
  intros Hc. unfold WeightedRoundRobin.ensure_weight.
  destruct (WeightedRoundRobin.backend_weights st !! b) as [w |] eqn:Hb.
  - split; [done |]. split; [by rewrite Hb |]. by repeat split.
  - destruct (set_backend_weight_spec st b 1 ltac:(lia) (proj1 Hc))
      as (_ & Hc1 & Hm1 & Hi1 & Hw1).
    split; [done |]. split; [| split; [| by split]].
    + rewrite Hm1, lookup_insert_eq. by eexists.
    + intros b' w' Hl. rewrite Hm1, lookup_insert_ne; [done | congruence].
Qed.

Lemma ensure_weights_spec (bs : list string) :
  forall st : WeightedRoundRobin.t,
    consistent st ->
    consistent (WeightedRoundRobin.ensure_weights st bs)
    /\ (forall b, b ∈ bs ->
          is_Some (WeightedRoundRobin.backend_weights
                     (WeightedRoundRobin.ensure_weights st bs) !! b))
    /\ (forall b w, WeightedRoundRobin.backend_weights st !! b = Some w ->
          WeightedRoundRobin.backend_weights
            (WeightedRoundRobin.ensure_weights st bs) !! b = Some w)
    /\ WeightedRoundRobin.current_index (WeightedRoundRobin.ensure_weights st bs)
       = WeightedRoundRobin.current_index st
    /\ WeightedRoundRobin.current_weight (WeightedRoundRobin.ensure_weights st bs)
       = WeightedRoundRobin.current_weight st.
Proof.
  unfold WeightedRoundRobin.ensure_weights.
  induction bs as [| b bs IH]; intros st Hc; simpl.
  - split; [done |]. split; [| done]. intros b Hb. by apply elem_of_nil in Hb.
  - destruct (ensure_weight_spec st b Hc) as (Hc1 & [w1 Hb1] & Hk1 & Hi1 & Hw1).
    destruct (IH _ Hc1) as (Hc' & Hdom & Hkeep & Hi & Hw).
    split; [done |]. split; [| split; [| split; congruence]].
    + intros b' Hb'.
      apply elem_of_cons in Hb' as [-> | Hb']; [| by apply Hdom].
      rewrite (Hkeep _ _ Hb1). by eexists.
    + intros b' w' Hl. by apply Hkeep, Hk1.
Qed.

Lemma consistent_loop_ok (bs : list string) (st : WeightedRoundRobin.t) :
  bs <> [] ->
  consistent st ->
  (forall b, b ∈ bs -> is_Some (WeightedRoundRobin.backend_weights st !! b)) ->
  loop_ok bs st.
Proof.
  intros Hne [Hpos Hrec] Hdom.
  assert (Hm : WeightedRoundRobin.backend_weights st <> ∅).
  { destruct bs as [| b bs']; [done |].
    destruct (Hdom b ltac:(by left)) as [w Hw].
    intros He. rewrite He in Hw. by rewrite lookup_empty in Hw. }
  pose proof (recalculate_spec st Hpos Hm) as Hspec. simpl in Hspec.
  rewrite Hrec in Hspec. destruct Hspec as (Hg & Hx & Hgx & Hall).
  split; [done |]. split; [done |]. split; [done |].
  intros b Hb. destruct (Hdom b Hb) as [w Hw].
  unfold WeightedRoundRobin.weight_of. rewrite Hw. simpl.
  destruct (Hall b w Hw). split; [by eapply Hpos | done].
Qed.

(** *** Termination of the selection loop *)

Lemma select_loop_S (fuel : nat) (st : WeightedRoundRobin.t) (bs : list string) :
  WeightedRoundRobin.select_loop (S fuel) st bs
  = let st1 := WeightedRoundRobin.advance st (Z.of_nat (length bs)) in
    if (WeightedRoundRobin.current_index st1 =? 0)
       && (WeightedRoundRobin.current_weight st1 =? 0)
    then Some (Return None, st1)
    else
      match py_index bs (WeightedRoundRobin.current_index st1) with
      | Raise e => Some (Raise e, st1)
      | Return backend =>
          if WeightedRoundRobin.current_weight st1
             <=? WeightedRoundRobin.weight_of st1 backend
          then Some (Return (Some backend), st1)
          else WeightedRoundRobin.select_loop fuel st1 bs
      end.
Proof. reflexivity. Qed.

Lemma select_backend_nonempty (fuel : nat) (st : WeightedRoundRobin.t)
    (bs : list string) :
  bs <> [] ->
  WeightedRoundRobin.select_backend fuel st bs
  = WeightedRoundRobin.select_loop fuel
      (WeightedRoundRobin.ensure_weights st bs) bs.
Proof. by destruct bs. Qed.

Lemma advance_index (st : WeightedRoundRobin.t) (len : Z) :
  WeightedRoundRobin.current_index (WeightedRoundRobin.advance st len)
  = (WeightedRoundRobin.current_index st + 1) mod len.
Proof. reflexivity. Qed.

Lemma advance_weight (st : WeightedRoundRobin.t) (len : Z) :
  WeightedRoundRobin.current_weight (WeightedRoundRobin.advance st len)
  = if (WeightedRoundRobin.current_index st + 1) mod len =? 0 then
      if WeightedRoundRobin.current_weight st - WeightedRoundRobin.gcd_weight st
         <=? 0
      then WeightedRoundRobin.max_weight st
      else WeightedRoundRobin.current_weight st - WeightedRoundRobin.gcd_weight st
    else WeightedRoundRobin.current_weight st.
Proof. reflexivity. Qed.

Lemma advance_loop_ok (bs : list string) (st : WeightedRoundRobin.t) (len : Z) :
  loop_ok bs st -> loop_ok bs (WeightedRoundRobin.advance st len).
Proof. intros H. exact H. Qed.

Section SelectionLoop.

Variable bs : list string.
Hypothesis bs_nonempty : bs <> [].

Let n : Z := Z.of_nat (length bs).

Lemma n_pos : 0 < n.
Proof. subst n. destruct bs; [done | simpl; lia]. Qed.

(** One pass either returns or hands over to the advanced state. *)
Lemma loop_returns_step (st : WeightedRoundRobin.t) :
  loop_ok bs st ->
  WeightedRoundRobin.current_weight (WeightedRoundRobin.advance st n)
    <= WeightedRoundRobin.gcd_weight st
  \/ loop_returns bs (WeightedRoundRobin.advance st n) ->
  loop_returns bs st.
Proof.
  intros Hok Hnext. pose proof n_pos as Hn.
  set (st1 := WeightedRoundRobin.advance st n) in *.
  destruct Hok as (Hg & Hx & Hgx & Hall).
  assert (Hidx : 0 <= WeightedRoundRobin.current_index st1 < n).
  { subst st1. rewrite advance_index. by apply Z.mod_pos_bound. }
  destruct (py_index_in_range bs (WeightedRoundRobin.current_index st1) Hidx)
    as (b & Hb & Hpy).
  assert (Hin : b ∈ bs) by (by eapply list_elem_of_lookup_2).
  assert (Hnone : (WeightedRoundRobin.current_index st1 =? 0)
                  && (WeightedRoundRobin.current_weight st1 =? 0) = false).
  { apply andb_false_iff.
    destruct (WeightedRoundRobin.current_index st1 =? 0) eqn:Hz;
      [right | by left].
    apply Z.eqb_neq. subst st1. rewrite advance_index in Hz.
    rewrite advance_weight, Hz.
    destruct (_ <=? 0) eqn:Hle; [lia |]. apply Z.leb_gt in Hle. lia. }
  assert (Hunf : forall fuel,
    WeightedRoundRobin.select_loop (S fuel) st bs
    = if WeightedRoundRobin.current_weight st1
         <=? WeightedRoundRobin.weight_of st1 b
      then Some (Return (Some b), st1)
      else WeightedRoundRobin.select_loop fuel st1 bs).
  { intros fuel. rewrite select_loop_S. cbv zeta. fold n. fold st1.
    by rewrite Hnone, Hpy. }
  destruct (WeightedRoundRobin.current_weight st1
            <=? WeightedRoundRobin.weight_of st1 b) eqn:Htest.
  - exists 1%nat. intros [| fuel] Hfuel; [lia |].
    exists b, st1. rewrite Hunf. apply Z.leb_le in Htest. by repeat split.
  - apply Z.leb_gt in Htest.
    destruct Hnext as [Hlow | (fuel0 & Hret)].
    + destruct (Hall b Hin) as (Hwpos & _ & Hdiv).
      apply Z.divide_pos_le in Hdiv; [| exact Hwpos].
      change (WeightedRoundRobin.weight_of st1 b)
        with (WeightedRoundRobin.weight_of st b) in Htest.
      lia.
    + exists (S fuel0). intros [| fuel] Hfuel; [lia |].
      rewrite Hunf. apply Hret. lia.
Qed.

(** A state whose weight is [(j + 2) * gcd]: the wraps bring the weight down
    to [gcd], where every backend qualifies. *)
Lemma loop_returns_aligned (j : nat) :
  forall (k : nat) (st : WeightedRoundRobin.t),
    loop_ok bs st ->
    WeightedRoundRobin.current_weight st
    = (Z.of_nat j + 2) * WeightedRoundRobin.gcd_weight st ->
    WeightedRoundRobin.current_index st = n - 1 - Z.of_nat k ->
    0 <= WeightedRoundRobin.current_index st ->
    loop_returns bs st.
Proof.
  pose proof n_pos as Hn.
  induction j as [| j IHj]; induction k as [| k IHk];
    intros st Hok Hcw Hidx Hlo; apply loop_returns_step; try done.
  - left. rewrite advance_weight.
    replace ((WeightedRoundRobin.current_index st + 1) mod n) with 0
      by (rewrite Hidx; replace (n - 1 - Z.of_nat 0 + 1) with n by lia;
          by rewrite Z_mod_same_full).
    simpl. destruct Hok as (Hg & _). rewrite Hcw.
    destruct (_ <=? 0) eqn:Hle; [apply Z.leb_le in Hle |]; lia.
  - right. apply IHk.
    + by apply advance_loop_ok.
    + rewrite advance_weight.
      rewrite Z.mod_small by lia.
      replace (WeightedRoundRobin.current_index st + 1 =? 0) with false by lia.
      exact Hcw.
    + rewrite advance_index, Z.mod_small by lia. lia.
    + rewrite advance_index, Z.mod_small by lia. lia.
  - right.
    assert (Hwrap : (WeightedRoundRobin.current_index st + 1) mod n = 0).
    { rewrite Hidx. replace (n - 1 - Z.of_nat 0 + 1) with n by lia.
      by rewrite Z_mod_same_full. }
    apply (IHj (Z.to_nat (n - 1))).
    + by apply advance_loop_ok.
    + rewrite advance_weight, Hwrap. simpl.
      destruct Hok as (Hg & _). rewrite Hcw.
      destruct (_ <=? 0) eqn:Hle; [apply Z.leb_le in Hle; nia |].
      change (WeightedRoundRobin.gcd_weight
                (WeightedRoundRobin.advance st n))
        with (WeightedRoundRobin.gcd_weight st).
      lia.
    + rewrite advance_index, Hwrap. lia.
    + rewrite advance_index, Hwrap. lia.
  - right. apply IHk.
    + by apply advance_loop_ok.
    + rewrite advance_weight.
      rewrite Z.mod_small by lia.
      replace (WeightedRoundRobin.current_index st + 1 =? 0) with false by lia.
      exact Hcw.
    + rewrite advance_index, Z.mod_small by lia. lia.
    + rewrite advance_index, Z.mod_small by lia. lia.
Qed.

(** Any weight at all: the wraps bring it down until it is reset to
    [max_weight], a multiple of [gcd]. *)
Lemma loop_returns_below (c : nat) :
  forall (k : nat) (st : WeightedRoundRobin.t),
    loop_ok bs st ->
    WeightedRoundRobin.current_weight st <= Z.of_nat c ->
    WeightedRoundRobin.current_index st = n - 1 - Z.of_nat k ->
    0 <= WeightedRoundRobin.current_index st ->
    loop_returns bs st.
Proof.
  pose proof n_pos as Hn.
  assert (Hnowrap : forall (k : nat) (st : WeightedRoundRobin.t),
    (forall st' : WeightedRoundRobin.t,
       loop_ok bs st' ->
       WeightedRoundRobin.current_weight st'
       <= WeightedRoundRobin.current_weight st ->
       WeightedRoundRobin.current_index st' = n - 1 - Z.of_nat k ->
       0 <= WeightedRoundRobin.current_index st' ->
       loop_returns bs st') ->
    loop_ok bs st ->
    WeightedRoundRobin.current_index st = n - 1 - Z.of_nat (S k) ->
    0 <= WeightedRoundRobin.current_index st ->
    loop_returns bs st).
  { intros k st IH Hok Hidx Hlo. apply loop_returns_step; [done |]. right.
    apply IH.
    - by apply advance_loop_ok.
    - rewrite advance_weight, Z.mod_small by lia.
      replace (WeightedRoundRobin.current_index st + 1 =? 0) with false by lia.
      lia.
    - rewrite advance_index, Z.mod_small by lia. lia.
    - rewrite advance_index, Z.mod_small by lia. lia. }
  assert (Hreset : forall st : WeightedRoundRobin.t,
    loop_ok bs st ->
    WeightedRoundRobin.current_index st = n - 1 ->
    WeightedRoundRobin.current_weight st - WeightedRoundRobin.gcd_weight st <= 0 ->
    loop_returns bs st).
  { intros st Hok Hidx Hle. apply loop_returns_step; [done |].
    assert (Hwrap : (WeightedRoundRobin.current_index st + 1) mod n = 0).
    { rewrite Hidx. replace (n - 1 + 1) with n by lia.
      by rewrite Z_mod_same_full. }
    pose proof Hok as (Hg & Hx & [q Hq] & _).
    assert (Hcw1 : WeightedRoundRobin.current_weight
                     (WeightedRoundRobin.advance st n)
                   = WeightedRoundRobin.max_weight st).
    { rewrite advance_weight, Hwrap. simpl.
      by replace (WeightedRoundRobin.current_weight st
                  - WeightedRoundRobin.gcd_weight st <=? 0) with true by lia. }
    destruct (decide (q = 1)) as [-> | Hq1].
    - left. rewrite Hcw1. lia.
    - right. apply (loop_returns_aligned (Z.to_nat (q - 2)) (Z.to_nat (n - 1))).
      + by apply advance_loop_ok.
      + rewrite Hcw1, Hq.
        change (WeightedRoundRobin.gcd_weight
                  (WeightedRoundRobin.advance st n))
          with (WeightedRoundRobin.gcd_weight st).
        assert (2 <= q) by nia. rewrite Z2Nat.id by lia. f_equal. lia.
      + rewrite advance_index, Hwrap. lia.
      + rewrite advance_index, Hwrap. lia. }
  induction c as [| c IHc]; induction k as [| k IHk];
    intros st Hok Hcw Hidx Hlo.
  - apply Hreset; [done | lia |]. destruct Hok as (Hg & _). lia.
  - apply (Hnowrap k); try done.
    intros st' Hok' Hcw' Hidx' Hlo'. apply IHk; try done. lia.
  - destruct (Z.le_gt_cases
                (WeightedRoundRobin.current_weight st
                 - WeightedRoundRobin.gcd_weight st) 0) as [Hle | Hgt].
    + apply Hreset; [done | lia | done].
    + apply loop_returns_step; [done |]. right.
      assert (Hwrap : (WeightedRoundRobin.current_index st + 1) mod n = 0).
      { rewrite Hidx. replace (n - 1 - Z.of_nat 0 + 1) with n by lia.
        by rewrite Z_mod_same_full. }
      apply (IHc (Z.to_nat (n - 1))).
      * by apply advance_loop_ok.
      * rewrite advance_weight, Hwrap. simpl.
        replace (WeightedRoundRobin.current_weight st
                 - WeightedRoundRobin.gcd_weight st <=? 0) with false by lia.
        destruct Hok as (Hg & _). lia.
      * rewrite advance_index, Hwrap. lia.
      * rewrite advance_index, Hwrap. lia.
  - apply (Hnowrap k); try done.
    intros st' Hok' Hcw' Hidx' Hlo'. apply IHk; try done. lia.
Qed.

Lemma loop_returns_any (st : WeightedRoundRobin.t) :
  loop_ok bs st -> loop_returns bs st.
Proof.
  intros Hok. pose proof n_pos as Hn.
  apply loop_returns_step; [done |]. right.
  pose proof (Z.mod_pos_bound (WeightedRoundRobin.current_index st + 1) n Hn)
    as Hrange.
  apply (loop_returns_below
           (Z.to_nat (WeightedRoundRobin.current_weight
                        (WeightedRoundRobin.advance st n)))
           (Z.to_nat (n - 1 - WeightedRoundRobin.current_index
                                (WeightedRoundRobin.advance st n)))).
  - by apply advance_loop_ok.
  - lia.
  - rewrite advance_index. lia.
  - rewrite advance_index. lia.
Qed.

End SelectionLoop.

(** C8: for every non-empty backend list and every state the plugin's own
    operations can produce (registered weights positive, [max_weight] and
    [gcd_weight] computed from them; unregistered backends get weight 1 at
    the start of the call), [select_backend] terminates: with enough fuel
    its loop returns a backend of the list whose weight is at least the
    current weight. *)
Theorem select_backend_terminates
    (st : WeightedRoundRobin.t) (backends : list string) :
  backends <> [] ->
  consistent st ->
  exists fuel0 : nat,
    forall fuel : nat, (fuel0 <= fuel)%nat ->
      exists b st',
        WeightedRoundRobin.select_backend fuel st backends
        = Some (Return (Some b), st')
        /\ b ∈ backends
        /\ WeightedRoundRobin.current_weight st'
           <= WeightedRoundRobin.weight_of st' b.
Proof.
  intros Hne Hc.
  destruct (ensure_weights_spec backends st Hc) as (Hc' & Hdom & _).
  pose proof (consistent_loop_ok backends _ Hne Hc' Hdom) as Hok.
  destruct (loop_returns_any backends Hne _ Hok) as (fuel0 & Hret).
  exists fuel0. intros fuel Hfuel.
  unfold WeightedRoundRobin.select_backend.
  destruct backends as [| b0 rest]; [done |].
  by apply Hret.
Qed.

Lemma consistent_init : consistent WeightedRoundRobin.init.
Proof.
  split; [| reflexivity]. intros b w Hl. simpl in Hl.
  by rewrite lookup_empty in Hl.
Qed.

Lemma select_backend_terminates_witness :
  exists fuel0 : nat,
    forall fuel : nat, (fuel0 <= fuel)%nat ->
      exists b st',
        WeightedRoundRobin.select_backend fuel WeightedRoundRobin.init
          ["b1"; "b2"; "b3"]%string
        = Some (Return (Some b), st')
        /\ b ∈ ["b1"; "b2"; "b3"]%string
        /\ WeightedRoundRobin.current_weight st'
           <= WeightedRoundRobin.weight_of st' b.
Proof.
  apply (select_backend_terminates WeightedRoundRobin.init
           ["b1"; "b2"; "b3"]%string).
  - discriminate.
  - exact consistent_init.
Defined.

(** *** The selection cycle *)

Section CycleProofs.

Variable bs : list string.
Variable m : gmap string Z.
Variables mx g : Z.
Variable M : nat.

Hypothesis bs_nonempty : bs <> [].
Hypothesis g_pos : 0 < g.
Hypothesis M_pos : (0 < M)%nat.
Hypothesis mx_levels : mx = Z.of_nat M * g.
Hypothesis weights_units :
  forall b, b ∈ bs ->
    exists c : nat, (0 < c <= M)%nat /\ m !! b = Some (Z.of_nat c * g).

Local Abbreviation n := (length bs).
Local Abbreviation units := (Cycle.units m g).
Local Abbreviation backend_at := (Cycle.backend_at bs).
Local Abbreviation selected := (Cycle.selected bs m g M).
Local Abbreviation next_slot := (Cycle.next_slot bs M).
Local Abbreviation at_slot := (Cycle.at_slot bs m mx g M).
Local Abbreviation follows := (Cycle.follows bs M).
Local Abbreviation cycle_after := (Cycle.cycle_after bs M).
Local Abbreviation round_picks := (Cycle.round_picks bs m g M).
Local Abbreviation rounds_picks := (Cycle.rounds_picks bs m g M).

Lemma cycle_n_pos : (0 < n)%nat.
Proof. destruct bs; [done | simpl; lia]. Qed.

Lemma slot_split (q : nat) :
  (q < M * n)%nat ->
  (q / n < M)%nat /\ (q mod n < n)%nat /\ q = (n * (q / n) + q mod n)%nat.
Proof.
  intros Hq. pose proof cycle_n_pos as Hn.
  pose proof (Nat.div_mod_eq q n) as Heq.
  pose proof (Nat.mod_upper_bound q n ltac:(lia)) as Hmod.
  split; [| by split]. apply Nat.Div0.div_lt_upper_bound. lia.
Qed.

Lemma next_slot_cases (q : nat) :
  (q < M * n)%nat ->
  (next_slot q < M * n)%nat
  /\ (((q mod n + 1 < n)%nat
       /\ (next_slot q mod n = q mod n + 1)%nat
       /\ (next_slot q / n = q / n)%nat)
      \/ ((q mod n + 1 = n)%nat /\ (q / n + 1 < M)%nat
          /\ (next_slot q mod n = 0)%nat
          /\ (next_slot q / n = q / n + 1)%nat)
      \/ ((q mod n + 1 = n)%nat /\ (q / n + 1 = M)%nat
          /\ next_slot q = 0%nat)).
Proof.
  intros Hq. pose proof cycle_n_pos as Hn.
  destruct (slot_split q Hq) as (Hdiv & Hmod & Heq).
  unfold Cycle.next_slot.
  destruct (decide (q mod n + 1 < n)%nat) as [Hin | Hout].
  - assert (Hlt : (S q < M * n)%nat) by nia.
    apply Nat.ltb_lt in Hlt as Hb. rewrite Hb.
    split; [done |]. left. split; [done |].
    split.
    + symmetry. apply (Nat.mod_unique (S q) n (q / n)); lia.
    + symmetry. apply (Nat.div_unique (S q) n (q / n) (q mod n + 1)); lia.
  - assert (Hend : (q mod n + 1 = n)%nat) by lia.
    destruct (decide (q / n + 1 < M)%nat) as [Hrow | Hlast].
    + assert (Hlt : (S q < M * n)%nat) by nia.
      apply Nat.ltb_lt in Hlt as Hb. rewrite Hb.
      split; [done |]. right. left. split; [done |]. split; [done |].
      split.
      * symmetry. apply (Nat.mod_unique (S q) n (q / n + 1)); lia.
      * symmetry. apply (Nat.div_unique (S q) n (q / n + 1) 0); lia.
    + assert (Hge : ~ (S q < M * n)%nat) by nia.
      apply Nat.ltb_nlt in Hge as Hb. rewrite Hb.
      split; [lia |]. right. right. split; [done |]. split; [lia | done].
Qed.

Lemma backend_at_lookup (q : nat) :
  (q < M * n)%nat ->
  bs !! (q mod n)%nat = Some (backend_at q) /\ backend_at q ∈ bs.
Proof.
  intros Hq. destruct (slot_split q Hq) as (_ & Hmod & _).
  destruct (lookup_lt_is_Some_2 bs (q mod n)%nat Hmod) as [b Hb].
  unfold Cycle.backend_at. rewrite Hb. simpl. split; [done |].
  by eapply list_elem_of_lookup_2.
Qed.

Lemma units_weight (b : string) :
  b ∈ bs ->
  (0 < units b <= M)%nat /\ default 1 (m !! b) = Z.of_nat (units b) * g.
Proof.
  intros Hb. destruct (weights_units b Hb) as (c & Hc & Hm).
  unfold Cycle.units. rewrite Hm. simpl.
  rewrite Z.div_mul by lia. rewrite Nat2Z.id. by split.
Qed.

Lemma slot_index (q : nat) (st : WeightedRoundRobin.t) :
  at_slot q st ->
  py_index bs (WeightedRoundRobin.current_index st) = Return (backend_at q).
Proof.
  intros (Hq & _ & _ & _ & Hidx & _).
  destruct (slot_split q Hq) as (_ & Hmod & _).
  destruct (backend_at_lookup q Hq) as [Hb _].
  destruct (py_index_in_range bs (WeightedRoundRobin.current_index st))
    as (x & Hx & Hpy).
  { rewrite Hidx. lia. }
  rewrite Hidx, Nat2Z.id, Hb in Hx. by injection Hx as <-.
Qed.

Lemma slot_test (q : nat) (st : WeightedRoundRobin.t) :
  at_slot q st ->
  (WeightedRoundRobin.current_weight st
   <=? WeightedRoundRobin.weight_of st (backend_at q))
  = selected q.
Proof.
  intros (Hq & Hm & _ & _ & _ & Hcw).
  destruct (slot_split q Hq) as (Hdiv & _ & _).
  destruct (backend_at_lookup q Hq) as [_ Hin].
  destruct (units_weight _ Hin) as [Hu Hw].
  unfold WeightedRoundRobin.weight_of, selected. rewrite Hm, Hw.
  destruct Hcw as [-> | [-> Hlast]].
  - destruct (Nat.leb_spec M (units (backend_at q) + q / n)).
    + apply Z.leb_le. nia.
    + apply Z.leb_gt. nia.
  - rewrite (proj2 (Nat.leb_le M (units (backend_at q) + q / n)))
      by lia.
    apply Z.leb_le. nia.
Qed.

(** One pass of the loop moves to the next slot, and returns its backend
    exactly when that slot is selected. *)
Lemma pass_at_slot (q : nat) (st : WeightedRoundRobin.t) :
  at_slot q st ->
  at_slot (next_slot q) (WeightedRoundRobin.advance st (Z.of_nat n))
  /\ forall fuel,
       WeightedRoundRobin.select_loop (S fuel) st bs
       = if selected (next_slot q)
         then Some (Return (Some (backend_at (next_slot q))),
                    WeightedRoundRobin.advance st (Z.of_nat n))
         else WeightedRoundRobin.select_loop fuel
                (WeightedRoundRobin.advance st (Z.of_nat n)) bs.
Proof.
  intros Hat. pose proof Hat as (Hq & Hm & Hmx & Hg & Hidx & Hcw).
  pose proof cycle_n_pos as Hn.
  destruct (slot_split q Hq) as (Hdiv & Hmod & Heq).
  destruct (next_slot_cases q Hq) as [Hnext Hcases].
  set (st1 := WeightedRoundRobin.advance st (Z.of_nat n)).
  assert (Hst1 : at_slot (next_slot q) st1
                 /\ (WeightedRoundRobin.current_index st1 =? 0)
                    && (WeightedRoundRobin.current_weight st1 =? 0) = false).
  { unfold Cycle.at_slot. subst st1. rewrite advance_index, advance_weight.
    change (WeightedRoundRobin.backend_weights (WeightedRoundRobin.advance st _))
      with (WeightedRoundRobin.backend_weights st).
    change (WeightedRoundRobin.max_weight (WeightedRoundRobin.advance st _))
      with (WeightedRoundRobin.max_weight st).
    change (WeightedRoundRobin.gcd_weight (WeightedRoundRobin.advance st _))
      with (WeightedRoundRobin.gcd_weight st).
    rewrite Hidx, Hmx, Hg.
    destruct Hcases as [(Hin & Hnm & Hnd) | [(Hend & Hrow & Hnm & Hnd)
                                            | (Hend & Hrow & Hz)]].
    - rewrite Hnm, Hnd.
      rewrite Z.mod_small by lia.
      replace (Z.of_nat (q mod n) + 1 =? 0) with false by lia.
      split; [| by rewrite andb_false_l].
      repeat split; try done. lia.
    - rewrite Hnm, Hnd.
      replace (Z.of_nat (q mod n) + 1) with (Z.of_nat n) by lia.
      rewrite Z_mod_same_full. simpl.
      destruct Hcw as [-> | [_ Hlast]]; [| lia].
      replace ((Z.of_nat M - Z.of_nat (q / n)) * g - g <=? 0) with false
        by (symmetry; apply Z.leb_gt; nia).
      split.
      + repeat split; try done. left. nia.
      + apply Z.eqb_neq. nia.
    - rewrite Hz. rewrite Nat.Div0.mod_0_l, Nat.Div0.div_0_l.
      replace (Z.of_nat (q mod n) + 1) with (Z.of_nat n) by lia.
      rewrite Z_mod_same_full. simpl.
      replace (WeightedRoundRobin.current_weight st - g <=? 0) with true
        by (symmetry; apply Z.leb_le; destruct Hcw as [-> | [-> _]]; nia).
      split.
      + repeat split; try done; [nia |]. left. nia.
      + apply Z.eqb_neq. nia. }
  destruct Hst1 as [Hat1 Hnone]. split; [exact Hat1 |].
  intros fuel. rewrite select_loop_S. cbv zeta. fold st1.
  rewrite Hnone, (slot_index _ _ Hat1), (slot_test _ _ Hat1).
  reflexivity.
Qed.

Lemma follows_app (l1 : list nat) :
  forall (q x : nat) (l2 : list nat),
    follows q (l1 ++ x :: l2) -> follows q (l1 ++ [x]) /\ follows x l2.
Proof.
  induction l1 as [| y l1 IH]; intros q x l2; simpl.
  - intros [-> H2]. by repeat split.
  - intros [-> H]. destruct (IH _ _ _ H) as [H1 H2]. by repeat split.
Qed.

Lemma filter_head_split {A} (P : A -> Prop) `{forall x, Decision (P x)}
    (l : list A) (x : A) (r : list A) :
  filter P l = x :: r ->
  exists l1 l2,
    l = l1 ++ x :: l2 /\ Forall (fun y => ~ P y) l1 /\ P x /\ filter P l2 = r.
Proof.
  induction l as [| y l IH]; [done |].
  rewrite filter_cons. destruct (decide (P y)) as [Hy | Hy].
  - intros [= -> <-]. exists [], l. by repeat split.
  - intros Hf. destruct (IH Hf) as (l1 & l2 & -> & Hl1 & Hx & Hr).
    exists (y :: l1), l2. repeat split; try done. by constructor.
Qed.

Lemma ensure_weights_registered (l : list string) (st : WeightedRoundRobin.t) :
  (forall b, b ∈ l -> is_Some (WeightedRoundRobin.backend_weights st !! b)) ->
  WeightedRoundRobin.ensure_weights st l = st.
Proof.
  unfold WeightedRoundRobin.ensure_weights.
  induction l as [| b l IH]; intros Hreg; simpl; [done |].
  unfold WeightedRoundRobin.ensure_weight at 2.
  destruct (Hreg b ltac:(by left)) as [w ->].
  apply IH. intros b' Hb'. apply Hreg. by right.
Qed.

Lemma select_backend_at_slot (fuel : nat) (q : nat) (st : WeightedRoundRobin.t) :
  at_slot q st ->
  WeightedRoundRobin.select_backend fuel st bs
  = WeightedRoundRobin.select_loop fuel st bs.
Proof.
  intros (_ & Hm & _). rewrite select_backend_nonempty by done.
  rewrite ensure_weights_registered; [done |].
  intros b Hb. destruct (weights_units b Hb) as (c & _ & Hc).
  rewrite Hm, Hc. by eexists.
Qed.

(** A call from slot [q] skips the unselected slots and returns the backend
    of the first selected one. *)
Lemma call_finds (l1 : list nat) :
  forall (q x : nat) (st : WeightedRoundRobin.t) (fuel : nat),
    at_slot q st ->
    follows q (l1 ++ [x]) ->
    Forall (fun y => ~ selected y = true) l1 ->
    selected x = true ->
    (length l1 < fuel)%nat ->
    exists st',
      WeightedRoundRobin.select_loop fuel st bs
      = Some (Return (Some (backend_at x)), st')
      /\ at_slot x st'.
Proof.
  induction l1 as [| y l1 IH]; intros q x st fuel Hat Hfol Hskip Hsel Hfuel;
    destruct fuel as [| fuel]; try (simpl in Hfuel; lia);
    destruct (pass_at_slot q st Hat) as [Hat1 Hpass]; rewrite Hpass.
  - destruct Hfol as [-> _]. rewrite Hsel. by eexists.
  - destruct Hfol as [-> Hfol]. apply Forall_cons in Hskip as [Hy Hskip].
    apply not_true_is_false in Hy. rewrite Hy.
    apply (IH _ _ _ _ Hat1 Hfol Hskip Hsel). simpl in Hfuel. lia.
Qed.

(** [k] calls from slot [q] return the backends of the first [k] selected
    slots after [q]. *)
Lemma calls_take (k : nat) :
  forall (l : list nat) (q : nat) (st : WeightedRoundRobin.t) (fuel : nat),
    at_slot q st ->
    follows q l ->
    (k <= length (filter (fun y => selected y = true) l))%nat ->
    (length l < fuel)%nat ->
    exists st' q',
      WeightedRoundRobin.select_many fuel k st bs
      = Some (backend_at <$> take k (filter (fun y => selected y = true) l),
              st')
      /\ at_slot q' st'.
Proof.
  induction k as [| k IH]; intros l q st fuel Hat Hfol Hk Hfuel.
  - exists st, q. by rewrite take_0.
  - destruct (filter (fun y => selected y = true) l) as [| x r] eqn:Hf;
      [simpl in Hk; lia |].
    destruct (filter_head_split _ _ _ _ Hf) as (l1 & l2 & -> & Hskip & Hx & Hr).
    destruct (follows_app _ _ _ _ Hfol) as [Hfol1 Hfol2].
    rewrite length_app in Hfuel. simpl in Hfuel, Hk.
    destruct (call_finds l1 q x st fuel Hat Hfol1 Hskip Hx ltac:(lia))
      as (st1 & Hcall & Hat1).
    destruct (IH l2 x st1 fuel Hat1 Hfol2 ltac:(rewrite Hr; lia) ltac:(lia))
      as (st' & q' & Hmany & Hat').
    exists st', q'. split; [| exact Hat'].
    simpl. rewrite (select_backend_at_slot _ _ _ Hat), Hcall, Hmany, Hr.
    reflexivity.
Qed.

Lemma follows_seq_app (len : nat) :
  forall (q : nat) (l2 : list nat),
    (S q + len <= M * n)%nat ->
    follows (q + len) l2 ->
    follows q (seq (S q) len ++ l2).
Proof.
  induction len as [| len IH]; intros q l2 Hle Hl2; simpl.
  - by rewrite Nat.add_0_r in Hl2.
  - split.
    + unfold Cycle.next_slot.
      by rewrite (proj2 (Nat.ltb_lt (S q) (M * n))) by lia.
    + apply IH; [lia |]. by replace (S q + len)%nat with (q + S len)%nat by lia.
Qed.

Lemma follows_cycle (q : nat) : (q < M * n)%nat -> follows q (cycle_after q).
Proof.
  intros Hq. unfold Cycle.cycle_after. apply follows_seq_app; [lia |].
  replace (q + (M * n - S q))%nat with (M * n - 1)%nat by lia.
  change (seq 0 (S q)) with (0%nat :: seq 1 q). split.
  - unfold Cycle.next_slot.
    by rewrite (proj2 (Nat.ltb_nlt (S (M * n - 1)) (M * n))) by lia.
  - rewrite <- (app_nil_r (seq 1 q)). by apply follows_seq_app; [lia |].
Qed.

Lemma cycle_after_perm (q : nat) :
  (q < M * n)%nat -> cycle_after q ≡ₚ seq 0 (M * n).
Proof.
  intros Hq. unfold Cycle.cycle_after.
  replace (M * n)%nat with (S q + (M * n - S q))%nat at 2 by lia.
  rewrite (seq_app (S q) (M * n - S q) 0). simpl plus.
  apply Permutation_app_comm.
Qed.

Lemma cycle_after_length (q : nat) :
  (q < M * n)%nat -> length (cycle_after q) = (M * n)%nat.
Proof.
  intros Hq. unfold Cycle.cycle_after.
  rewrite length_app, !length_seq. lia.
Qed.

Lemma fmap_filter_seq {A} (F : nat -> A) (T : nat -> bool) (Q : A -> Prop)
    `{forall x, Decision (Q x)} (l : list A) :
  forall off : nat,
    (forall j x, l !! j = Some x ->
       F (off + j)%nat = x /\ (T (off + j)%nat = true <-> Q x)) ->
    F <$> filter (fun q => T q = true) (seq off (length l)) = filter Q l.
Proof.
  induction l as [| x l IH]; intros off Hlk; [done |].
  simpl length. simpl seq.
  destruct (Hlk 0%nat x eq_refl) as [HF HT]. rewrite Nat.add_0_r in HF, HT.
  assert (Hrest : F <$> filter (fun q => T q = true) (seq (S off) (length l))
                  = filter Q l).
  { apply IH. intros j y Hy. specialize (Hlk (S j) y Hy).
    by replace (S off + j)%nat with (off + S j)%nat by lia. }
  rewrite !filter_cons.
  destruct (decide (T off = true)) as [Ht | Ht];
    destruct (decide (Q x)) as [Hq | Hq]; try tauto.
  rewrite fmap_cons, HF. by f_equal.
Qed.

Lemma round_picks_slots (r : nat) :
  backend_at <$> filter (fun q => selected q = true) (seq (r * n) n)
  = round_picks r.
Proof.
  pose proof cycle_n_pos as Hn. unfold Cycle.round_picks.
  apply (fmap_filter_seq backend_at selected
           (fun b => (M <= units b + r)%nat) bs (r * length bs)).
  intros j x Hx.
  pose proof (lookup_lt_Some _ _ _ Hx) as Hj.
  assert (Hmod : ((r * n + j) mod n = j)%nat).
  { symmetry. apply (Nat.mod_unique (r * n + j) n r); lia. }
  assert (Hdiv : ((r * n + j) / n = r)%nat).
  { symmetry. apply (Nat.div_unique (r * n + j) n r j); lia. }
  assert (Hb : backend_at (r * n + j) = x).
  { unfold Cycle.backend_at. by rewrite Hmod, Hx. }
  split; [exact Hb |].
  unfold Cycle.selected. rewrite Hb, Hdiv. apply Nat.leb_le.
Qed.

Lemma rounds_picks_slots (R : nat) :
  backend_at <$> filter (fun q => selected q = true) (seq 0 (R * n))
  = rounds_picks R.
Proof.
  induction R as [| R IH]; [done |].
  replace (S R * n)%nat with (R * n + n)%nat by lia.
  rewrite seq_app, filter_app, fmap_app, IH. simpl plus.
  by rewrite round_picks_slots.
Qed.

Lemma times_selected_app (b : string) (l1 l2 : list string) :
  times_selected b (l1 ++ l2)
  = (times_selected b l1 + times_selected b l2)%nat.
Proof. unfold times_selected. by rewrite filter_app, length_app. Qed.

Lemma times_selected_perm (b : string) (l1 l2 : list string) :
  l1 ≡ₚ l2 -> times_selected b l1 = times_selected b l2.
Proof. intros Hp. unfold times_selected. by rewrite Hp. Qed.

Lemma times_selected_NoDup (b : string) (l : list string) :
  NoDup l ->
  times_selected b l = if decide (b ∈ l) then 1%nat else 0%nat.
Proof.
  unfold times_selected. induction 1 as [| a l Ha Hl IH]; [done |].
  rewrite filter_cons. destruct (decide (a = b)) as [-> | Hne].
  - simpl. rewrite IH. rewrite decide_False by done.
    rewrite decide_True; [done | by left].
  - rewrite IH. destruct (decide (b ∈ l)) as [Hin | Hnin].
    + rewrite decide_True; [done | by right].
    + rewrite decide_False; [done |].
      intros Hb. apply elem_of_cons in Hb as [-> | Hb]; done.
Qed.

Lemma sum_list_with_indicator (x : string) (l : list string) :
  sum_list_with (fun b => if decide (x = b) then 1%nat else 0%nat) l
  = times_selected x l.
Proof.
  unfold times_selected. induction l as [| a l IH]; [done |].
  simpl. rewrite filter_cons, IH.
  destruct (decide (x = a)) as [-> | Hne].
  - by rewrite decide_True.
  - rewrite decide_False; [done | congruence].
Qed.

Lemma sum_list_with_add {A} (f h : A -> nat) (l : list A) :
  sum_list_with (fun b => (f b + h b)%nat) l
  = (sum_list_with f l + sum_list_with h l)%nat.
Proof. induction l as [| a l IH]; simpl; [done | lia]. Qed.

Lemma sum_list_with_ext_in {A} (f h : A -> nat) (l : list A) :
  (forall b, b ∈ l -> f b = h b) -> sum_list_with f l = sum_list_with h l.
Proof.
  induction l as [| a l IH]; intros Heq; simpl; [done |].
  rewrite (Heq a) by (by left). rewrite IH; [done |].
  intros b Hb. apply Heq. by right.
Qed.

(** A list of selections drawn from distinct backends is as long as the
    sum of the backends' counts. *)
Lemma length_sum_times_selected (known : list string) (picks : list string) :
  NoDup known ->
  (forall x, x ∈ picks -> x ∈ known) ->
  length picks = sum_list_with (fun b => times_selected b picks) known.
Proof.
  intros Hnd. induction picks as [| x picks IH]; intros Hsub.
  - unfold times_selected. simpl. clear Hnd Hsub.
    induction known as [| a known IHknown]; simpl; [done | exact IHknown].
  - simpl length. rewrite IH by (intros y Hy; apply Hsub; by right).
    rewrite (sum_list_with_ext_in
               (fun b => times_selected b (x :: picks))
               (fun b => ((if decide (x = b) then 1 else 0)
                          + times_selected b picks)%nat)).
    + rewrite sum_list_with_add, sum_list_with_indicator.
      rewrite times_selected_NoDup by done.
      rewrite decide_True; [done |]. apply Hsub. by left.
    + intros b _. unfold times_selected. rewrite filter_cons.
      destruct (decide (x = b)); simpl; done.
Qed.

Hypothesis bs_NoDup : NoDup bs.

Lemma times_selected_round (b : string) (r : nat) :
  b ∈ bs ->
  times_selected b (round_picks r)
  = if decide (M <= units b + r)%nat then 1%nat else 0%nat.
Proof.
  intros Hb. unfold Cycle.round_picks.
  rewrite times_selected_NoDup by (by apply NoDup_filter).
  destruct (decide (M <= units b + r)%nat) as [Hq | Hq].
  - rewrite decide_True; [done |]. by apply list_elem_of_filter.
  - rewrite decide_False; [done |].
    intros Hin. by apply list_elem_of_filter in Hin as [? _].
Qed.

Lemma times_selected_rounds (b : string) (R : nat) :
  b ∈ bs ->
  times_selected b (rounds_picks R) = (R + units b - M)%nat.
Proof.
  intros Hb. induction R as [| R IH]; simpl.
  - destruct (units_weight b Hb) as [Hu _]. unfold times_selected. simpl. lia.
  - rewrite times_selected_app, IH, times_selected_round by done.
    destruct (decide (M <= units b + R)%nat); lia.
Qed.

Lemma rounds_picks_known (R : nat) (x : string) :
  x ∈ rounds_picks R -> x ∈ bs.
Proof.
  induction R as [| R IH]; simpl; [by intros H%elem_of_nil |].
  intros Hx. apply elem_of_app in Hx as [Hx | Hx]; [by apply IH |].
  unfold Cycle.round_picks in Hx. by apply list_elem_of_filter in Hx as [_ ?].
Qed.

(** One full cycle selects as many backends as there are units of weight. *)
Lemma rounds_picks_length :
  length (rounds_picks M) = sum_list_with units bs.
Proof.
  rewrite (length_sum_times_selected bs) by
    (done || intros x; apply rounds_picks_known).
  apply sum_list_with_ext_in. intros b Hb.
  rewrite times_selected_rounds by done. lia.
Qed.

Lemma selected_cycle_length (q : nat) :
  (q < M * n)%nat ->
  length (filter (fun y => selected y = true) (cycle_after q))
  = sum_list_with units bs.
Proof.
  intros Hq. rewrite (cycle_after_perm q Hq).
  rewrite <- rounds_picks_length, <- rounds_picks_slots.
  by rewrite length_fmap.
Qed.

Lemma sum_units_pos : (0 < sum_list_with units bs)%nat.
Proof.
  assert (Hex : exists b, b ∈ bs).
  { destruct bs as [| b rest]; [done |]. exists b. by left. }
  destruct Hex as [b Hb].
  destruct (units_weight b Hb) as [Hu _].
  pose proof (sum_list_with_in b units bs Hb). lia.
Qed.

(** From any slot, one full cycle of calls selects every backend exactly
    as many times as it has units of weight. *)
Lemma window_counts (q : nat) (st : WeightedRoundRobin.t) (fuel : nat) :
  at_slot q st ->
  (M * n < fuel)%nat ->
  exists picks st' q',
    WeightedRoundRobin.select_many fuel (sum_list_with units bs) st bs
    = Some (picks, st')
    /\ at_slot q' st'
    /\ forall b, b ∈ bs -> times_selected b picks = units b.
Proof.
  intros Hat Hfuel. pose proof Hat as (Hq & _).
  pose proof (selected_cycle_length q Hq) as Hlen.
  destruct (calls_take (sum_list_with units bs) (cycle_after q) q st fuel)
    as (st' & q' & Hmany & Hat'); try done.
  - by apply follows_cycle.
  - lia.
  - by rewrite cycle_after_length.
  - rewrite take_ge in Hmany by lia.
    eexists _, st', q'. split; [exact Hmany |]. split; [exact Hat' |].
    intros b Hb.
    rewrite (times_selected_perm b _ (rounds_picks M)).
    + rewrite times_selected_rounds by done. lia.
    + rewrite <- rounds_picks_slots. apply fmap_Permutation.
      by rewrite (cycle_after_perm q Hq).
Qed.

(** Any number of calls keeps the state on the cycle. *)
Lemma calls_at_slot (k : nat) :
  forall (q : nat) (st : WeightedRoundRobin.t) (fuel : nat),
    at_slot q st ->
    (M * n < fuel)%nat ->
    exists picks st' q',
      WeightedRoundRobin.select_many fuel k st bs = Some (picks, st')
      /\ at_slot q' st'.
Proof.
  induction k as [| k IH]; intros q st fuel Hat Hfuel.
  - by exists [], st, q.
  - pose proof Hat as (Hq & _).
    destruct (calls_take 1 (cycle_after q) q st fuel)
      as (st1 & q1 & Hone & Hat1); try done.
    + by apply follows_cycle.
    + rewrite selected_cycle_length by done. pose proof sum_units_pos. lia.
    + by rewrite cycle_after_length.
    + simpl in Hone.
      destruct (WeightedRoundRobin.select_backend fuel st bs)
        as [[[[b |] | e] st2] |] eqn:Hcall; try discriminate.
      injection Hone as _ <-.
      destruct (IH q1 st2 fuel Hat1 Hfuel) as (picks & st' & q' & Hmany & Hat').
      exists (b :: picks), st', q'. split; [| exact Hat'].
      simpl. by rewrite Hcall, Hmany.
Qed.

(** The state right after registration stands at the last slot of the
    cycle. *)
Lemma initial_at_slot (st : WeightedRoundRobin.t) :
  WeightedRoundRobin.backend_weights st = m ->
  WeightedRoundRobin.max_weight st = mx ->
  WeightedRoundRobin.gcd_weight st = g ->
  WeightedRoundRobin.current_index st = 0 ->
  WeightedRoundRobin.current_weight st = 0 ->
  at_slot ((M - 1) * n) st.
Proof.
  intros Hm Hmx Hg Hi Hw. pose proof cycle_n_pos as Hn.
  assert (Hmod : (((M - 1) * n) mod n = 0)%nat) by apply Nat.Div0.mod_mul.
  assert (Hdiv : (((M - 1) * n) / n = M - 1)%nat) by (apply Nat.div_mul; lia).
  unfold Cycle.at_slot. rewrite Hmod, Hdiv.
  repeat split; try done; [nia |]. by right.
Qed.

End CycleProofs.

(** *** Registration, and the cycle of a registered weight list *)

Lemma gcd_of_perm (l1 l2 : list Z) : l1 ≡ₚ l2 -> gcd_of l1 = gcd_of l2.
Proof.
  unfold gcd_of. induction 1 as [| x l1 l2 _ IH | x y l | l1 l2 l3 _ IH1 _ IH2];
    simpl.
  - done.
  - by rewrite IH.
  - rewrite !Z.gcd_assoc. f_equal. apply Z.gcd_comm.
  - by rewrite IH1.
Qed.

Lemma foldl_gcd_gcd_of (l : list Z) :
  forall a : Z, 0 <= a -> foldl Z.gcd a l = Z.gcd a (gcd_of l).
Proof.
  induction l as [| y l IH]; intros a Ha; simpl.
  - rewrite Z.gcd_0_r. lia.
  - rewrite IH by apply Z.gcd_nonneg. by rewrite Z.gcd_assoc.
Qed.

(** On positive weights the plugin's [_gcd_list] is the gcd. *)
Lemma gcd_list_gcd_of (l : list Z) :
  Forall (fun w => 0 < w) l -> WeightedRoundRobin._gcd_list l = gcd_of l.
Proof.
  destruct l as [| x rest]; [done |]. intros Hpos.
  apply Forall_cons in Hpos as [Hx _]. simpl.
  apply foldl_gcd_gcd_of. lia.
Qed.

Lemma register_spec (ws : list (string * Z)) :
  forall st : WeightedRoundRobin.t,
    consistent st ->
    Forall (fun bw => 0 < bw.2) ws ->
    exists st',
      WeightedRoundRobin.register st ws = (Return tt, st')
      /\ consistent st'
      /\ WeightedRoundRobin.backend_weights st'
         = registered (WeightedRoundRobin.backend_weights st) ws
      /\ WeightedRoundRobin.current_index st'
         = WeightedRoundRobin.current_index st
      /\ WeightedRoundRobin.current_weight st'
         = WeightedRoundRobin.current_weight st.
Proof.
  induction ws as [| [b w] ws IH]; intros st Hc Hpos; simpl.
  - by exists st.
  - apply Forall_cons in Hpos as [Hw Hpos]. simpl in Hw.
    destruct (set_backend_weight_spec st b w Hw (proj1 Hc))
      as (Hret & Hc1 & Hm1 & Hi1 & Hw1).
    destruct (WeightedRoundRobin.set_backend_weight st b w) as [r st1].
    simpl in *. subst r.
    destruct (IH st1 Hc1 Hpos) as (st' & Hreg & Hc' & Hm' & Hi' & Hw').
    exists st'. rewrite <- Hm1.
    split; [done |]. split; [done |]. split; [done |]. split; congruence.
Qed.

Lemma registered_perm (ws : list (string * Z)) :
  forall m0 : gmap string Z,
    NoDup ws.*1 ->
    (forall b, b ∈ ws.*1 -> m0 !! b = None) ->
    map_to_list (registered m0 ws) ≡ₚ ws ++ map_to_list m0.
Proof.
  unfold registered.
  induction ws as [| [b w] ws IH]; intros m0 Hnd Hfresh; simpl; [done |].
  rewrite fmap_cons in Hnd. apply NoDup_cons in Hnd as [Hb Hnd].
  rewrite IH.
  - rewrite map_to_list_insert by (apply Hfresh; by left).
    by rewrite Permutation_middle.
  - exact Hnd.
  - intros b' Hb'. rewrite lookup_insert_ne by (intros ->; done).
    apply Hfresh. rewrite fmap_cons. by right.
Qed.

Lemma registered_lookup (ws : list (string * Z)) (b : string) (w : Z) :
  NoDup ws.*1 ->
  (b, w) ∈ ws ->
  registered ∅ ws !! b = Some w.
Proof.
  intros Hnd Hin.
  apply elem_of_map_to_list.
  rewrite registered_perm; [| done | by intros; apply lookup_empty].
  rewrite map_to_list_empty, app_nil_r. exact Hin.
Qed.

Lemma weight_values_registered (ws : list (string * Z)) :
  NoDup ws.*1 ->
  WeightedRoundRobin.weight_values (registered ∅ ws) ≡ₚ ws.*2.
Proof.
  intros Hnd. unfold WeightedRoundRobin.weight_values.
  rewrite registered_perm; [| done | by intros; apply lookup_empty].
  by rewrite map_to_list_empty, app_nil_r.
Qed.

Lemma consistent_gcd_weight (st : WeightedRoundRobin.t) :
  consistent st ->
  WeightedRoundRobin.gcd_weight st
  = gcd_of (WeightedRoundRobin.weight_values
              (WeightedRoundRobin.backend_weights st)).
Proof.
  intros [Hpos Hrec]. rewrite <- gcd_list_gcd_of.
  - rewrite <- Hrec at 1. unfold WeightedRoundRobin._recalculate_weights.
    by destruct (WeightedRoundRobin.weight_values _).
  - apply Forall_forall. intros w Hw.
    unfold WeightedRoundRobin.weight_values in Hw.
    apply list_elem_of_fmap in Hw as ([b w'] & -> & Hin).
    apply elem_of_map_to_list in Hin. by eapply Hpos.
Qed.

Lemma sum_units_registered (m : gmap string Z) (g : Z) (l : list (string * Z)) :
  0 < g ->
  (forall b w, (b, w) ∈ l -> m !! b = Some w /\ 0 < w /\ (g | w)) ->
  sum_list_with (Cycle.units m g) l.*1 = Z.to_nat (sum_of l.*2 / g)
  /\ 0 <= sum_of l.*2 / g.
Proof.
  intros Hg. unfold sum_of.
  induction l as [| [b w] l IH]; intros Hl.
  - simpl. rewrite Z.div_0_l by lia. by split.
  - destruct (Hl b w ltac:(by left)) as (Hm & Hw & [c Hc]).
    destruct IH as [IHsum IHpos]; [intros b' w' Hin; apply Hl; by right |].
    assert (Hu : Cycle.units m g b = Z.to_nat c).
    { unfold Cycle.units. rewrite Hm. simpl. by rewrite Hc, Z.div_mul by lia. }
    assert (Hcpos : 0 <= c) by nia.
    rewrite !fmap_cons. cbn [sum_list_with foldr fst snd].
    rewrite Hc, Z.div_add_l by lia.
    rewrite Hu, IHsum. split; [| lia].
    by rewrite Z2Nat.inj_add by lia.
Qed.

(** C3 (as amended): on a plugin on which distinct backends have been
    registered with positive weights, the backends [b1..bn] of the list with
    weights [w1..wn] among them, [gcd_weight] is [g], the gcd of all the
    registered weights (the gcd of [w1..wn] when no other backend is
    registered); and, after any number [k] of earlier selections on the list
    [b1..bn], the next [sum(wi)/g] calls of [select_backend] on that list
    all return a backend and return each [bi] exactly [wi/g] times. *)
Theorem weighted_cycle_counts (ws others : list (string * Z)) (k : nat) :
  ws <> [] ->
  NoDup (ws ++ others).*1 ->
  Forall (fun bw => 0 < bw.2) (ws ++ others) ->
  exists st0,
    WeightedRoundRobin.register WeightedRoundRobin.init (ws ++ others)
    = (Return tt, st0)
    /\ WeightedRoundRobin.gcd_weight st0 = gcd_of (ws ++ others).*2
    /\ (others = [] -> WeightedRoundRobin.gcd_weight st0 = gcd_of ws.*2)
    /\ exists fuel0 : nat,
         forall fuel : nat, (fuel0 <= fuel)%nat ->
           exists picks_k st_k picks st',
             WeightedRoundRobin.select_many fuel k st0 ws.*1
             = Some (picks_k, st_k)
             /\ WeightedRoundRobin.select_many fuel
                  (Z.to_nat (sum_of ws.*2 / WeightedRoundRobin.gcd_weight st0))
                  st_k ws.*1
                = Some (picks, st')
             /\ forall b w, (b, w) ∈ ws ->
                  times_selected b picks
                  = Z.to_nat (w / WeightedRoundRobin.gcd_weight st0).
Proof.
  intros Hne Hnd Hpos.
  destruct (register_spec (ws ++ others) WeightedRoundRobin.init
              consistent_init Hpos)
    as (st0 & Hreg & Hc0 & Hm0 & Hi0 & Hw0).
  simpl in Hm0, Hi0, Hw0.
  set (m := registered ∅ (ws ++ others)) in *. set (bs := ws.*1).
  assert (Hbs : bs <> []) by (subst bs; by destruct ws).
  assert (Hndbs : NoDup bs).
  { subst bs. rewrite fmap_app in Hnd. by apply NoDup_app in Hnd as (? & _). }
  assert (Hlook : forall b w, (b, w) ∈ ws -> m !! b = Some w).
  { intros b w Hin. apply registered_lookup; [done |].
    apply elem_of_app. by left. }
  assert (Hdom : forall b, b ∈ bs -> exists w, (b, w) ∈ ws /\ m !! b = Some w).
  { intros b Hb. subst bs. apply list_elem_of_fmap in Hb as ([b' w] & -> & Hin).
    exists w. split; [done |]. by apply Hlook. }
  assert (Hok : loop_ok bs st0).
  { apply consistent_loop_ok; [done | done |].
    intros b Hb. destruct (Hdom b Hb) as (w & _ & Hw). rewrite Hm0, Hw.
    by eexists. }
  destruct Hok as (Hg & Hmx & [qx Hqx] & Hall).
  assert (Hgcd : WeightedRoundRobin.gcd_weight st0 = gcd_of (ws ++ others).*2).
  { rewrite (consistent_gcd_weight st0 Hc0), Hm0.
    apply gcd_of_perm. by apply weight_values_registered. }
  exists st0. split; [exact Hreg |]. split; [exact Hgcd |].
  split; [intros ->; by rewrite app_nil_r in Hgcd |].
  set (g := WeightedRoundRobin.gcd_weight st0) in *.
  set (mx := WeightedRoundRobin.max_weight st0) in *.
  set (M := Z.to_nat qx).
  assert (HM : (0 < M)%nat) by (subst M; nia).
  assert (Hlevels : mx = Z.of_nat M * g) by (subst M; rewrite Z2Nat.id; nia).
  assert (Hunits : forall b, b ∈ bs ->
            exists c : nat, (0 < c <= M)%nat /\ m !! b = Some (Z.of_nat c * g)).
  { intros b Hb. destruct (Hdom b Hb) as (w & _ & Hw).
    destruct (Hall b Hb) as (Hwpos & Hwmx & [c Hc]).
    unfold WeightedRoundRobin.weight_of in *. rewrite Hm0, Hw in *.
    simpl in *. exists (Z.to_nat c).
    assert (0 < c) by nia. rewrite Z2Nat.id by lia.
    split; [| by rewrite Hc]. subst M. nia. }
  assert (Hsum : sum_list_with (Cycle.units m g) bs = Z.to_nat (sum_of ws.*2 / g)).
  { apply sum_units_registered; [done |].
    intros b w Hin. pose proof (Hlook b w Hin) as Hl.
    split; [done |].
    assert (Hb : b ∈ bs).
    { subst bs. apply list_elem_of_fmap. by exists (b, w). }
    destruct (Hall b Hb) as (Hwpos & _ & Hdiv).
    unfold WeightedRoundRobin.weight_of in *. rewrite Hm0, Hl in *.
    by split. }
  exists (S (M * length bs)). intros fuel Hfuel.
  pose proof (initial_at_slot bs m mx g M Hbs Hg HM Hunits st0
                Hm0 eq_refl eq_refl Hi0 Hw0) as Hat0.
  destruct (calls_at_slot bs m mx g M Hbs Hg HM Hlevels Hunits Hndbs k _ st0 fuel
              Hat0 ltac:(lia)) as (picks_k & st_k & q_k & Hk & Hatk).
  destruct (window_counts bs m mx g M Hbs Hg HM Hlevels Hunits Hndbs _ st_k fuel
              Hatk ltac:(lia)) as (picks & st' & q' & Hwin & _ & Hcount).
  exists picks_k, st_k, picks, st'. split; [exact Hk |].
  split; [by rewrite <- Hsum |].
  intros b w Hin.
  assert (Hb : b ∈ bs).
  { subst bs. apply list_elem_of_fmap. by exists (b, w). }
  rewrite (Hcount b Hb). unfold Cycle.units.
  by rewrite (Hlook b w Hin).
Qed.

Lemma weighted_cycle_counts_witness :
  exists st0,
    WeightedRoundRobin.register WeightedRoundRobin.init
      ([("b1", 50); ("b2", 100)]%string ++ [("b3", 150)]%string)
    = (Return tt, st0)
    /\ WeightedRoundRobin.gcd_weight st0 = 50.
Proof.
  destruct (weighted_cycle_counts [("b1", 50); ("b2", 100)]%string
              [("b3", 150)]%string 4)
    as (st0 & Hreg & Hgcd & _).
  - discriminate.
  - apply (bool_decide_unpack _). reflexivity.
  - repeat constructor.
  - exists st0. split; [exact Hreg |]. rewrite Hgcd. reflexivity.
Defined.

(** C3, counterexample: with the weights 2 and 4 registered for the
    backends [a] and [b] of the list and the weight 3 for a third backend,
    the gcd of the list's weights is 2 and the window has [6 / 2 = 3] calls;
    the plugin's [gcd_weight] is 1, and the first three calls on [[a; b]]
    return [b] three times and [a] never, not once. *)
Lemma weighted_cycle_other_backend_registered :
  let st0 := snd (WeightedRoundRobin.register WeightedRoundRobin.init
                    [("a", 2); ("b", 4); ("z", 3)]%string) in
  fst (WeightedRoundRobin.register WeightedRoundRobin.init
         [("a", 2); ("b", 4); ("z", 3)]%string) = Return tt
  /\ WeightedRoundRobin.gcd_weight st0 = 1
  /\ gcd_of [2; 4] = 2
  /\ option_map fst
       (WeightedRoundRobin.select_many 20
          (Z.to_nat (sum_of [2; 4] / gcd_of [2; 4])) st0 ["a"; "b"]%string)
     = Some ["b"; "b"; "b"]%string
  /\ times_selected "a" ["b"; "b"; "b"]%string = 0%nat
  /\ Z.to_nat (2 / gcd_of [2; 4]) = 1%nat.
Proof. repeat split; vm_compute; reflexivity. Qed.

(** The example of the specification: weights 50, 100, 150 have gcd 50, and
    six calls select the three backends 1, 2 and 3 times. *)
Example weighted_50_100_150 :
  let st0 := snd (WeightedRoundRobin.register WeightedRoundRobin.init
                    [("b1", 50); ("b2", 100); ("b3", 150)]%string) in
  WeightedRoundRobin.gcd_weight st0 = 50
  /\ option_map fst
       (WeightedRoundRobin.select_many 7 6 st0 ["b1"; "b2"; "b3"]%string)
     = Some ["b2"; "b3"; "b3"; "b2"; "b3"; "b1"]%string.
Proof. split; vm_compute; reflexivity. Qed.

(** * Further properties *)

(** ** Circuit breaker: [call], [_record_success], [_record_failure],
       [reset] *)

Lemma should_attempt_reset_with_stats (cb : CircuitBreaker.t)
    (s : CircuitBreaker.Stats) (now : Q) :
  CircuitBreaker._should_attempt_reset (CircuitBreaker.with_stats cb s) now
  = CircuitBreaker._should_attempt_reset cb now.
Proof. reflexivity. Qed.

Lemma should_attempt_reset_not_open (cb : CircuitBreaker.t) (now : Q) :
  CircuitBreaker.state cb <> CircuitBreaker.OPEN ->
  CircuitBreaker._should_attempt_reset cb now = false.
Proof.
  intros Hne. unfold CircuitBreaker._should_attempt_reset.
  by rewrite decide_False.
Qed.

(** While the breaker is Open and the cooldown has not elapsed, [call]
    raises the circuit-open error whatever the operation would do, and
    changes nothing but the counters [total_calls] and [rejected_calls],
    which go up by one. *)
Theorem call_rejects_while_open (cb : CircuitBreaker.t) (now now' : Q)
    (func_ok : bool) :
  CircuitBreaker.state cb = CircuitBreaker.OPEN ->
  (now - CircuitBreaker.last_failure_time cb
   < CircuitBreaker.timeout (CircuitBreaker.config cb))%Q ->
  CircuitBreaker.call cb now now' func_ok
  = (Raise CircuitOpenError,
     CircuitBreaker.with_stats cb
       (CircuitBreaker.bump_rejected
          (CircuitBreaker.bump_total (CircuitBreaker.stats cb)))).
Proof.
  intros Hopen Hcool.
  unfold CircuitBreaker.call, CircuitBreaker.call_admit.
  rewrite should_attempt_reset_with_stats.
  assert (Hno : CircuitBreaker._should_attempt_reset cb now = false).
  { destruct (CircuitBreaker._should_attempt_reset cb now) eqn:Hr; [| done].
    apply should_attempt_reset_true in Hr as [_ Hle]. lra. }
  rewrite Hno. simpl. rewrite Hopen. reflexivity.
Qed.

Lemma call_rejects_while_open_witness :
  CircuitBreaker.call tripped_breaker 30 31 true
  = (Raise CircuitOpenError,
     CircuitBreaker.with_stats tripped_breaker
       (CircuitBreaker.bump_rejected
          (CircuitBreaker.bump_total (CircuitBreaker.stats tripped_breaker)))).
Proof.
  apply (call_rejects_while_open tripped_breaker 30 31 true).
  - reflexivity.
  - reflexivity.
Defined.

Lemma call_admit_not_open (cb : CircuitBreaker.t) (now : Q) :
  CircuitBreaker.state cb <> CircuitBreaker.OPEN ->
  CircuitBreaker.call_admit cb now
  = (Return tt,
     CircuitBreaker.with_stats cb
       (CircuitBreaker.bump_total (CircuitBreaker.stats cb))).
Proof.
  intros Hne. unfold CircuitBreaker.call_admit.
  rewrite should_attempt_reset_with_stats, should_attempt_reset_not_open
    by done.
  simpl. by rewrite decide_False.
Qed.

(** A Half-Open breaker probes the backend.  One failed call reopens it at
    once and restarts the cooldown from the time of the failure, so it is
    unavailable until [timeout] has passed again.  A successful call closes
    it, with both counters at 0 and an empty history, once
    [success_threshold] successes are reached, and otherwise only counts the
    success. *)
Theorem half_open_probe (cb : CircuitBreaker.t) (now now' : Q) :
  CircuitBreaker.state cb = CircuitBreaker.HALF_OPEN ->
  (let failed := snd (CircuitBreaker.call cb now now' false) in
   fst (CircuitBreaker.call cb now now' false) = Return false
   /\ CircuitBreaker.state failed = CircuitBreaker.OPEN
   /\ CircuitBreaker.last_failure_time failed = now'
   /\ forall t,
        (t - now' < CircuitBreaker.timeout (CircuitBreaker.config cb))%Q ->
        fst (CircuitBreaker.is_available failed t) = false)
  /\ (let passed := snd (CircuitBreaker.call cb now now' true) in
      fst (CircuitBreaker.call cb now now' true) = Return true
      /\ if CircuitBreaker.success_threshold (CircuitBreaker.config cb)
            <=? CircuitBreaker.success_count cb + 1
         then CircuitBreaker.state passed = CircuitBreaker.CLOSED
              /\ CircuitBreaker.failure_count passed = 0
              /\ CircuitBreaker.success_count passed = 0
              /\ CircuitBreaker.call_history passed = []
         else CircuitBreaker.state passed = CircuitBreaker.HALF_OPEN
              /\ CircuitBreaker.success_count passed
                 = CircuitBreaker.success_count cb + 1).
Proof.
  intros Hhalf. destruct cb as [cfg st fc sc lft h stats].
  simpl in Hhalf. subst st.
  unfold CircuitBreaker.call, CircuitBreaker.call_admit,
    CircuitBreaker._should_attempt_reset, CircuitBreaker._record_failure,
    CircuitBreaker._record_success, CircuitBreaker._change_state,
    CircuitBreaker.with_stats, CircuitBreaker.is_available; simpl.
  split.
  - split; [done |]. split; [done |]. split; [done |].
    intros t Ht.
    destruct (CircuitBreaker._should_attempt_reset _ t) eqn:Hr; [| done].
    apply should_attempt_reset_true in Hr as [_ Hle]. simpl in Hle. lra.
  - split; [done |].
    destruct (CircuitBreaker.success_threshold cfg <=? sc + 1); simpl; done.
Qed.

(** A Closed breaker counts consecutive failures: a failed call adds one to
    [failure_count] and opens the breaker, recording the time, exactly when
    the count reaches [failure_threshold]; a successful call puts the count
    back to 0 and leaves the breaker Closed. *)
Theorem closed_counts_consecutive_failures (cb : CircuitBreaker.t)
    (now now' : Q) :
  CircuitBreaker.state cb = CircuitBreaker.CLOSED ->
  (let failed := snd (CircuitBreaker.call cb now now' false) in
   CircuitBreaker.failure_count failed = CircuitBreaker.failure_count cb + 1
   /\ if CircuitBreaker.failure_threshold (CircuitBreaker.config cb)
         <=? CircuitBreaker.failure_count cb + 1
      then CircuitBreaker.state failed = CircuitBreaker.OPEN
           /\ CircuitBreaker.last_failure_time failed = now'
      else CircuitBreaker.state failed = CircuitBreaker.CLOSED
           /\ CircuitBreaker.last_failure_time failed
              = CircuitBreaker.last_failure_time cb)
  /\ (let passed := snd (CircuitBreaker.call cb now now' true) in
      CircuitBreaker.state passed = CircuitBreaker.CLOSED
      /\ CircuitBreaker.failure_count passed = 0).
Proof.
  intros Hclosed. destruct cb as [cfg st fc sc lft h stats].
  simpl in Hclosed. subst st.
  unfold CircuitBreaker.call, CircuitBreaker.call_admit,
    CircuitBreaker._should_attempt_reset, CircuitBreaker._record_failure,
    CircuitBreaker._record_success, CircuitBreaker._change_state,
    CircuitBreaker.with_stats; simpl.
  split; [| done]. split; [by destruct (_ <=? _) |].
  destruct (CircuitBreaker.failure_threshold cfg <=? fc + 1); simpl; done.
Qed.

Lemma half_open_probe_witness :
  CircuitBreaker.state (snd (CircuitBreaker.call probing_breaker 110 111 false))
  = CircuitBreaker.OPEN.
Proof.
  refine (proj1 (proj2 (proj1 (half_open_probe probing_breaker 110 111 _)))).
  reflexivity.
Defined.

Lemma closed_counts_consecutive_failures_witness :
  CircuitBreaker.failure_count
    (snd (CircuitBreaker.call
            (CircuitBreaker.init CircuitBreaker.default_config) 1 2 false))
  = CircuitBreaker.failure_count
      (CircuitBreaker.init CircuitBreaker.default_config) + 1.
Proof.
  refine (proj1 (proj1 (closed_counts_consecutive_failures
                          (CircuitBreaker.init CircuitBreaker.default_config)
                          1 2 _))).
  reflexivity.
Defined.

(** What a [call] keeps. *)
Lemma call_keeps (cb : CircuitBreaker.t) (now now' : Q) (func_ok : bool) :
  CircuitBreaker.config (snd (CircuitBreaker.call cb now now' func_ok))
  = CircuitBreaker.config cb
  /\ (stats_balanced cb ->
      stats_balanced (snd (CircuitBreaker.call cb now now' func_ok)))
  /\ (history_bounded cb ->
      history_bounded (snd (CircuitBreaker.call cb now now' func_ok))).
Proof.
  destruct cb as [cfg st fc sc lft h stats].
  unfold stats_balanced, history_bounded.
  assert (Hpush : forall ok,
            Z.of_nat (length h) <= Z.max 0 (CircuitBreaker.window_size cfg) ->
            Z.of_nat (length (CircuitBreaker.push_history cfg h ok))
            <= Z.max 0 (CircuitBreaker.window_size cfg)).
  { intros ok Hh. unfold CircuitBreaker.push_history.
    destruct (CircuitBreaker.window_size cfg <? Z.of_nat (length (h ++ [ok])))
      eqn:Hlt.
    - destruct h as [| a h']; simpl in *; [lia |].
      rewrite length_app in *. simpl in *. lia.
    - apply Z.ltb_ge in Hlt. rewrite length_app in *. simpl in *. lia. }
  unfold CircuitBreaker.call, CircuitBreaker.call_admit,
    CircuitBreaker._should_attempt_reset, CircuitBreaker._record_failure,
    CircuitBreaker._record_success, CircuitBreaker._change_state,
    CircuitBreaker.with_stats.
  destruct st, func_ok; simpl;
    repeat match goal with
           | |- context [if ?c then _ else _] => destruct c eqn:?; simpl
           end;
    (split; [reflexivity |]); split; intros Hinv; simpl in *;
    try lia; try (by apply Hpush).
Qed.

Lemma calls_keep (l : list (Q * Q * bool)) :
  forall cb : CircuitBreaker.t,
    CircuitBreaker.config (snd (CircuitBreaker.calls cb l))
    = CircuitBreaker.config cb
    /\ (stats_balanced cb -> stats_balanced (snd (CircuitBreaker.calls cb l)))
    /\ (history_bounded cb ->
        history_bounded (snd (CircuitBreaker.calls cb l))).
Proof.
  induction l as [| [[now now'] ok] l IH]; intros cb; simpl; [done |].
  destruct (call_keeps cb now now' ok) as (Hc & Hs & Hh).
  destruct (CircuitBreaker.call cb now now' ok) as [r cb1]. simpl in *.
  destruct (IH cb1) as (Hc' & Hs' & Hh').
  destruct (CircuitBreaker.calls cb1 l) as [rs cb2]. simpl in *.
  split; [congruence |]. split; tauto.
Qed.

Lemma call_unrecorded (cb : CircuitBreaker.t) (now now' : Q)
    (func_ok : bool) :
  unrecorded (snd (CircuitBreaker.call cb now now' func_ok)) = unrecorded cb
  /\ fst (CircuitBreaker.call cb now now' func_ok) <> Raise BaseException.
Proof.
  destruct cb as [cfg st fc sc lft h stats]. unfold unrecorded.
  unfold CircuitBreaker.call, CircuitBreaker.call_admit,
    CircuitBreaker._should_attempt_reset, CircuitBreaker._record_failure,
    CircuitBreaker._record_success, CircuitBreaker._change_state,
    CircuitBreaker.with_stats.
  destruct st, func_ok; simpl;
    repeat match goal with
           | |- context [if ?c then _ else _] => destruct c eqn:?; simpl
           end;
    (split; [lia | discriminate]).
Qed.

Lemma call_func_unrecorded (cb : CircuitBreaker.t) (now now' : Q)
    (f : CircuitBreaker.func_end) :
  unrecorded (snd (CircuitBreaker.call_func cb now now' f))
  = unrecorded cb
    + escaped [fst (CircuitBreaker.call_func cb now now' f)]
  /\ (f <> CircuitBreaker.RaisesBaseException ->
      fst (CircuitBreaker.call_func cb now now' f) <> Raise BaseException).
Proof.
  destruct f; cbn [CircuitBreaker.call_func].
  - destruct (call_unrecorded cb now now' true) as [Hu Hr].
    split; [| done]. rewrite Hu.
    destruct (fst (CircuitBreaker.call cb now now' true)) as [b | []];
      simpl; (lia || done).
  - destruct (call_unrecorded cb now now' false) as [Hu Hr].
    split; [| done]. rewrite Hu.
    destruct (fst (CircuitBreaker.call cb now now' false)) as [b | []];
      simpl; (lia || done).
  - split; [| done].
    destruct cb as [cfg st fc sc lft h stats]. unfold unrecorded.
    unfold CircuitBreaker.call_admit, CircuitBreaker._should_attempt_reset,
      CircuitBreaker._change_state, CircuitBreaker.with_stats.
    destruct st; simpl;
      repeat match goal with
             | |- context [if ?c then _ else _] => destruct c eqn:?; simpl
             end;
      lia.
Qed.

Lemma calls_func_unrecorded (l : list (Q * Q * CircuitBreaker.func_end)) :
  forall cb : CircuitBreaker.t,
    unrecorded (snd (CircuitBreaker.calls_func cb l))
    = unrecorded cb + escaped (fst (CircuitBreaker.calls_func cb l))
    /\ (Forall (fun c => c.2 <> CircuitBreaker.RaisesBaseException) l ->
        escaped (fst (CircuitBreaker.calls_func cb l)) = 0).
Proof.
  induction l as [| [[now now'] f] l IH]; intros cb.
  - simpl. split; [lia | done].
  - cbn [CircuitBreaker.calls_func].
    destruct (call_func_unrecorded cb now now' f) as [Hu Hne].
    destruct (CircuitBreaker.call_func cb now now' f) as [r cb1].
    cbn [fst snd] in *.
    destruct (IH cb1) as [Hu' Hz].
    destruct (CircuitBreaker.calls_func cb1 l) as [rs cb2].
    cbn [fst snd] in *. split.
    + rewrite Hu', Hu. simpl. destruct r as [b | []]; simpl; lia.
    + intros Hall. apply Forall_cons in Hall as [Hf Hall]. simpl in Hf.
      specialize (Hne Hf). specialize (Hz Hall).
      destruct r as [b | []]; simpl; (done || lia).
Qed.

(** Whatever calls a new breaker has served, its counters account for
    every call but those whose operation raised an exception that is not an
    [Exception]: [total_calls] is the sum of [successful_calls],
    [failed_calls], [rejected_calls] and the number of such calls, which
    [call] counts and records nowhere else.  When every operation returned
    or raised an [Exception], the counters balance. *)
Theorem calls_stats_balanced (cfg : CircuitBreaker.CircuitBreakerConfig)
    (l : list (Q * Q * CircuitBreaker.func_end)) :
  let rs := fst (CircuitBreaker.calls_func (CircuitBreaker.init cfg) l) in
  let cb := snd (CircuitBreaker.calls_func (CircuitBreaker.init cfg) l) in
  CircuitBreaker.total_calls (CircuitBreaker.stats cb)
  = CircuitBreaker.successful_calls (CircuitBreaker.stats cb)
    + CircuitBreaker.failed_calls (CircuitBreaker.stats cb)
    + CircuitBreaker.rejected_calls (CircuitBreaker.stats cb)
    + escaped rs
  /\ (Forall (fun c => c.2 <> CircuitBreaker.RaisesBaseException) l ->
      stats_balanced cb).
Proof.
  intros rs cb.
  destruct (calls_func_unrecorded l (CircuitBreaker.init cfg)) as [Hu Hz].
  fold rs cb in Hu, Hz. unfold unrecorded in Hu. simpl in Hu.
  split; [lia |].
  intros Hall. specialize (Hz Hall). unfold stats_balanced. lia.
Qed.

(** Whatever calls a new breaker has served, its history never holds more
    than [window_size] outcomes (none when [window_size] is negative). *)
Theorem calls_history_bounded (cfg : CircuitBreaker.CircuitBreakerConfig)
    (l : list (Q * Q * bool)) :
  Z.of_nat (length (CircuitBreaker.call_history
                      (snd (CircuitBreaker.calls (CircuitBreaker.init cfg) l))))
  <= Z.max 0 (CircuitBreaker.window_size cfg).
Proof.
  destruct (calls_keep l (CircuitBreaker.init cfg)) as (Hc & _ & Hh).
  unfold history_bounded in Hh. rewrite Hc in Hh. apply Hh.
  simpl. lia.
Qed.

(** [reset] always leaves the breaker Closed.  On a breaker that was Open
    or Half-Open it zeroes both counters, clears the history and counts one
    state change; on a breaker that is already Closed it changes nothing:
    the failures counted so far stay counted. *)
Theorem reset_closes (cb : CircuitBreaker.t) (now : Q) :
  CircuitBreaker.state (CircuitBreaker.reset cb now) = CircuitBreaker.CLOSED
  /\ (CircuitBreaker.state cb = CircuitBreaker.CLOSED ->
      CircuitBreaker.reset cb now = cb)
  /\ (CircuitBreaker.state cb <> CircuitBreaker.CLOSED ->
      CircuitBreaker.failure_count (CircuitBreaker.reset cb now) = 0
      /\ CircuitBreaker.success_count (CircuitBreaker.reset cb now) = 0
      /\ CircuitBreaker.call_history (CircuitBreaker.reset cb now) = []
      /\ CircuitBreaker.last_failure_time (CircuitBreaker.reset cb now)
         = CircuitBreaker.last_failure_time cb
      /\ CircuitBreaker.state_changes
           (CircuitBreaker.stats (CircuitBreaker.reset cb now))
         = CircuitBreaker.state_changes (CircuitBreaker.stats cb) + 1).
Proof.
  unfold CircuitBreaker.reset, CircuitBreaker._change_state.
  destruct (decide (CircuitBreaker.state cb = CircuitBreaker.CLOSED))
    as [Hc | Hc]; simpl.
  - split; [exact Hc |]. split; [done |]. intros Hn. by destruct Hn.
  - split; [done |]. split; [intros Hn; by destruct Hc | done].
Qed.

(** ** Round robin: successive selections *)

(** On a fixed non-empty list, starting with the index inside the list (as
    it is after [__init__], [reset] or any selection on that list), no
    selection raises, the [j]-th of a run of selections returns the server
    at position [(current_index + j) mod len], and the index ends at
    [(current_index + k) mod len] after [k] selections. *)
Theorem round_robin_cycles {A} (servers : list A) (k : nat) :
  forall rr : RoundRobin.t,
    0 <= RoundRobin.current_index rr < Z.of_nat (length servers) ->
    exists picks rr',
      RoundRobin.select_many k rr servers = (Return picks, rr')
      /\ length picks = k
      /\ (forall j, (j < k)%nat ->
            picks !! j
            = Some (servers
                      !! Z.to_nat ((RoundRobin.current_index rr + Z.of_nat j)
                                   mod Z.of_nat (length servers))))
      /\ RoundRobin.current_index rr'
         = (RoundRobin.current_index rr + Z.of_nat k)
             mod Z.of_nat (length servers).
Proof.
  induction k as [| k IH]; intros rr Hi.
  - exists [], rr. simpl. split; [done |]. split; [done |].
    split; [intros j Hj; lia |]. rewrite Z.add_0_r, Z.mod_small; lia.
  - destruct (select_server_in_range rr servers Hi) as (x & Hx & Hsel).
    set (rr1 := {| RoundRobin.current_index :=
                     (RoundRobin.current_index rr + 1)
                       mod Z.of_nat (length servers) |}) in *.
    assert (Hi1 : 0 <= RoundRobin.current_index rr1
                  < Z.of_nat (length servers))
      by (apply Z.mod_pos_bound; lia).
    destruct (IH rr1 Hi1) as (picks & rr' & Hmany & Hlen & Hpicks & Hidx).
    exists (Some x :: picks), rr'. simpl. rewrite Hsel, Hmany.
    split; [done |]. split; [by rewrite <- Hlen |]. split.
    + intros [| j] Hj; simpl.
      * rewrite Z.add_0_r, Z.mod_small by lia. by rewrite Hx.
      * rewrite Hpicks by lia. do 3 f_equal. simpl.
        rewrite Zplus_mod_idemp_l. f_equal. lia.
    + rewrite Hidx. simpl. rewrite Zplus_mod_idemp_l. f_equal. lia.
Qed.

Lemma round_robin_cycles_witness :
  exists picks rr',
    RoundRobin.select_many 6 RoundRobin.init ["b1"; "b2"; "b3"]%string
    = (Return picks, rr')
    /\ length picks = 6%nat
    /\ (forall j, (j < 6)%nat ->
          picks !! j
          = Some (["b1"; "b2"; "b3"]%string
                    !! Z.to_nat ((RoundRobin.current_index RoundRobin.init
                                  + Z.of_nat j)
                                 mod Z.of_nat
                                       (length ["b1"; "b2"; "b3"]%string))))
    /\ RoundRobin.current_index rr'
       = (RoundRobin.current_index RoundRobin.init + Z.of_nat 6)
           mod Z.of_nat (length ["b1"; "b2"; "b3"]%string).
Proof.
  apply (round_robin_cycles ["b1"; "b2"; "b3"]%string 6 RoundRobin.init).
  simpl. lia.
Defined.

(** ** Weighted round robin: registration and the weight table *)

Lemma foldl_gcd_greatest (l : list Z) :
  forall a d : Z,
    (d | a) -> (forall x, x ∈ l -> (d | x)) -> (d | foldl Z.gcd a l).
Proof.
  induction l as [| y l IH]; intros a d Ha Hl; simpl; [done |].
  apply IH.
  - apply Z.gcd_greatest; [done |]. apply Hl. by left.
  - intros x Hx. apply Hl. by right.
Qed.

Lemma weight_values_elem (m : gmap string Z) (x : Z) :
  x ∈ WeightedRoundRobin.weight_values m <-> exists b, m !! b = Some x.
Proof.
  unfold WeightedRoundRobin.weight_values. rewrite list_elem_of_fmap. split.
  - intros ([b w] & -> & Hin). exists b. by apply elem_of_map_to_list.
  - intros [b Hb]. exists (b, x). split; [done |].
    by apply elem_of_map_to_list.
Qed.

(** What [_recalculate_weights] computes on a non-empty table. *)
Lemma recalculate_extremal (st : WeightedRoundRobin.t) (b0 : string) (w0 : Z) :
  WeightedRoundRobin.backend_weights st !! b0 = Some w0 ->
  let st' := WeightedRoundRobin._recalculate_weights st in
  (forall b w, WeightedRoundRobin.backend_weights st !! b = Some w ->
     w <= WeightedRoundRobin.max_weight st'
     /\ (WeightedRoundRobin.gcd_weight st' | w))
  /\ (exists b, WeightedRoundRobin.backend_weights st !! b
                = Some (WeightedRoundRobin.max_weight st'))
  /\ (forall d,
        (forall b w, WeightedRoundRobin.backend_weights st !! b = Some w ->
           (d | w)) ->
        (d | WeightedRoundRobin.gcd_weight st')).
Proof.
  intros Hb0. unfold WeightedRoundRobin._recalculate_weights.
  pose proof (weight_values_elem (WeightedRoundRobin.backend_weights st))
    as Hvals.
  destruct (WeightedRoundRobin.weight_values
              (WeightedRoundRobin.backend_weights st)) as [| x rest] eqn:Hv.
  { exfalso. assert (Hin : w0 ∈ @nil Z) by (apply Hvals; by exists b0).
    by apply elem_of_nil in Hin. }
  simpl.
  destruct (foldl_max_spec rest x) as (Hmge & Hmall & Hmin).
  destruct (foldl_gcd_spec rest x) as (Hgdiv & Hgall & _).
  split; [| split].
  - intros b w Hb. assert (Hw : w ∈ x :: rest) by (apply Hvals; by exists b).
    apply elem_of_cons in Hw as [-> | Hw]; [done |].
    split; [by apply Hmall | by apply Hgall].
  - by apply Hvals.
  - intros d Hd. apply foldl_gcd_greatest.
    + assert (Hx : x ∈ x :: rest) by (by left).
      apply Hvals in Hx as [b Hb]. by eapply Hd.
    + intros y Hy. assert (Hy' : y ∈ x :: rest) by (by right).
      apply Hvals in Hy' as [b Hb]. by eapply Hd.
Qed.

(** [set_backend_weight] refuses a weight that is not positive with
    [ValueError] and changes nothing.  A positive weight is stored, and
    [max_weight] and [gcd_weight] are brought up to date: [max_weight] is
    the largest registered weight, [gcd_weight] divides every registered
    weight and is a multiple of every number that does; the position and
    the current weight of the rotation are not touched. *)
Theorem set_backend_weight_updates (st : WeightedRoundRobin.t) (b : string)
    (w : Z) :
  (w <= 0 ->
   WeightedRoundRobin.set_backend_weight st b w = (Raise ValueError, st))
  /\ (0 < w ->
      let st' := snd (WeightedRoundRobin.set_backend_weight st b w) in
      fst (WeightedRoundRobin.set_backend_weight st b w) = Return tt
      /\ WeightedRoundRobin.backend_weights st'
         = <[b := w]> (WeightedRoundRobin.backend_weights st)
      /\ (forall b' w', WeightedRoundRobin.backend_weights st' !! b' = Some w' ->
            w' <= WeightedRoundRobin.max_weight st'
            /\ (WeightedRoundRobin.gcd_weight st' | w'))
      /\ (exists b', WeightedRoundRobin.backend_weights st' !! b'
                     = Some (WeightedRoundRobin.max_weight st'))
      /\ (forall d,
            (forall b' w',
               WeightedRoundRobin.backend_weights st' !! b' = Some w' ->
               (d | w')) ->
            (d | WeightedRoundRobin.gcd_weight st'))
      /\ WeightedRoundRobin.current_index st'
         = WeightedRoundRobin.current_index st
      /\ WeightedRoundRobin.current_weight st'
         = WeightedRoundRobin.current_weight st).
Proof.
  unfold WeightedRoundRobin.set_backend_weight. split.
  - intros Hw. by replace (w <=? 0) with true by lia.
  - intros Hw. replace (w <=? 0) with false by lia. cbv zeta. simpl.
    match goal with
    | |- context [WeightedRoundRobin._recalculate_weights ?s] =>
        destruct (recalculate_fields s) as (Hm & Hi & Hc);
        pose proof (recalculate_extremal s b w) as Hext
    end.
    simpl in Hm, Hi, Hc, Hext. rewrite lookup_insert_eq in Hext.
    specialize (Hext eq_refl). destruct Hext as (Hall & Hmax & Hgr).
    rewrite Hm.
    split; [done |]. split; [done |]. split; [exact Hall |].
    split; [exact Hmax |]. split; [exact Hgr |]. by split.
Qed.

Lemma select_loop_fields (bs : list string) (fuel : nat) :
  forall (st : WeightedRoundRobin.t) r st',
    WeightedRoundRobin.select_loop fuel st bs = Some (r, st') ->
    WeightedRoundRobin.backend_weights st' = WeightedRoundRobin.backend_weights st
    /\ WeightedRoundRobin.max_weight st' = WeightedRoundRobin.max_weight st
    /\ WeightedRoundRobin.gcd_weight st' = WeightedRoundRobin.gcd_weight st.
Proof.
  induction fuel as [| fuel IH]; intros st r st' Hsel; [done |].
  rewrite select_loop_S in Hsel. cbv zeta in Hsel.
  destruct (_ && _); [by injection Hsel as _ <- |].
  destruct (py_index _ _) as [backend | e]; [| by injection Hsel as _ <-].
  destruct (_ <=? _); [by injection Hsel as _ <- |].
  by apply IH in Hsel.
Qed.

Lemma consistent_same_table (st st' : WeightedRoundRobin.t) :
  consistent st ->
  WeightedRoundRobin.backend_weights st' = WeightedRoundRobin.backend_weights st ->
  WeightedRoundRobin.max_weight st' = WeightedRoundRobin.max_weight st ->
  WeightedRoundRobin.gcd_weight st' = WeightedRoundRobin.gcd_weight st ->
  consistent st'.
Proof.
  destruct st as [i c mx g m], st' as [i' c' mx' g' m'].
  unfold consistent, WeightedRoundRobin._recalculate_weights. simpl.
  intros [Hpos Hrec] -> -> ->. split; [exact Hpos |].
  destruct (WeightedRoundRobin.weight_values m); by injection Hrec as -> ->.
Qed.

Lemma ensure_weights_lookup (bs : list string) (b : string) :
  forall st : WeightedRoundRobin.t,
    WeightedRoundRobin.backend_weights (WeightedRoundRobin.ensure_weights st bs)
      !! b
    = match WeightedRoundRobin.backend_weights st !! b with
      | Some w => Some w
      | None => if decide (b ∈ bs) then Some 1 else None
      end.
Proof.
  unfold WeightedRoundRobin.ensure_weights.
  induction bs as [| b0 bs IH]; intros st; simpl.
  - by destruct (_ !! b).
  - rewrite IH. unfold WeightedRoundRobin.ensure_weight.
    destruct (WeightedRoundRobin.backend_weights st !! b0) as [w0 |] eqn:Hb0.
    + destruct (WeightedRoundRobin.backend_weights st !! b) as [w |] eqn:Hb;
        [done |].
      destruct (decide (b ∈ bs)) as [Hin | Hnin].
      * rewrite decide_True; [done | by right].
      * rewrite decide_False; [done |].
        intros Hc. apply elem_of_cons in Hc as [-> | Hc]; [congruence | done].
    + unfold WeightedRoundRobin.set_backend_weight. simpl.
      match goal with
      | |- context [WeightedRoundRobin._recalculate_weights ?s] =>
          destruct (recalculate_fields s) as (Hm & _)
      end.
      rewrite Hm. simpl.
      destruct (decide (b0 = b)) as [-> | Hne].
      * rewrite lookup_insert_eq, Hb0. rewrite decide_True; [done | by left].
      * rewrite lookup_insert_ne by done.
        destruct (WeightedRoundRobin.backend_weights st !! b); [done |].
        destruct (decide (b ∈ bs)) as [Hin | Hnin].
        -- rewrite decide_True; [done | by right].
        -- rewrite decide_False; [done |].
           intros Hc. apply elem_of_cons in Hc as [-> | Hc]; done.
Qed.

(** A selection keeps the plugin's state well formed and never changes a
    registered weight; what it does change is the table itself: every
    backend of the list that had no weight is registered with weight 1,
    for good, and [gcd_weight] is then 1. *)
Theorem select_backend_registers_defaults (fuel : nat)
    (st : WeightedRoundRobin.t) (bs : list string)
    (r : outcome (option string)) (st' : WeightedRoundRobin.t) :
  consistent st ->
  WeightedRoundRobin.select_backend fuel st bs = Some (r, st') ->
  consistent st'
  /\ (forall b,
        WeightedRoundRobin.backend_weights st' !! b
        = match WeightedRoundRobin.backend_weights st !! b with
          | Some w => Some w
          | None => if decide (b ∈ bs) then Some 1 else None
          end)
  /\ ((exists b, b ∈ bs /\ WeightedRoundRobin.backend_weights st !! b = None) ->
      WeightedRoundRobin.gcd_weight st' = 1).
Proof.
  intros Hc Hsel.
  assert (Hfields :
    WeightedRoundRobin.backend_weights st'
    = WeightedRoundRobin.backend_weights (WeightedRoundRobin.ensure_weights st bs)
    /\ consistent st').
  { destruct bs as [| b0 rest] eqn:Hbs.
    - injection Hsel as _ <-. by split.
    - rewrite <- Hbs in *. rewrite select_backend_nonempty in Hsel
        by (rewrite Hbs; done).
      apply select_loop_fields in Hsel as (Hm & Hx & Hg).
      split; [exact Hm |].
      destruct (ensure_weights_spec bs st Hc) as (Hc1 & _).
      by apply (consistent_same_table _ _ Hc1). }
  destruct Hfields as [Hm Hc']. split; [exact Hc' |]. split.
  - intros b. rewrite Hm. apply ensure_weights_lookup.
  - intros (b & Hin & Hnone).
    assert (Hone : WeightedRoundRobin.backend_weights st' !! b = Some 1).
    { rewrite Hm, ensure_weights_lookup, Hnone. by rewrite decide_True. }
    assert (Hne : WeightedRoundRobin.backend_weights st' <> ∅).
    { intros He. rewrite He in Hone. by rewrite lookup_empty in Hone. }
    pose proof (recalculate_spec st' (proj1 Hc') Hne) as Hspec.
    simpl in Hspec. rewrite (proj2 Hc') in Hspec.
    destruct Hspec as (Hg & _ & _ & Hall).
    destruct (Hall b 1 Hone) as [_ Hdiv].
    apply Z.divide_1_r_nonneg in Hdiv; lia.
Qed.

Lemma select_backend_registers_defaults_witness :
  exists r st',
    WeightedRoundRobin.select_backend 5 WeightedRoundRobin.init
      ["b1"; "b2"]%string = Some (r, st')
    /\ consistent st'
    /\ WeightedRoundRobin.gcd_weight st' = 1.
Proof.
  eexists _, _. split; [reflexivity |].
  pose proof (select_backend_registers_defaults 5 WeightedRoundRobin.init
                ["b1"; "b2"]%string _ _ consistent_init eq_refl)
    as (Hc & _ & Hg).
  split; [exact Hc |]. apply Hg. exists "b1"%string. split; [by left | done].
Defined.

(** ** Sliding window *)

Lemma not_before_all (s : Q) (l : list Q) :
  Forall (fun y => (s <= y)%Q) l -> not_before s l = l.
Proof.
  unfold not_before. induction 1 as [| x l Hx _ IH]; [done |].
  cbn [List.filter]. apply Qle_bool_iff in Hx. by rewrite Hx, IH.
Qed.

Lemma not_before_snoc (s x : Q) (l : list Q) :
  (s <= x)%Q -> not_before s (l ++ [x]) = not_before s l ++ [x].
Proof.
  intros Hx. unfold not_before. rewrite List.filter_app. cbn [List.filter].
  apply Qle_bool_iff in Hx. by rewrite Hx.
Qed.

Lemma popleft_not_before (t s : Q) (l : list Q) :
  (t <= s)%Q -> nondecreasing l ->
  SlidingWindow.popleft_while s (not_before t l) = not_before s l.
Proof.
  intros Hts. induction l as [| x l IH]; intros Hsorted; [done |].
  destruct Hsorted as [Hx Hsorted]. specialize (IH Hsorted).
  unfold not_before in *. cbn [List.filter].
  destruct (Qle_bool t x) eqn:Htx; destruct (Qle_bool s x) eqn:Hsx.
  - cbn [SlidingWindow.popleft_while].
    apply Qle_bool_iff in Hsx.
    destruct (Qlt_le_dec x s) as [Hlt | _]; [lra |].
    f_equal.
    fold (not_before t l). fold (not_before s l).
    rewrite !not_before_all; [done | |].
    + eapply Forall_impl; [exact Hx |]. simpl. intros y Hy. lra.
    + eapply Forall_impl; [exact Hx |]. simpl. intros y Hy. lra.
  - cbn [SlidingWindow.popleft_while].
    destruct (Qlt_le_dec x s) as [_ | Hle]; [exact IH |].
    apply Qle_bool_iff in Hle. congruence.
  - apply Qle_bool_iff in Hsx.
    assert (Hn : ~ (t <= x)%Q) by (rewrite <- Qle_bool_iff; congruence).
    lra.
  - exact IH.
Qed.

Lemma nondecreasing_snoc (l : list Q) (x : Q) :
  nondecreasing l -> Forall (fun y => (y <= x)%Q) l -> nondecreasing (l ++ [x]).
Proof.
  induction l as [| y l IH]; intros Hs Hall; simpl; [by split |].
  destruct Hs as [Hy Hs]. apply Forall_cons in Hall as [Hyx Hall].
  split; [| by apply IH].
  apply Forall_app. split; [exact Hy |]. by apply Forall_singleton.
Qed.

Lemma popleft_while_length (s : Q) (l : list Q) :
  (length (SlidingWindow.popleft_while s l) <= length l)%nat.
Proof.
  induction l as [| x l IH]; simpl; [lia |].
  destruct (Qlt_le_dec x s); simpl; lia.
Qed.

Lemma clean_log_of (sw : SlidingWindow.t) (hist : list Q) (tc now : Q) :
  log_of sw hist tc -> (tc <= now)%Q ->
  SlidingWindow.request_times (SlidingWindow._clean_old_requests sw now)
  = not_before (now - SlidingWindow.window_size sw) hist.
Proof.
  intros (t & Ht & Hlog & Hsorted & _) Hnow. simpl. rewrite Hlog.
  apply popleft_not_before; [lra | exact Hsorted].
Qed.

Lemma sliding_allow_request_keeps
    (sw : SlidingWindow.t) (hist : list Q) (tc now now' : Q) :
  log_of sw hist tc -> log_bounded sw ->
  (0 <= SlidingWindow.window_size sw)%Q ->
  (tc <= now)%Q -> (now <= now')%Q ->
  let r := SlidingWindow.allow_request sw now now' in
  log_of (snd r) (hist ++ (if fst r then [now'] else [])) now'
  /\ log_bounded (snd r)
  /\ SlidingWindow.window_size (snd r) = SlidingWindow.window_size sw
  /\ SlidingWindow.max_requests (snd r) = SlidingWindow.max_requests sw.
Proof.
  intros Hlog Hb Hw Hnow Hnow' r.
  pose proof (clean_log_of sw hist tc now Hlog Hnow) as Hclean.
  destruct Hlog as (t & Ht & Hl & Hsorted & Hall).
  assert (Hlen : (length (SlidingWindow.request_times
                            (SlidingWindow._clean_old_requests sw now))
                  <= length (SlidingWindow.request_times sw))%nat)
    by apply popleft_while_length.
  subst r. unfold SlidingWindow.allow_request.
  set (sw1 := SlidingWindow._clean_old_requests sw now) in *.
  assert (Hw1 : SlidingWindow.window_size sw1 = SlidingWindow.window_size sw)
    by done.
  assert (Hm1 : SlidingWindow.max_requests sw1 = SlidingWindow.max_requests sw)
    by done.
  clearbody sw1. unfold log_bounded in *.
  destruct (Z.of_nat (length (SlidingWindow.request_times sw1))
            <? SlidingWindow.max_requests sw1) eqn:Hlt;
    cbn [fst snd SlidingWindow.request_times SlidingWindow.window_size
         SlidingWindow.max_requests].
  - apply Z.ltb_lt in Hlt.
    split; [| split; [rewrite length_app; simpl; lia | by split]].
    exists now. split; [exact Hnow' |].
    cbn [SlidingWindow.request_times SlidingWindow.window_size].
    rewrite Hw1, Hclean. split; [| split].
    + symmetry. apply not_before_snoc. lra.
    + apply nondecreasing_snoc; [exact Hsorted |].
      eapply Forall_impl; [exact Hall |]. simpl. intros y Hy. lra.
    + apply Forall_app. split; [| apply Forall_singleton; lra].
      eapply Forall_impl; [exact Hall |]. simpl. intros y Hy. lra.
  - split; [| split; [lia | by split]].
    exists now. split; [exact Hnow' |].
    cbn [SlidingWindow.request_times SlidingWindow.window_size].
    rewrite Hw1, Hclean, app_nil_r. split; [done |]. split; [exact Hsorted |].
    eapply Forall_impl; [exact Hall |]. simpl. intros y Hy. lra.
Qed.

Lemma sliding_allow_requests_keep (clock : list (Q * Q)) :
  forall (sw : SlidingWindow.t) (hist : list Q) (tc : Q),
    log_of sw hist tc -> log_bounded sw ->
    (0 <= SlidingWindow.window_size sw)%Q ->
    forward_clock tc clock ->
    let r := SlidingWindow.allow_requests sw clock in
    log_of (snd r) (hist ++ admitted_times (fst r) clock) (clock_end tc clock)
    /\ log_bounded (snd r)
    /\ SlidingWindow.window_size (snd r) = SlidingWindow.window_size sw
    /\ SlidingWindow.max_requests (snd r) = SlidingWindow.max_requests sw.
Proof.
  induction clock as [| [now now'] clock IH]; intros sw hist tc Hlog Hb Hw Hf.
  - simpl. rewrite app_nil_r. done.
  - destruct Hf as (Hnow & Hnow' & Hf).
    cbn [SlidingWindow.allow_requests clock_end].
    pose proof (sliding_allow_request_keeps sw hist tc now now'
                  Hlog Hb Hw Hnow Hnow') as Hstep.
    destruct (SlidingWindow.allow_request sw now now') as [r sw1].
    cbn [fst snd] in Hstep. destruct Hstep as (Hlog1 & Hb1 & Hw1 & Hm1).
    specialize (IH sw1 _ now' Hlog1 Hb1).
    rewrite Hw1 in IH. specialize (IH Hw Hf).
    destruct (SlidingWindow.allow_requests sw1 clock) as [rs sw2].
    cbn [fst snd admitted_times] in *.
    destruct IH as (Hlog2 & Hb2 & Hw2 & Hm2).
    rewrite <- app_assoc in Hlog2.
    split; [exact Hlog2 |]. split; [exact Hb2 |]. split; [done |]. congruence.
Qed.

(** What the sliding window keeps: after any run of [allow_request] calls
    on a new limiter, under a clock that does not go back, the rate that
    [get_current_rate] reports at a time [now] is the number of requests
    admitted with a stamp within the last second, and that number is at most
    the limit [int(requests_per_second)] (0 when the limit is negative). *)
Theorem current_rate_counts_recent_admissions
    (cfg : RateLimitConfig) (clock : list (Q * Q)) (t0 now : Q) :
  forward_clock t0 clock ->
  (clock_end t0 clock <= now)%Q ->
  let rs := fst (SlidingWindow.allow_requests (SlidingWindow.init cfg) clock) in
  let sw := snd (SlidingWindow.allow_requests (SlidingWindow.init cfg) clock) in
  let recent := not_before (now - 1) (admitted_times rs clock) in
  fst (SlidingWindow.get_current_rate sw now)
  = (inject_Z (Z.of_nat (length recent)) / 1)%Q
  /\ SlidingWindow.request_times (snd (SlidingWindow.get_current_rate sw now))
     = recent
  /\ Z.of_nat (length recent) <= Z.max 0 (py_int (requests_per_second cfg)).
Proof.
  intros Hf Hnow rs sw recent.
  assert (Hlog0 : log_of (SlidingWindow.init cfg) [] t0).
  { exists t0. split; [lra |]. split; [done |]. split; [done | constructor]. }
  assert (Hb0 : log_bounded (SlidingWindow.init cfg)).
  { unfold log_bounded. simpl. lia. }
  destruct (sliding_allow_requests_keep clock (SlidingWindow.init cfg) [] t0
              Hlog0 Hb0 ltac:(simpl; lra) Hf) as (Hlog & Hb & Hw & Hm).
  fold rs sw in Hlog, Hb, Hw, Hm. rewrite app_nil_l in Hlog.
  pose proof (clean_log_of sw _ _ now Hlog Hnow) as Hclean.
  rewrite Hw in Hclean. change (SlidingWindow.window_size _) with 1%Q in Hclean.
  fold recent in Hclean.
  assert (Hlen : (length (SlidingWindow.request_times
                            (SlidingWindow._clean_old_requests sw now))
                  <= length (SlidingWindow.request_times sw))%nat)
    by apply popleft_while_length.
  unfold SlidingWindow.get_current_rate. cbn [fst snd].
  rewrite Hclean in *.
  change (SlidingWindow.window_size
            (SlidingWindow._clean_old_requests sw now))
    with (SlidingWindow.window_size sw).
  rewrite Hw. split; [done |]. split; [done |].
  unfold log_bounded in Hb. rewrite Hm in Hb. simpl in Hb. lia.
Qed.

Lemma current_rate_counts_recent_admissions_witness :
  fst (SlidingWindow.get_current_rate
         (snd (SlidingWindow.allow_requests
                 (SlidingWindow.init
                    {| requests_per_second := 2; burst_size := 10 |})
                 [(0, 0); (1 # 2, 1 # 2); (1, 1); (7 # 4, 7 # 4)]%Q))
         2)
  = (inject_Z 1 / 1)%Q.
Proof.
  exact (proj1 (current_rate_counts_recent_admissions
                  {| requests_per_second := 2; burst_size := 10 |}
                  [(0, 0); (1 # 2, 1 # 2); (1, 1); (7 # 4, 7 # 4)]%Q 0 2
                  ltac:(simpl; repeat split; apply Qle_bool_iff; reflexivity)
                  ltac:(apply Qle_bool_iff; reflexivity))).
Defined.

(** ** Least connections: the whole interface *)

Lemma get_next_server_effect (st : LeastConnections.t) :
  LeastConnections.servers st <> [] ->
  exists s,
    fst (LeastConnections.get_next_server st) = Some s
    /\ first_least (LeastConnections.connections st)
         (LeastConnections.servers st) s
    /\ s ∈ LeastConnections.servers st
    /\ (forall x, x ∈ LeastConnections.servers st ->
          LeastConnections.count_of st s <= LeastConnections.count_of st x)
    /\ LeastConnections.servers (snd (LeastConnections.get_next_server st))
       = LeastConnections.servers st
    /\ (forall x,
          LeastConnections.count_of
            (snd (LeastConnections.get_next_server st)) x
          = LeastConnections.count_of st x
            + (if decide (x = s)
               then (if str_truthy s then 1 else 0) else 0)).
Proof.
  intros Hne. unfold LeastConnections.get_next_server.
  destruct (LeastConnections.servers st) as [| a l] eqn:Hsv; [done |].
  rewrite <- Hsv in *.
  destruct (scan_spec (LeastConnections.connections st)
              (LeastConnections.servers st) []
              (LeastConnections.connections st) None) as [Hinv Hcnt];
    [done | done |].
  simpl in Hinv.
  destruct (LeastConnections.scan (LeastConnections.servers st)
              (LeastConnections.connections st) None) as [best conns1].
  simpl in Hinv, Hcnt.
  destruct best as [[m s] |]; simpl in Hinv; [| by rewrite Hsv in Hinv].
  destruct Hinv as [-> Hfirst].
  exists s. cbn [fst snd LeastConnections.servers].
  split; [done |]. split; [exact Hfirst |].
  destruct Hfirst as (l1 & l2 & Heq & Hl1 & Hl2).
  split; [rewrite Heq; set_solver |]. split.
  { intros x Hx. rewrite Heq in Hx. rewrite Forall_forall in Hl1, Hl2.
    unfold LeastConnections.count_of.
    fold (cnt (LeastConnections.connections st) s).
    fold (cnt (LeastConnections.connections st) x).
    apply elem_of_app in Hx as [Hx | Hx].
    - specialize (Hl1 x Hx). simpl in Hl1. lia.
    - apply elem_of_cons in Hx as [-> | Hx]; [lia |].
      by apply Hl2. }
  split; [done |].
  intros x. unfold LeastConnections.count_of.
  cbn [LeastConnections.connections].
  fold (cnt (LeastConnections.connections st) x).
  destruct (str_truthy s).
  - destruct (decide (x = s)) as [-> | Hxs].
    + rewrite lookup_insert_eq, read_count_fst, Hcnt. reflexivity.
    + rewrite lookup_insert_ne by done.
      fold (cnt conns1 x). rewrite Hcnt. lia.
  - fold (cnt conns1 x). rewrite Hcnt. destruct (decide (x = s)); lia.
Qed.

Lemma get_next_server_empty (st : LeastConnections.t) :
  LeastConnections.servers st = [] ->
  LeastConnections.get_next_server st = (None, st).
Proof. intros H. unfold LeastConnections.get_next_server. by rewrite H. Qed.

Lemma get_next_server_balanced (st : LeastConnections.t) :
  balanced st -> balanced (snd (LeastConnections.get_next_server st)).
Proof.
  intros Hb.
  destruct (LeastConnections.servers st) as [| a0 l0] eqn:Hsv.
  - by rewrite get_next_server_empty.
  - destruct (get_next_server_effect st) as (s & _ & _ & Hs & Hmin & Hsrv & Hcnt);
      [by rewrite Hsv |].
    intros a b. rewrite Hsrv. intros Ha Hb'.
    rewrite !Hcnt.
    pose proof (Hmin a Ha). pose proof (Hmin b Hb').
    pose proof (Hb a s Ha Hs). pose proof (Hb b s Hb' Hs).
    pose proof (Hb a b Ha Hb').
    destruct (decide (a = s)) as [-> |], (decide (b = s)) as [-> |],
      (str_truthy s); lia.
Qed.

(** Requests that are never released are spread evenly: after any number
    of [get_next_server] calls on a new balancer, no two servers of the list
    differ by more than one connection. *)
Theorem get_next_server_spreads_evenly
    (l : list string) (st : LeastConnections.t) (n : nat) :
  LeastConnections.init l = Return st ->
  balanced
    (Nat.iter n (fun s => snd (LeastConnections.get_next_server s)) st).
Proof.
  intros Hinit.
  assert (Hst : st = {| LeastConnections.servers := l;
                        LeastConnections.connections := ∅ |}).
  { destruct l; [done |]. by injection Hinit as <-. }
  induction n as [| n IH].
  - simpl. subst st. intros a b _ _. unfold LeastConnections.count_of. simpl.
    rewrite !lookup_empty. simpl. lia.
  - cbn [Nat.iter]. by apply get_next_server_balanced.
Qed.

Lemma get_next_server_spreads_evenly_witness :
  balanced
    (Nat.iter 5 (fun s => snd (LeastConnections.get_next_server s))
       {| LeastConnections.servers := ["s1"; "s2"; "s3"]%string;
          LeastConnections.connections := ∅ |}).
Proof.
  exact (get_next_server_spreads_evenly ["s1"; "s2"; "s3"]%string _ 5 eq_refl).
Defined.

Lemma release_connection_count (st : LeastConnections.t) (server x : string) :
  LeastConnections.count_of (LeastConnections.release_connection st server) x
  = if decide (x = server)
    then (if 0 <? LeastConnections.count_of st x
          then LeastConnections.count_of st x - 1
          else LeastConnections.count_of st x)
    else LeastConnections.count_of st x.
Proof.
  destruct (decide (x = server)) as [-> | Hne]; [| by apply release_other].
  unfold LeastConnections.count_of, LeastConnections.release_connection.
  destruct (LeastConnections.connections st !! server) as [c |] eqn:Hc;
    simpl; [| by rewrite Hc].
  destruct (0 <? c); simpl.
  - by rewrite lookup_insert_eq.
  - by rewrite Hc.
Qed.

(** A selection followed by the release of the selected server leaves
    every count as it was, provided the server addresses are non-empty
    strings. *)
Theorem select_then_release_restores (st : LeastConnections.t) :
  LeastConnections.servers st <> [] ->
  Forall (fun s => str_truthy s = true) (LeastConnections.servers st) ->
  counts_nonneg st ->
  exists s,
    fst (LeastConnections.get_next_server st) = Some s
    /\ forall x,
         LeastConnections.count_of
           (LeastConnections.release_connection
              (snd (LeastConnections.get_next_server st)) s) x
         = LeastConnections.count_of st x.
Proof.
  intros Hne Hnames Hnn.
  destruct (get_next_server_effect st Hne) as (s & Hres & _ & Hs & _ & _ & Hcnt).
  exists s. split; [exact Hres |]. intros x.
  rewrite release_connection_count, !Hcnt.
  rewrite Forall_forall in Hnames. rewrite (Hnames s Hs).
  pose proof (Hnn x).
  destruct (decide (x = s)); [| lia].
  destruct (0 <? _) eqn:Hpos; [lia |]. apply Z.ltb_ge in Hpos. lia.
Qed.

Lemma select_then_release_restores_witness :
  exists s,
    fst (LeastConnections.get_next_server lc_example) = Some s
    /\ forall x,
         LeastConnections.count_of
           (LeastConnections.release_connection
              (snd (LeastConnections.get_next_server lc_example)) s) x
         = LeastConnections.count_of lc_example x.
Proof.
  apply (select_then_release_restores lc_example).
  - discriminate.
  - repeat constructor.
  - intros x. unfold LeastConnections.count_of, lc_example. simpl.
    destruct (decide (x = "s1"%string)) as [-> | H1];
      [by rewrite lookup_insert_eq |].
    rewrite lookup_insert_ne by done.
    destruct (decide (x = "s2"%string)) as [-> | H2];
      [by rewrite lookup_insert_eq |].
    rewrite lookup_insert_ne by done.
    destruct (decide (x = "s3"%string)) as [-> | H3];
      [by rewrite lookup_insert_eq |].
    rewrite lookup_insert_ne by done. by rewrite lookup_empty.
Defined.

Lemma add_server_count (st : LeastConnections.t) (server x : string) :
  LeastConnections.count_of (LeastConnections.add_server st server) x
  = if decide (x = server /\ server ∉ LeastConnections.servers st)
    then 0 else LeastConnections.count_of st x.
Proof.
  unfold LeastConnections.add_server, LeastConnections.count_of.
  destruct (bool_decide (server ∈ LeastConnections.servers st)) eqn:Hin.
  - apply bool_decide_eq_true in Hin. rewrite decide_False; [done | tauto].
  - apply bool_decide_eq_false in Hin. simpl.
    destruct (decide (x = server)) as [-> | Hne].
    + rewrite lookup_insert_eq. by rewrite decide_True.
    + rewrite lookup_insert_ne by done. rewrite decide_False; [done | tauto].
Qed.

Lemma remove_server_count (st : LeastConnections.t) (server x : string) :
  LeastConnections.count_of (snd (LeastConnections.remove_server st server)) x
  = if decide (x = server /\ server ∈ LeastConnections.servers st)
    then 0 else LeastConnections.count_of st x.
Proof.
  unfold LeastConnections.remove_server, LeastConnections.count_of.
  destruct (bool_decide (server ∈ LeastConnections.servers st)) eqn:Hin.
  - apply bool_decide_eq_true in Hin. simpl.
    destruct (decide (x = server)) as [-> | Hne].
    + rewrite lookup_delete_eq. by rewrite decide_True.
    + rewrite lookup_delete_ne by done. rewrite decide_False; [done | tauto].
  - apply bool_decide_eq_false in Hin. rewrite decide_False; [done | tauto].
Qed.

Lemma foldl_zero_lookup (l : list string) :
  forall (m : gmap string Z) (x : string),
    foldl (fun conns server => <[server := 0]> conns) m l !! x
    = if decide (x ∈ l) then Some 0 else m !! x.
Proof.
  induction l as [| y l IH]; intros m x; cbn [foldl].
  - rewrite decide_False; [done | apply not_elem_of_nil].
  - rewrite IH. destruct (decide (x ∈ l)) as [Hin | Hnin].
    + rewrite decide_True; [done | by right].
    + destruct (decide (x = y)) as [-> | Hne].
      * rewrite lookup_insert_eq. rewrite decide_True; [done | by left].
      * rewrite lookup_insert_ne by done.
        rewrite decide_False; [done |].
        intros Hc. apply elem_of_cons in Hc as [? | ?]; done.
Qed.

Lemma reset_connections_count (st : LeastConnections.t) (x : string) :
  LeastConnections.count_of (LeastConnections.reset_connections st) x
  = if decide (x ∈ LeastConnections.servers st)
    then 0 else LeastConnections.count_of st x.
Proof.
  unfold LeastConnections.reset_connections, LeastConnections.count_of.
  cbn [LeastConnections.connections]. rewrite foldl_zero_lookup.
  by destruct (decide _).
Qed.

Lemma step_counts_nonneg (st : LeastConnections.t) (o : LeastConnections.op) :
  counts_nonneg st -> counts_nonneg (LeastConnections.step st o).
Proof.
  intros Hnn x. pose proof (Hnn x) as Hx.
  destruct o as [| server | server | server |]; cbn [LeastConnections.step].
  - destruct (LeastConnections.servers st) as [| a l] eqn:Hsv.
    + by rewrite get_next_server_empty.
    + destruct (get_next_server_effect st)
        as (s & _ & _ & _ & _ & _ & Hcnt); [by rewrite Hsv |].
      rewrite Hcnt. destruct (decide (x = s)), (str_truthy s); lia.
  - rewrite release_connection_count.
    destruct (decide (x = server)); [| done].
    destruct (0 <? _) eqn:Hpos; [apply Z.ltb_lt in Hpos; lia | done].
  - rewrite add_server_count. by destruct (decide _).
  - rewrite remove_server_count. by destruct (decide _).
  - rewrite reset_connections_count. by destruct (decide _).
Qed.

(** No connection count is ever negative: after any sequence of
    selections, releases, server additions and removals and resets on a new
    balancer, every count is at least 0; a release of a server whose count
    is 0, or that is unknown, changes nothing. *)
Theorem connection_counts_never_negative
    (l : list string) (st : LeastConnections.t)
    (ops : list LeastConnections.op) :
  LeastConnections.init l = Return st ->
  counts_nonneg (LeastConnections.run st ops)
  /\ forall server,
       LeastConnections.count_of (LeastConnections.run st ops) server = 0 ->
       LeastConnections.release_connection (LeastConnections.run st ops) server
       = LeastConnections.run st ops.
Proof.
  intros Hinit.
  assert (Hnn0 : counts_nonneg st).
  { destruct l; [done |]. injection Hinit as <-.
    intros x. unfold LeastConnections.count_of. simpl.
    by rewrite lookup_empty. }
  split.
  - clear Hinit. unfold LeastConnections.run.
    revert st Hnn0. induction ops as [| o ops IH]; intros st Hnn0; [done |].
    cbn [foldl]. apply IH. by apply step_counts_nonneg.
  - intros server. generalize (LeastConnections.run st ops). intros st1.
    unfold LeastConnections.count_of, LeastConnections.release_connection.
    destruct (LeastConnections.connections st1 !! server) as [c |]; [| done].
    simpl. intros ->. done.
Qed.

Lemma connection_counts_never_negative_witness :
  counts_nonneg
    (LeastConnections.run
       {| LeastConnections.servers := ["s1"; "s2"]%string;
          LeastConnections.connections := ∅ |}
       [LeastConnections.Release "s1"; LeastConnections.GetNext;
        LeastConnections.RemoveServer "s1"; LeastConnections.Release "s1";
        LeastConnections.AddServer "s3"; LeastConnections.ResetConnections]).
Proof.
  exact (proj1 (connection_counts_never_negative ["s1"; "s2"]%string _ _
                  eq_refl)).
Defined.

Lemma first_least_all_equal (conns : gmap string Z) (a s : string)
    (l : list string) :
  (forall x, x ∈ a :: l -> cnt conns x = 0) ->
  first_least conns (a :: l) s -> s = a.
Proof.
  intros Hzero (l1 & l2 & Heq & Hl1 & _).
  destruct l1 as [| b l1]; [by injection Heq as -> |].
  injection Heq as <- Hl. apply Forall_cons in Hl1 as [Hlt _].
  rewrite (Hzero a) in Hlt by (by left).
  rewrite (Hzero s) in Hlt; [lia |].
  right. rewrite Hl. set_solver.
Qed.

(** [reset_connections] sets the count of every server of the list to 0
    and leaves the counts of other servers alone; the selection that follows
    a reset returns the first server of the list. *)
Theorem reset_then_first_server
    (st : LeastConnections.t) (a : string) (l : list string) :
  LeastConnections.servers st = a :: l ->
  (forall x,
     LeastConnections.count_of (LeastConnections.reset_connections st) x
     = if decide (x ∈ a :: l) then 0 else LeastConnections.count_of st x)
  /\ fst (LeastConnections.get_next_server
            (LeastConnections.reset_connections st)) = Some a.
Proof.
  intros Hsv. split.
  - intros x. rewrite reset_connections_count. by rewrite Hsv.
  - destruct (get_next_server_effect (LeastConnections.reset_connections st))
      as (s & Hres & Hfirst & _); [simpl; by rewrite Hsv |].
    rewrite Hres. f_equal.
    cbn [LeastConnections.servers LeastConnections.reset_connections] in Hfirst.
    rewrite Hsv in Hfirst.
    apply (first_least_all_equal _ a s l) in Hfirst; [done |].
    intros x Hx.
    pose proof (reset_connections_count st x) as Hc.
    rewrite Hsv, decide_True in Hc by done. exact Hc.
Qed.

Lemma reset_then_first_server_witness :
  fst (LeastConnections.get_next_server
         (LeastConnections.reset_connections lc_example)) = Some "s1"%string.
Proof.
  exact (proj2 (reset_then_first_server lc_example "s1"%string
                  ["s2"; "s3"]%string eq_refl)).
Defined.

Lemma occurrences_cons (x y : string) (l : list string) :
  occurrences x (y :: l)
  = ((if decide (y = x) then 1 else 0) + occurrences x l)%nat.
Proof.
  unfold occurrences. rewrite filter_cons. by destruct (decide (y = x)).
Qed.

Lemma occurrences_app (x : string) (l1 l2 : list string) :
  occurrences x (l1 ++ l2) = (occurrences x l1 + occurrences x l2)%nat.
Proof. unfold occurrences. by rewrite filter_app, length_app. Qed.

Lemma occurrences_pos (x : string) (l : list string) :
  x ∈ l <-> (0 < occurrences x l)%nat.
Proof.
  induction l as [| y l IH].
  - split; [intros H; by apply elem_of_nil in H | unfold occurrences; simpl; lia].
  - rewrite occurrences_cons, elem_of_cons.
    destruct (decide (y = x)) as [-> | Hne].
    + split; [lia | by left].
    + rewrite IH. split; [intros [-> | H]; [done | lia] | intros H; right; lia].
Qed.

Lemma occurrences_NoDup (x : string) (l : list string) :
  NoDup l -> (occurrences x l <= 1)%nat.
Proof.
  induction 1 as [| y l Hy _ IH]; [unfold occurrences; simpl; lia |].
  rewrite occurrences_cons. destruct (decide (y = x)) as [-> | _]; [| lia].
  apply (not_iff_compat (occurrences_pos x l)) in Hy. lia.
Qed.

Lemma list_remove_occurrences (s x : string) (l : list string) :
  occurrences x (LeastConnections.list_remove s l)
  = (occurrences x l - (if decide (x = s) then 1 else 0))%nat.
Proof.
  induction l as [| y l IH]; [unfold occurrences; simpl; lia |].
  cbn [LeastConnections.list_remove].
  destruct (decide (y = s)) as [-> | Hys].
  - rewrite occurrences_cons.
    destruct (decide (s = x)) as [-> | Hsx].
    + rewrite decide_True by done. lia.
    + rewrite decide_False by done. lia.
  - rewrite !occurrences_cons, IH.
    destruct (decide (y = x)) as [-> | Hyx]; [| lia].
    rewrite decide_False by done. lia.
Qed.

Lemma list_remove_snoc (s : string) (l : list string) :
  s ∉ l -> LeastConnections.list_remove s (l ++ [s]) = l.
Proof.
  induction l as [| y l IH]; intros Hs; simpl.
  - by rewrite decide_True.
  - apply not_elem_of_cons in Hs as [Hne Hs].
    rewrite decide_False by done. by rewrite IH.
Qed.

(** [remove_server] answers whether the server was in the list and takes
    out one occurrence of it, the first, with its count; a server listed
    once is gone afterwards, while a server that was listed twice is still
    in the list, with a count of 0. *)
Theorem remove_server_takes_one_occurrence
    (st : LeastConnections.t) (server : string) :
  let r := LeastConnections.remove_server st server in
  (fst r = true <-> server ∈ LeastConnections.servers st)
  /\ (forall x,
        occurrences x (LeastConnections.servers (snd r))
        = (occurrences x (LeastConnections.servers st)
           - (if decide (x = server) then 1 else 0))%nat)
  /\ (forall x,
        LeastConnections.count_of (snd r) x
        = if decide (x = server /\ server ∈ LeastConnections.servers st)
          then 0 else LeastConnections.count_of st x)
  /\ (server ∉ LeastConnections.servers st -> snd r = st)
  /\ (NoDup (LeastConnections.servers st) ->
      server ∉ LeastConnections.servers (snd r))
  /\ ((2 <= occurrences server (LeastConnections.servers st))%nat ->
      server ∈ LeastConnections.servers (snd r)).
Proof.
  intros r.
  assert (Hocc : forall x,
            occurrences x (LeastConnections.servers (snd r))
            = (occurrences x (LeastConnections.servers st)
               - (if decide (x = server) then 1 else 0))%nat).
  { intros x. subst r. unfold LeastConnections.remove_server.
    destruct (bool_decide (server ∈ LeastConnections.servers st)) eqn:Hin.
    - cbn [snd LeastConnections.servers]. apply list_remove_occurrences.
    - apply bool_decide_eq_false in Hin. cbn [snd].
      destruct (decide (x = server)) as [-> | _]; [| lia].
      apply (not_iff_compat (occurrences_pos server _)) in Hin. lia. }
  split; [| split; [exact Hocc | split; [| split; [| split]]]].
  - subst r. unfold LeastConnections.remove_server.
    destruct (bool_decide (server ∈ LeastConnections.servers st)) eqn:Hin.
    + apply bool_decide_eq_true in Hin. by split.
    + apply bool_decide_eq_false in Hin. by split.
  - intros x. apply remove_server_count.
  - intros Hnin. subst r. unfold LeastConnections.remove_server.
    by rewrite bool_decide_eq_false_2.
  - intros Hnd Hin. apply occurrences_pos in Hin.
    rewrite Hocc, decide_True in Hin by done.
    pose proof (occurrences_NoDup server _ Hnd). lia.
  - intros Htwice. apply occurrences_pos.
    rewrite Hocc, decide_True by done. lia.
Qed.

(** [add_server] appends a server that is not in the list, with a count of
    0, and does nothing for one that is, so it never makes a duplicate and
    a second call changes nothing; removing a server just added gives the
    list back. *)
Theorem add_server_appends_once (st : LeastConnections.t) (server : string) :
  let st' := LeastConnections.add_server st server in
  server ∈ LeastConnections.servers st'
  /\ (forall x,
        occurrences x (LeastConnections.servers st')
        = if decide (x = server)
          then Nat.max 1 (occurrences x (LeastConnections.servers st))
          else occurrences x (LeastConnections.servers st))
  /\ (forall x,
        LeastConnections.count_of st' x
        = if decide (x = server /\ server ∉ LeastConnections.servers st)
          then 0 else LeastConnections.count_of st x)
  /\ LeastConnections.add_server st' server = st'
  /\ (server ∉ LeastConnections.servers st ->
      fst (LeastConnections.remove_server st' server) = true
      /\ LeastConnections.servers
           (snd (LeastConnections.remove_server st' server))
         = LeastConnections.servers st).
Proof.
  intros st'.
  assert (Hin' : server ∈ LeastConnections.servers st').
  { subst st'. unfold LeastConnections.add_server.
    destruct (bool_decide (server ∈ LeastConnections.servers st)) eqn:Hin.
    - by apply bool_decide_eq_true in Hin.
    - simpl. set_solver. }
  split; [exact Hin' |]. split; [| split; [| split]].
  - intros x. subst st'. unfold LeastConnections.add_server.
    destruct (bool_decide (server ∈ LeastConnections.servers st)) eqn:Hin.
    + apply bool_decide_eq_true in Hin.
      destruct (decide (x = server)) as [-> | _]; [| done].
      apply occurrences_pos in Hin. lia.
    + apply bool_decide_eq_false in Hin.
      cbn [LeastConnections.servers].
      rewrite occurrences_app, occurrences_cons.
      change (occurrences x []) with 0%nat.
      destruct (decide (x = server)) as [-> | Hne].
      * rewrite decide_True by done.
        apply (not_iff_compat (occurrences_pos server _)) in Hin. lia.
      * rewrite decide_False by done. lia.
  - intros x. apply add_server_count.
  - unfold LeastConnections.add_server at 1.
    by rewrite bool_decide_eq_true_2.
  - intros Hnin. unfold LeastConnections.remove_server.
    rewrite bool_decide_eq_true_2 by done. cbn [fst snd]. split; [done |].
    subst st'. unfold LeastConnections.add_server.
    rewrite bool_decide_eq_false_2 by done. cbn [LeastConnections.servers].
    by apply list_remove_snoc.
Qed.

(** ** IP hash: the whole interface *)

Lemma select_backend_cases (md5_int : string -> Z) (st : IPHash.t)
    (backends : list string) (client_ip : string) :
  backends <> [] ->
  str_truthy client_ip = true ->
  (exists b,
     IPHash.backend_cache st !! client_ip = Some b /\ b ∈ backends
     /\ IPHash.select_backend md5_int st backends client_ip
        = (Return (Some b),
           {| IPHash.backend_cache := IPHash.backend_cache st;
              IPHash.stats :=
                {| IPHash.total_requests :=
                     IPHash.total_requests (IPHash.stats st) + 1;
                   IPHash.cache_hits := IPHash.cache_hits (IPHash.stats st) + 1;
                   IPHash.unique_clients :=
                     IPHash.unique_clients (IPHash.stats st) |} |}))
  \/ (exists b,
        (forall c, IPHash.backend_cache st !! client_ip = Some c ->
                   c ∉ backends)
        /\ backends
             !! Z.to_nat (md5_int client_ip mod Z.of_nat (length backends))
           = Some b
        /\ IPHash.select_backend md5_int st backends client_ip
           = (Return (Some b),
              {| IPHash.backend_cache :=
                   <[client_ip := b]> (IPHash.backend_cache st);
                 IPHash.stats :=
                   {| IPHash.total_requests :=
                        IPHash.total_requests (IPHash.stats st) + 1;
                      IPHash.cache_hits := IPHash.cache_hits (IPHash.stats st);
                      IPHash.unique_clients :=
                        IPHash.unique_clients (IPHash.stats st) + 1 |} |})).
Proof.
  intros Hne Hip.
  destruct (py_index_in_range backends
              (md5_int client_ip mod Z.of_nat (length backends)))
    as (b & Hb & Hidx).
  { apply Z.mod_pos_bound. destruct backends; [done | simpl; lia]. }
  unfold IPHash.select_backend.
  destruct backends as [| first rest] eqn:Hbs; [done |]. rewrite <- Hbs in *.
  rewrite Hip. cbn [negb]. cbv zeta.
  destruct (IPHash.backend_cache st !! client_ip) as [c |] eqn:Hc.
  - destruct (bool_decide (c ∈ backends)) eqn:Hin.
    + apply bool_decide_eq_true in Hin. left. exists c. by repeat split.
    + apply bool_decide_eq_false in Hin. right. exists b.
      split; [by intros c' [= <-] |]. split; [exact Hb |].
      unfold IPHash._hash_ip. rewrite Hidx, lookup_delete_eq.
      by rewrite insert_delete_eq.
  - right. exists b. split; [done |]. split; [exact Hb |].
    unfold IPHash._hash_ip. by rewrite Hidx, Hc.
Qed.

Lemma select_backend_no_client (md5_int : string -> Z) (st : IPHash.t)
    (backends : list string) (client_ip : string) :
  str_truthy client_ip = false ->
  IPHash.select_backend md5_int st backends client_ip
  = (Return (head backends), st).
Proof.
  intros Hip. unfold IPHash.select_backend.
  destruct backends; [done |]. by rewrite Hip.
Qed.

(** For every client id that [encode('utf-8')] accepts, so that it has a
    digest, the index that [_hash_ip] computes lies inside the list and
    [select_backend] does not raise: without backends it returns [None],
    and otherwise a backend of the list; without a client id it returns the
    first backend and records nothing; and a call for one client never
    changes what the cache holds for another. *)
Theorem select_backend_total_and_local (md5_int : string -> Z)
    (st : IPHash.t) (backends : list string) (client_ip : string) :
  let r := IPHash.select_backend md5_int st backends client_ip in
  (backends = [] -> r = (Return None, st))
  /\ (backends <> [] -> exists b, fst r = Return (Some b) /\ b ∈ backends)
  /\ (client_ip = ""%string -> r = (Return (head backends), st))
  /\ (forall c, c <> client_ip ->
        IPHash.backend_cache (snd r) !! c = IPHash.backend_cache st !! c).
Proof.
  intros r. subst r.
  split; [by intros -> |]. split; [| split].
  - intros Hne. destruct (str_truthy client_ip) eqn:Hip.
    + destruct (select_backend_cases md5_int st backends client_ip Hne Hip)
        as [(b & _ & Hin & ->) | (b & _ & Hb & ->)]; exists b.
      * by split.
      * split; [done |]. by eapply list_elem_of_lookup_2.
    + rewrite select_backend_no_client by done.
      destruct backends as [| first rest]; [done |].
      exists first. split; [done | by left].
  - intros ->. by apply select_backend_no_client.
  - intros c Hc. destruct backends as [| first rest] eqn:Hbs; [done |].
    rewrite <- Hbs. assert (Hne : backends <> []) by (by rewrite Hbs).
    destruct (str_truthy client_ip) eqn:Hip.
    + destruct (select_backend_cases md5_int st backends client_ip Hne Hip)
        as [(b & _ & _ & ->) | (b & _ & _ & ->)]; [done |].
      cbn [snd IPHash.backend_cache]. by rewrite lookup_insert_ne.
    + by rewrite select_backend_no_client.
Qed.

Lemma foldl_delete_size (ks : list string) :
  forall m : gmap string string,
    (size (foldl (fun cache ip => delete ip cache) m ks) <= size m)%nat.
Proof.
  induction ks as [| k ks IH]; intros m; cbn [foldl]; [lia |].
  etransitivity; [apply IH |].
  rewrite map_size_delete. destruct (m !! k); simpl; lia.
Qed.

Lemma ip_hash_step_ok (md5_int : string -> Z) (st : IPHash.t)
    (o : IPHash.op) :
  ip_stats_ok st -> ip_stats_ok (IPHash.step md5_int st o).
Proof.
  intros (Hsize & Hhits & Htotal).
  destruct o as [backends client_ip | backend_id |]; cbn [IPHash.step].
  - destruct backends as [| first rest] eqn:Hbs; [done |].
    rewrite <- Hbs. assert (Hne : backends <> []) by (by rewrite Hbs).
    destruct (str_truthy client_ip) eqn:Hip.
    + destruct (select_backend_cases md5_int st backends client_ip Hne Hip)
        as [(b & _ & _ & ->) | (b & _ & _ & ->)];
        unfold ip_stats_ok; cbn [snd IPHash.backend_cache IPHash.stats
          IPHash.total_requests IPHash.cache_hits IPHash.unique_clients].
      * lia.
      * rewrite map_size_insert.
        destruct (IPHash.backend_cache st !! client_ip); simpl; lia.
    + rewrite select_backend_no_client by done. done.
  - unfold ip_stats_ok, IPHash.remove_backend.
    cbn [IPHash.backend_cache IPHash.stats].
    pose proof (foldl_delete_size
                  (IPHash.clients_to_remove (IPHash.backend_cache st)
                     backend_id) (IPHash.backend_cache st)).
    lia.
  - unfold ip_stats_ok, IPHash.clear_cache. simpl.
    rewrite map_size_empty. lia.
Qed.

(** The counters of the plugin stay consistent with its cache over any
    sequence of selections, backend removals and cache clearings on a new
    plugin: the cache never holds more clients than [unique_clients] says,
    and [cache_hits] never exceeds [total_requests]. *)
Theorem unique_clients_bounds_cache (md5_int : string -> Z)
    (ops : list IPHash.op) :
  ip_stats_ok (IPHash.run md5_int IPHash.init ops).
Proof.
  assert (H0 : ip_stats_ok IPHash.init).
  { unfold ip_stats_ok. simpl. rewrite map_size_empty. lia. }
  unfold IPHash.run. revert H0. generalize IPHash.init.
  induction ops as [| o ops IH]; intros st Hok; [done |].
  cbn [foldl]. apply IH. by apply ip_hash_step_ok.
Qed.

(** The bound is not tight: a client whose cached backend has left the
    list is mapped again and counted as a unique client a second time,
    though the cache holds as many clients as before. *)
Theorem stale_client_counted_again (md5_int : string -> Z) (st : IPHash.t)
    (backends : list string) (client_ip c : string) :
  backends <> [] ->
  client_ip <> ""%string ->
  IPHash.backend_cache st !! client_ip = Some c ->
  c ∉ backends ->
  let st' := snd (IPHash.select_backend md5_int st backends client_ip) in
  IPHash.unique_clients (IPHash.stats st')
  = IPHash.unique_clients (IPHash.stats st) + 1
  /\ size (IPHash.backend_cache st') = size (IPHash.backend_cache st)
  /\ IPHash.cache_hits (IPHash.stats st') = IPHash.cache_hits (IPHash.stats st).
Proof.
  intros Hne Hip Hc Hstale st'. apply str_truthy_true in Hip.
  subst st'.
  destruct (select_backend_cases md5_int st backends client_ip Hne Hip)
    as [(b & Hb & Hin & _) | (b & _ & _ & ->)]; [congruence |].
  cbn [snd IPHash.backend_cache IPHash.stats IPHash.unique_clients
       IPHash.cache_hits].
  split; [done |]. split; [| done].
  by rewrite map_size_insert, Hc.
Qed.

Lemma stale_client_counted_again_witness :
  IPHash.unique_clients
    (IPHash.stats
       (snd (IPHash.select_backend toy_digest ip_hash_after_b1
               ["b2"%string] "10.0.0.7")))
  = IPHash.unique_clients (IPHash.stats ip_hash_after_b1) + 1.
Proof.
  refine (proj1 (stale_client_counted_again toy_digest ip_hash_after_b1
                   ["b2"%string] "10.0.0.7" "b1" _ _ _ _)).
  - discriminate.
  - discriminate.
  - reflexivity.
  - apply (bool_decide_unpack _). reflexivity.
Defined.

(** After [remove_backend b0] a client that was mapped to [b0], and after
    [clear_cache] every client, is mapped afresh by its hash on the next
    selection, to the backend at position [md5(client) mod len], even when
    [b0] is still in the list. *)
Theorem rehash_after_invalidation (md5_int : string -> Z) (st : IPHash.t)
    (backends : list string) (client_ip : string) :
  backends <> [] ->
  client_ip <> ""%string ->
  exists b,
    backends !! Z.to_nat (md5_int client_ip mod Z.of_nat (length backends))
    = Some b
    /\ fst (IPHash.select_backend md5_int (IPHash.clear_cache st)
              backends client_ip) = Return (Some b)
    /\ forall b0,
         IPHash.backend_cache st !! client_ip = Some b0 ->
         fst (IPHash.select_backend md5_int (IPHash.remove_backend st b0)
                backends client_ip) = Return (Some b).
Proof.
  intros Hne Hip. apply str_truthy_true in Hip.
  destruct (py_index_in_range backends
              (md5_int client_ip mod Z.of_nat (length backends)))
    as (b & Hb & _).
  { apply Z.mod_pos_bound. destruct backends; [done | simpl; lia]. }
  exists b. split; [exact Hb |]. split.
  - destruct (select_backend_cases md5_int (IPHash.clear_cache st) backends
                client_ip Hne Hip)
      as [(b' & Hb' & _) | (b' & _ & Hb' & ->)].
    + simpl in Hb'. by rewrite lookup_empty in Hb'.
    + cbn [fst]. congruence.
  - intros b0 Hb0.
    destruct (select_backend_cases md5_int (IPHash.remove_backend st b0)
                backends client_ip Hne Hip)
      as [(b' & Hb' & _) | (b' & _ & Hb' & ->)].
    + rewrite remove_backend_lookup, decide_True in Hb' by done. done.
    + cbn [fst]. congruence.
Qed.

Lemma rehash_after_invalidation_witness :
  exists b,
    ["b1"; "b2"; "b3"]%string
      !! Z.to_nat (toy_digest "10.0.0.7"
                   mod Z.of_nat (length ["b1"; "b2"; "b3"]%string))
    = Some b
    /\ fst (IPHash.select_backend toy_digest
              (IPHash.clear_cache ip_hash_after_b1)
              ["b1"; "b2"; "b3"]%string "10.0.0.7") = Return (Some b)
    /\ forall b0,
         IPHash.backend_cache ip_hash_after_b1 !! "10.0.0.7"%string = Some b0 ->
         fst (IPHash.select_backend toy_digest
                (IPHash.remove_backend ip_hash_after_b1 b0)
                ["b1"; "b2"; "b3"]%string "10.0.0.7") = Return (Some b).
Proof.
  apply (rehash_after_invalidation toy_digest ip_hash_after_b1
           ["b1"; "b2"; "b3"]%string "10.0.0.7").
  - discriminate.
  - discriminate.
Defined.

(** ** Connection pool: stopping, starting and reuse *)

Lemma dict_del_length_present {V} (d : list (Z * V)) (k : Z) :
  is_Some (ConnectionPool.dict_get d k) ->
  S (length (ConnectionPool.dict_del d k)) = length d.
Proof.
  induction d as [| [k' v'] d IH]; simpl.
  - by intros [? ?].
  - destruct (decide (k' = k)); [done |]. intros H. simpl. by rewrite IH.
Qed.

Lemma dict_get_set_eq {V} (d : list (Z * V)) (k : Z) (v : V) :
  ConnectionPool.dict_get (ConnectionPool.dict_set d k v) k = Some v.
Proof.
  induction d as [| [k' v'] d IH]; simpl.
  - by rewrite decide_True.
  - destruct (decide (k' = k)) as [-> | Hne]; simpl.
    + by rewrite decide_True.
    + by rewrite decide_False.
Qed.

Lemma close_connection_refused (p : ConnectionPool.t)
    (conn : ConnectionPool.PooledConnection) :
  refuses_close conn = true -> ConnectionPool._close_connection p conn = p.
Proof.
  unfold refuses_close, ConnectionPool._close_connection. by intros ->.
Qed.

Lemma close_connection_present (p : ConnectionPool.t)
    (conn : ConnectionPool.PooledConnection) :
  refuses_close conn = false ->
  is_Some (ConnectionPool.dict_get (ConnectionPool.connections p)
             (ConnectionPool.connection_id conn)) ->
  S (length (ConnectionPool.connections
               (ConnectionPool._close_connection p conn)))
  = length (ConnectionPool.connections p)
  /\ ConnectionPool.running (ConnectionPool._close_connection p conn)
     = ConnectionPool.running p
  /\ ConnectionPool.available (ConnectionPool._close_connection p conn)
     = ConnectionPool.available p.
Proof.
  unfold refuses_close, ConnectionPool._close_connection. intros -> Hin.
  pose proof (dict_del_length_present _ _ Hin) as Hlen.
  destruct Hin as [c ->]. simpl. by split.
Qed.

Lemma stop_loop_all_refuse (expected : nat)
    (pending : list (Z * ConnectionPool.PooledConnection)) :
  forall q : ConnectionPool.t,
    length (ConnectionPool.connections q) = expected ->
    Forall (fun kc => refuses_close kc.2 = true) pending ->
    ConnectionPool.stop_loop pending expected q = (Return tt, q).
Proof.
  induction pending as [| [k conn] pending IH]; intros q Hlen Hall.
  - simpl. by rewrite Hlen, Nat.eqb_refl.
  - apply Forall_cons in Hall as [Hc Hall]. simpl in Hc.
    cbn [ConnectionPool.stop_loop]. rewrite Hlen, Nat.eqb_refl. cbn [negb].
    rewrite close_connection_refused by done. by apply IH.
Qed.

Lemma stop_loop_raises (expected : nat)
    (pending : list (Z * ConnectionPool.PooledConnection)) :
  forall q : ConnectionPool.t,
    length (ConnectionPool.connections q) = expected ->
    Exists (fun kc => refuses_close kc.2 = false) pending ->
    Forall (fun kc =>
              is_Some (ConnectionPool.dict_get (ConnectionPool.connections q)
                         (ConnectionPool.connection_id kc.2))) pending ->
    fst (ConnectionPool.stop_loop pending expected q) = Raise RuntimeError
    /\ S (length (ConnectionPool.connections
                    (snd (ConnectionPool.stop_loop pending expected q))))
       = expected
    /\ ConnectionPool.running
         (snd (ConnectionPool.stop_loop pending expected q))
       = ConnectionPool.running q
    /\ ConnectionPool.available
         (snd (ConnectionPool.stop_loop pending expected q))
       = ConnectionPool.available q.
Proof.
  induction pending as [| [k conn] pending IH]; intros q Hlen Hex Hin.
  - by apply Exists_nil in Hex.
  - apply Forall_cons in Hin as [Hc Hin]. simpl in Hc.
    cbn [ConnectionPool.stop_loop]. rewrite Hlen, Nat.eqb_refl. cbn [negb].
    destruct (refuses_close conn) eqn:Href.
    + rewrite close_connection_refused by done. apply IH; [done | | done].
      apply Exists_cons in Hex as [Hex | Hex]; [simpl in Hex; congruence | done].
    + destruct (close_connection_present q conn Href Hc) as (Hl & Hr & Ha).
      assert (Hne : (length (ConnectionPool.connections
                               (ConnectionPool._close_connection q conn))
                     =? expected)%nat = false)
        by (apply Nat.eqb_neq; lia).
      destruct pending as [| kc rest]; cbn [ConnectionPool.stop_loop];
        rewrite Hne; cbn [negb fst snd]; (split; [done |]);
        (split; [lia | by split]).
Qed.

(** What [stop] does in general: it returns normally exactly when closing
    raises for every connection of the pool (or there is none), and then
    the pool is emptied; as soon as one connection closes, the dict has
    changed size under the loop, [stop] raises [RuntimeError], and the pool
    is left with all but that one connection and with its queue
    untouched. *)
Theorem stop_raises_once_a_connection_closes (p : ConnectionPool.t) :
  ids_ok p ->
  (Forall (fun kc => refuses_close kc.2 = true) (ConnectionPool.connections p) ->
   ConnectionPool.stop p = (Return tt, stopped p))
  /\ (Exists (fun kc => refuses_close kc.2 = false)
        (ConnectionPool.connections p) ->
      fst (ConnectionPool.stop p) = Raise RuntimeError
      /\ ConnectionPool.total (snd (ConnectionPool.stop p))
         = ConnectionPool.total p - 1
      /\ ConnectionPool.running (snd (ConnectionPool.stop p)) = false
      /\ ConnectionPool.available (snd (ConnectionPool.stop p))
         = ConnectionPool.available p).
Proof.
  intros Hids. unfold ConnectionPool.stop. cbv zeta. split.
  - intros Hall.
    rewrite (stop_loop_all_refuse _ _ (ConnectionPool.set_running p false));
      done.
  - intros Hex.
    destruct (stop_loop_raises
                (length (ConnectionPool.connections
                           (ConnectionPool.set_running p false)))
                (ConnectionPool.connections
                   (ConnectionPool.set_running p false))
                (ConnectionPool.set_running p false))
      as (Hr & Hl & Hrun & Hav); [done | exact Hex | |].
    + simpl. apply Forall_forall. intros [k conn] Hin.
      unfold ids_ok in Hids. rewrite Forall_forall in Hids.
      destruct (Hids _ Hin) as [Hid _]. simpl in Hid. simpl. rewrite Hid.
      by apply (elem_dict_get_is_Some _ _ conn).
    + destruct (ConnectionPool.stop_loop _ _ _) as [[[] | e] p2];
        [discriminate |].
      cbn [fst snd] in *. split; [done |].
      unfold ConnectionPool.total. simpl in Hl. split; [lia | by split].
Qed.

Lemma stop_raises_once_a_connection_closes_witness :
  fst (ConnectionPool.stop
         (snd (ConnectionPool.acquire started_pool 1)))
  = Raise RuntimeError.
Proof.
  refine (proj1 (proj2 (stop_raises_once_a_connection_closes
                          (snd (ConnectionPool.acquire started_pool 1)) _)
                   _)).
  - unfold ids_ok. vm_compute. repeat constructor.
  - apply Exists_cons. left. reflexivity.
Defined.

Lemma find_by_handle_connection
    (d : list (Z * ConnectionPool.PooledConnection))
    (h : ConnectionPool.handle) (conn : ConnectionPool.PooledConnection) :
  ConnectionPool.find_by_handle d h = Some conn ->
  ConnectionPool.connection conn = h.
Proof.
  induction d as [| [k c] d IH]; simpl; [done |].
  destruct (decide (ConnectionPool.connection c = h)) as [Hc | _]; [| exact IH].
  by intros [= <-].
Qed.

Lemma find_by_handle_first
    (d : list (Z * ConnectionPool.PooledConnection))
    (h : ConnectionPool.handle) (conn : ConnectionPool.PooledConnection) :
  ConnectionPool.find_by_handle d h = Some conn ->
  exists d1 k d2,
    d = d1 ++ (k, conn) :: d2
    /\ Forall (fun kc => ConnectionPool.connection kc.2 <> h) d1.
Proof.
  induction d as [| [k c] d IH]; simpl; [done |].
  destruct (decide (ConnectionPool.connection c = h)) as [Hc | Hc].
  - intros [= <-]. exists [], k, d. by split.
  - intros Hf. destruct (IH Hf) as (d1 & k' & d2 & -> & Hall).
    exists ((k, c) :: d1), k', d2. split; [done |]. by constructor.
Qed.

(** A released connection is the next one handed out: with an empty queue,
    [release] of a handle the pool holds marks the first connection with
    that handle idle and queues it, and the [acquire] that follows returns
    that handle again, counts a reuse and creates nothing; a handle the pool
    does not hold is ignored. *)
Theorem release_then_acquire_reuses (p : ConnectionPool.t)
    (h : ConnectionPool.handle) (now now' : Q) :
  ConnectionPool.available p = [] ->
  (ConnectionPool.find_by_handle (ConnectionPool.connections p) h = None ->
   ConnectionPool.release p h now = p)
  /\ (forall conn,
        ConnectionPool.find_by_handle (ConnectionPool.connections p) h
        = Some conn ->
        let p1 := ConnectionPool.release p h now in
        let r := ConnectionPool.acquire p1 now' in
        (exists d1 k d2,
           ConnectionPool.connections p = d1 ++ (k, conn) :: d2
           /\ Forall (fun kc => ConnectionPool.connection kc.2 <> h) d1)
        /\ ConnectionPool.available p1 = [ConnectionPool.connection_id conn]
        /\ fst r = Some h
        /\ ConnectionPool.available (snd r) = []
        /\ ConnectionPool.dict_get (ConnectionPool.connections (snd r))
             (ConnectionPool.connection_id conn)
           = Some (ConnectionPool.mark_used
                     (ConnectionPool.mark_idle conn now) now')
        /\ ConnectionPool.reused_connections (ConnectionPool.stats (snd r))
           = ConnectionPool.reused_connections (ConnectionPool.stats p) + 1
        /\ ConnectionPool.created_connections (ConnectionPool.stats (snd r))
           = ConnectionPool.created_connections (ConnectionPool.stats p)).
Proof.
  intros Hav. split.
  - intros Hnone. unfold ConnectionPool.release. by rewrite Hnone.
  - intros conn Hfind p1 r.
    pose proof (find_by_handle_connection _ _ _ Hfind) as Hconn.
    split; [by apply find_by_handle_first |].
    subst r p1. unfold ConnectionPool.release. rewrite Hfind, Hav.
    unfold ConnectionPool.acquire.
    cbn [ConnectionPool.available ConnectionPool.set_stats
         ConnectionPool.set_available ConnectionPool.set_connections
         ConnectionPool.connections app].
    split; [done |].
    rewrite dict_get_set_eq.
    cbn [fst snd ConnectionPool.available ConnectionPool.set_stats
         ConnectionPool.set_available ConnectionPool.set_connections
         ConnectionPool.connections ConnectionPool.stats
         ConnectionPool.stats_on_acquire ConnectionPool.reused_connections
         ConnectionPool.created_connections ConnectionPool.mark_idle
         ConnectionPool.connection].
    split; [by rewrite Hconn |]. split; [done |].
    split; [apply dict_get_set_eq |]. by split.
Qed.

Lemma release_then_acquire_reuses_witness :
  fst (ConnectionPool.acquire
         (ConnectionPool.release started_pool
            ConnectionPool.simulated_handle 1) 2)
  = Some ConnectionPool.simulated_handle.
Proof.
  destruct (release_then_acquire_reuses started_pool
              ConnectionPool.simulated_handle 1 2 eq_refl) as [_ H].
  destruct (H _ eq_refl) as (_ & _ & Hr & _).
  exact Hr.
Defined.

Lemma create_connection_frame (p : ConnectionPool.t) (now : Q) :
  let p' := snd (ConnectionPool._create_connection p now) in
  ConnectionPool.available p' = ConnectionPool.available p
  /\ ConnectionPool.running p' = ConnectionPool.running p
  /\ ConnectionPool.reused_connections (ConnectionPool.stats p')
     = ConnectionPool.reused_connections (ConnectionPool.stats p)
  /\ ConnectionPool.pool_exhausted_count (ConnectionPool.stats p')
     = ConnectionPool.pool_exhausted_count (ConnectionPool.stats p).
Proof.
  unfold ConnectionPool._create_connection.
  destruct (_ <=? _); [done |].
  destruct (ConnectionPool.connection_factory p) as [f |]; simpl; [| done].
  by destruct (f _).
Qed.

Lemma create_n_frame (now : Q) (n : nat) :
  forall p : ConnectionPool.t,
    let p' := ConnectionPool.create_n n p now in
    ConnectionPool.available p' = ConnectionPool.available p
    /\ ConnectionPool.running p' = ConnectionPool.running p
    /\ ConnectionPool.reused_connections (ConnectionPool.stats p')
       = ConnectionPool.reused_connections (ConnectionPool.stats p)
    /\ ConnectionPool.pool_exhausted_count (ConnectionPool.stats p')
       = ConnectionPool.pool_exhausted_count (ConnectionPool.stats p).
Proof.
  induction n as [| n IH]; intros p; [done |].
  cbn [ConnectionPool.create_n]. cbv zeta.
  destruct (IH (snd (ConnectionPool._create_connection p now)))
    as (H1 & H2 & H3 & H4).
  destruct (create_connection_frame p now) as (G1 & G2 & G3 & G4).
  rewrite H1, H2, H3, H4. by repeat split.
Qed.

Lemma acquire_new_simulated (cfg : ConnectionPool.PoolConfig)
    (p : ConnectionPool.t) (now : Q) :
  pool_ok cfg None p ->
  ConnectionPool.total p < ConnectionPool.max_connections cfg ->
  let r := ConnectionPool.acquire_new p now in
  fst r = Some ConnectionPool.simulated_handle
  /\ ConnectionPool.total (snd r) = ConnectionPool.total p + 1
  /\ ConnectionPool.reused_connections (ConnectionPool.stats (snd r))
     = ConnectionPool.reused_connections (ConnectionPool.stats p)
  /\ ConnectionPool.pool_exhausted_count (ConnectionPool.stats (snd r))
     = ConnectionPool.pool_exhausted_count (ConnectionPool.stats p).
Proof.
  intros (Hcfg & Hfac & Hids & Hmax) Hroom r. subst r.
  unfold ConnectionPool.acquire_new, ConnectionPool._create_connection.
  rewrite Hcfg, Hfac.
  replace (ConnectionPool.max_connections cfg <=? ConnectionPool.total p)
    with false by lia.
  cbv zeta.
  cbn [ConnectionPool.set_stats ConnectionPool.set_connections
       ConnectionPool.connections ConnectionPool.stats].
  rewrite dict_get_set_eq.
  cbn [fst snd ConnectionPool.connection ConnectionPool.stats
       ConnectionPool.set_stats ConnectionPool.set_connections
       ConnectionPool.stats_on_acquire ConnectionPool.reused_connections
       ConnectionPool.pool_exhausted_count].
  split; [done |]. split; [| by split].
  unfold ConnectionPool.total.
  cbn [ConnectionPool.connections ConnectionPool.set_stats
       ConnectionPool.set_connections].
  rewrite dict_set_length_present
    by (rewrite dict_get_set_eq; by eexists).
  rewrite dict_set_fresh
    by (apply dict_get_None_below; by apply ids_ok_keys_below).
  rewrite length_app. simpl. lia.
Qed.

Lemma acquire_new_exhausted (p : ConnectionPool.t) (now : Q) :
  ConnectionPool.max_connections (ConnectionPool.config p)
  <= ConnectionPool.total p ->
  let r := ConnectionPool.acquire_new p now in
  fst r = None
  /\ ConnectionPool.connections (snd r) = ConnectionPool.connections p
  /\ ConnectionPool.pool_exhausted_count (ConnectionPool.stats (snd r))
     = ConnectionPool.pool_exhausted_count (ConnectionPool.stats p) + 1.
Proof.
  intros Hfull r. subst r.
  unfold ConnectionPool.acquire_new, ConnectionPool._create_connection.
  replace (_ <=? _) with true by lia. by simpl.
Qed.

(** [start] creates [min_connections] connections but queues none of them,
    and a second [start] does nothing.  So the first [acquire] on a started
    pool never reuses one of them: below [max_connections] it creates one
    more connection, and with [min_connections = max_connections] it
    returns [None] and counts an exhaustion, although every connection of
    the pool is idle. *)
Theorem first_acquire_after_start (cfg : ConnectionPool.PoolConfig)
    (now now' now'' : Q) :
  0 <= ConnectionPool.min_connections cfg <= ConnectionPool.max_connections cfg ->
  let p := ConnectionPool.start (ConnectionPool.init cfg None) now in
  let r := ConnectionPool.acquire p now'' in
  ConnectionPool.total p = ConnectionPool.min_connections cfg
  /\ ConnectionPool.available p = []
  /\ ConnectionPool.start p now' = p
  /\ (ConnectionPool.min_connections cfg < ConnectionPool.max_connections cfg ->
      fst r = Some ConnectionPool.simulated_handle
      /\ ConnectionPool.total (snd r) = ConnectionPool.min_connections cfg + 1
      /\ ConnectionPool.reused_connections (ConnectionPool.stats (snd r)) = 0)
  /\ (ConnectionPool.min_connections cfg = ConnectionPool.max_connections cfg ->
      fst r = None
      /\ ConnectionPool.connections (snd r) = ConnectionPool.connections p
      /\ ConnectionPool.pool_exhausted_count (ConnectionPool.stats (snd r)) = 1).
Proof.
  intros Hmm p r.
  assert (Hinit : pool_ok cfg None
                    (ConnectionPool.set_running
                       (ConnectionPool.init cfg None) true)).
  { split; [done |]. split; [done |]. split; [constructor |].
    unfold ConnectionPool.total; simpl. lia. }
  destruct (create_n_ok cfg None now I
              (Z.to_nat (ConnectionPool.min_connections cfg)) _ Hinit)
    as [Hok Htot].
  destruct (create_n_frame now (Z.to_nat (ConnectionPool.min_connections cfg))
              (ConnectionPool.set_running (ConnectionPool.init cfg None) true))
    as (Hav & Hrun & Hreu & Hexh).
  change (ConnectionPool.create_n _ _ now) with p in Hok, Htot, Hav, Hrun,
    Hreu, Hexh.
  simpl in Hav, Hrun, Hreu, Hexh.
  assert (Htotal : ConnectionPool.total p = ConnectionPool.min_connections cfg).
  { rewrite Htot. unfold ConnectionPool.total at 1. simpl. lia. }
  split; [exact Htotal |]. split; [exact Hav |]. split.
  { unfold ConnectionPool.start at 1. by rewrite Hrun. }
  subst r. unfold ConnectionPool.acquire. rewrite Hav. split.
  - intros Hlt.
    destruct (acquire_new_simulated cfg p now'' Hok ltac:(lia))
      as (Hr & Ht & Hre & _).
    split; [exact Hr |]. split; [lia | congruence].
  - intros Heq.
    destruct (acquire_new_exhausted p now'') as (Hr & Hc & He).
    { destruct Hok as (-> & _). lia. }
    split; [exact Hr |]. split; [exact Hc | lia].
Qed.

Lemma first_acquire_after_start_witness :
  ConnectionPool.total
    (ConnectionPool.start
       (ConnectionPool.init ConnectionPool.default_config None) 0)
  = ConnectionPool.min_connections ConnectionPool.default_config
  /\ ConnectionPool.available
       (ConnectionPool.start
          (ConnectionPool.init ConnectionPool.default_config None) 0)
     = [].
Proof.
  pose proof (first_acquire_after_start ConnectionPool.default_config 0 1 2
                ltac:(simpl; lia)) as (Ht & Ha & _).
  split; [exact Ht | exact Ha].
Defined.

Lemma dict_get_set_ne {V} (d : list (Z * V)) (k id : Z) (v : V) :
  k <> id ->
  ConnectionPool.dict_get (ConnectionPool.dict_set d k v) id
  = ConnectionPool.dict_get d id.
Proof.
  intros Hne. induction d as [| [k' v'] d IH]; simpl.
  - by rewrite decide_False.
  - destruct (decide (k' = k)) as [-> | Hk]; simpl.
    + by rewrite !decide_False.
    + by rewrite IH.
Qed.

Lemma dict_get_del_ne {V} (d : list (Z * V)) (k id : Z) :
  k <> id ->
  ConnectionPool.dict_get (ConnectionPool.dict_del d k) id
  = ConnectionPool.dict_get d id.
Proof.
  intros Hne. induction d as [| [k' v'] d IH]; simpl; [done |].
  destruct (decide (k' = k)) as [-> | Hk]; simpl.
  - by rewrite decide_False.
  - by rewrite IH.
Qed.

Lemma dict_get_NoDup {V} (d : list (Z * V)) (k : Z) (v v' : V) :
  NoDup d.*1 -> ConnectionPool.dict_get d k = Some v -> (k, v') ∈ d -> v' = v.
Proof.
  induction d as [| [k0 v0] d IH]; simpl; [done |].
  intros Hnd Hget Hin. apply NoDup_cons in Hnd as [Hk0 Hnd].
  destruct (decide (k0 = k)) as [-> | Hne].
  - injection Hget as ->.
    apply elem_of_cons in Hin as [[= ->] | Hin]; [done |].
    exfalso. apply Hk0. apply list_elem_of_fmap. by exists (k, v').
  - apply elem_of_cons in Hin as [[= -> ->] | Hin]; [done |]. by apply IH.
Qed.

Lemma close_connection_keeps (p : ConnectionPool.t)
    (c : ConnectionPool.PooledConnection) (id : Z) :
  ConnectionPool.connection_id c <> id ->
  ConnectionPool.dict_get
    (ConnectionPool.connections (ConnectionPool._close_connection p c)) id
  = ConnectionPool.dict_get (ConnectionPool.connections p) id.
Proof.
  intros Hne. unfold ConnectionPool._close_connection.
  destruct (_ && _); [done |].
  destruct (ConnectionPool.dict_get _ (ConnectionPool.connection_id c));
    [| done].
  simpl. by apply dict_get_del_ne.
Qed.

Lemma close_all_keeps (marked : list ConnectionPool.PooledConnection)
    (id : Z) :
  Forall (fun c => ConnectionPool.connection_id c <> id) marked ->
  forall p : ConnectionPool.t,
    ConnectionPool.dict_get
      (ConnectionPool.connections
         (foldl ConnectionPool._close_connection p marked)) id
    = ConnectionPool.dict_get (ConnectionPool.connections p) id.
Proof.
  induction 1 as [| c marked Hc _ IH]; intros p; [done |].
  cbn [foldl]. rewrite IH. by apply close_connection_keeps.
Qed.

Lemma create_connection_keeps (p : ConnectionPool.t) (now : Q) (id : Z)
    (conn : ConnectionPool.PooledConnection) :
  ids_ok p ->
  ConnectionPool.dict_get (ConnectionPool.connections p) id = Some conn ->
  ConnectionPool.dict_get
    (ConnectionPool.connections (snd (ConnectionPool._create_connection p now)))
    id
  = Some conn.
Proof.
  intros Hids Hget.
  assert (Hlt : id < ConnectionPool.created_connections (ConnectionPool.stats p)).
  { apply dict_get_Some_elem in Hget.
    unfold ids_ok in Hids. rewrite Forall_forall in Hids.
    by destruct (Hids _ Hget) as [_ Hk]. }
  unfold ConnectionPool._create_connection.
  destruct (_ <=? _); [done |].
  destruct (ConnectionPool.connection_factory p) as [f |]; simpl.
  - destruct (f _); simpl; [| done].
    rewrite dict_get_set_ne by lia. done.
  - rewrite dict_get_set_ne by lia. done.
Qed.

Lemma top_up_keeps (cfg : ConnectionPool.PoolConfig)
    (factory : option (nat -> option ConnectionPool.handle)) (now : Q)
    (id : Z) (conn : ConnectionPool.PooledConnection) (fuel : nat) :
  forall p p' : ConnectionPool.t,
    pool_ok cfg factory p ->
    ConnectionPool.dict_get (ConnectionPool.connections p) id = Some conn ->
    ConnectionPool.top_up fuel p now = Some p' ->
    ConnectionPool.dict_get (ConnectionPool.connections p') id = Some conn.
Proof.
  induction fuel as [| fuel IH]; intros p p' Hok Hget; simpl.
  - destruct (_ <=? _); [by intros [= <-] | done].
  - destruct (_ <=? _); [by intros [= <-] |].
    destruct (create_connection_ok cfg factory p now Hok) as (Hok1 & _).
    pose proof (create_connection_keeps p now id conn
                  ltac:(by destruct Hok as (_ & _ & ? & _)) Hget) as Hget1.
    destruct (ConnectionPool._create_connection p now) as [[id1 |] p1];
      cbn [snd] in *.
    + apply IH; [| exact Hget1].
      destruct Hok1 as (H1 & H2 & H3 & H4). by repeat split.
    + by intros [= <-].
Qed.

(** Maintenance never closes a connection that is in use: whatever it
    closes and creates, every connection of the pool that is not idle is
    still in the pool afterwards, unchanged and under the same id. *)
Theorem maintenance_spares_connections_in_use
    (cfg : ConnectionPool.PoolConfig)
    (factory : option (nat -> option ConnectionPool.handle))
    (fuel : nat) (p p' : ConnectionPool.t) (now : Q) :
  pool_ok cfg factory p ->
  NoDup (ConnectionPool.connections p).*1 ->
  ConnectionPool._perform_maintenance fuel p now = Some p' ->
  forall id conn,
    ConnectionPool.dict_get (ConnectionPool.connections p) id = Some conn ->
    ConnectionPool.state conn <> ConnectionPool.IDLE ->
    ConnectionPool.dict_get (ConnectionPool.connections p') id = Some conn.
Proof.
  intros Hok Hnd Hrun id conn Hget Hbusy.
  unfold ConnectionPool._perform_maintenance in Hrun. cbv zeta in Hrun.
  destruct (close_all_ok cfg factory (ConnectionPool.connections_to_close p now)
              p Hok) as [Hok1 _].
  apply (top_up_keeps cfg factory now id conn fuel _ p' Hok1); [| exact Hrun].
  rewrite close_all_keeps; [exact Hget |].
  apply Forall_forall. intros c Hc Hid.
  unfold ConnectionPool.connections_to_close in Hc.
  apply list_elem_of_fmap in Hc as ([k c'] & -> & Hin).
  apply list_elem_of_filter in Hin as [(Hidle & _) Hin]. simpl in *.
  destruct Hok as (_ & _ & Hids & _).
  unfold ids_ok in Hids. rewrite Forall_forall in Hids.
  destruct (Hids _ Hin) as [Hk _]. simpl in Hk. subst k. rewrite Hid in Hin.
  pose proof (dict_get_NoDup _ _ _ _ Hnd Hget Hin) as ->. done.
Qed.

Lemma maintenance_spares_connections_in_use_witness :
  exists p',
    ConnectionPool._perform_maintenance 5 busy_pool 4000 = Some p'
    /\ exists conn,
         ConnectionPool.dict_get (ConnectionPool.connections p') 5 = Some conn
         /\ ConnectionPool.state conn = ConnectionPool.IN_USE.
Proof.
  assert (Hrun : exists p',
            ConnectionPool._perform_maintenance 5 busy_pool 4000 = Some p')
    by (eexists; vm_compute; reflexivity).
  destruct Hrun as [p' Hrun]. exists p'. split; [exact Hrun |].
  assert (Hget : exists conn,
            ConnectionPool.dict_get (ConnectionPool.connections busy_pool) 5
            = Some conn
            /\ ConnectionPool.state conn = ConnectionPool.IN_USE)
    by (eexists; split; vm_compute; reflexivity).
  destruct Hget as (conn & Hget & Hst). exists conn. split; [| exact Hst].
  apply (maintenance_spares_connections_in_use ConnectionPool.default_config
           None 5 busy_pool p' 4000).
  - split; [reflexivity |]. split; [reflexivity |].
    split; [unfold ids_ok; vm_compute; repeat constructor |].
    vm_compute. discriminate.
  - apply (bool_decide_unpack _). vm_compute. exact I.
  - exact Hrun.
  - exact Hget.
  - rewrite Hst. discriminate.
Defined.

(** ** Circuit breaker: successes across a reopening *)

(** The successes a Half-Open breaker has counted survive a failure: the
    failed probe reopens the breaker but leaves [success_count] as it was,
    so after the cooldown the next successful call counts on from there, and
    closes the breaker if that reaches [success_threshold]; the successes
    that close a breaker need not be consecutive. *)
Theorem half_open_successes_survive_reopening
    (cb : CircuitBreaker.t) (now now' t t' : Q) :
  CircuitBreaker.state cb = CircuitBreaker.HALF_OPEN ->
  (CircuitBreaker.timeout (CircuitBreaker.config cb) <= t - now')%Q ->
  let reopened := snd (CircuitBreaker.call cb now now' false) in
  let probed := snd (CircuitBreaker.call reopened t t' true) in
  CircuitBreaker.state reopened = CircuitBreaker.OPEN
  /\ CircuitBreaker.success_count reopened = CircuitBreaker.success_count cb
  /\ fst (CircuitBreaker.call reopened t t' true) = Return true
  /\ if CircuitBreaker.success_threshold (CircuitBreaker.config cb)
        <=? CircuitBreaker.success_count cb + 1
     then CircuitBreaker.state probed = CircuitBreaker.CLOSED
     else CircuitBreaker.state probed = CircuitBreaker.HALF_OPEN
          /\ CircuitBreaker.success_count probed
             = CircuitBreaker.success_count cb + 1.
Proof.
  intros Hhalf Hcool reopened probed.
  assert (Hre : CircuitBreaker.state reopened = CircuitBreaker.OPEN
                /\ CircuitBreaker.success_count reopened
                   = CircuitBreaker.success_count cb
                /\ CircuitBreaker.last_failure_time reopened = now'
                /\ CircuitBreaker.config reopened = CircuitBreaker.config cb).
  { subst reopened probed. destruct cb as [cfg st fc sc lft h stats].
    simpl in Hhalf. subst st.
    unfold CircuitBreaker.call, CircuitBreaker.call_admit,
      CircuitBreaker._should_attempt_reset, CircuitBreaker._record_failure,
      CircuitBreaker._change_state, CircuitBreaker.with_stats; simpl. done. }
  destruct Hre as (Hst & Hsc & Hlft & Hcfg).
  split; [exact Hst |]. split; [exact Hsc |].
  subst probed. clearbody reopened.
  destruct reopened as [cfg st fc sc lft h stats].
  simpl in Hst, Hsc, Hlft, Hcfg. subst st sc lft cfg.
  apply Qle_bool_iff in Hcool.
  unfold CircuitBreaker.call, CircuitBreaker.call_admit,
    CircuitBreaker._should_attempt_reset, CircuitBreaker._record_success,
    CircuitBreaker._change_state, CircuitBreaker.with_stats; simpl.
  rewrite Hcool. simpl. split; [done |].
  destruct (_ <=? _); simpl; done.
Qed.

Lemma half_open_successes_survive_reopening_witness :
  CircuitBreaker.state
    (snd (CircuitBreaker.call
            (snd (CircuitBreaker.call probing_breaker 110 111 false))
            200 201 true))
  = CircuitBreaker.CLOSED.
Proof.
  assert (Hhalf : CircuitBreaker.state probing_breaker
                  = CircuitBreaker.HALF_OPEN) by (vm_compute; reflexivity).
  assert (Hcool : (CircuitBreaker.timeout (CircuitBreaker.config probing_breaker)
                   <= 200 - 111)%Q)
    by (apply Qle_bool_iff; vm_compute; reflexivity).
  pose proof (half_open_successes_survive_reopening probing_breaker
                110 111 200 201 Hhalf Hcool) as H.
  cbv zeta in H. destruct H as (_ & _ & _ & H).
  assert (Hthr : (CircuitBreaker.success_threshold
                    (CircuitBreaker.config probing_breaker)
                  <=? CircuitBreaker.success_count probing_breaker + 1) = true)
    by (vm_compute; reflexivity).
  rewrite Hthr in H. exact H.
Defined.

(** ** Token bucket *)

Lemma allow_request_counts (tb : TokenBucket.t) (now : float) (cost : Z) :
  let r := TokenBucket.allow_request tb now cost in
  total_requests (TokenBucket.stats (snd r))
  = total_requests (TokenBucket.stats tb) + 1
  /\ accepted_requests (TokenBucket.stats (snd r))
     = accepted_requests (TokenBucket.stats tb) + admissions [fst r]
  /\ rejected_requests (TokenBucket.stats (snd r))
     = rejected_requests (TokenBucket.stats tb) + rejections [fst r].
Proof.
  unfold TokenBucket.allow_request, TokenBucket._refill_tokens.
  cbn [TokenBucket.tokens TokenBucket.with_stats TokenBucket.stats
       TokenBucket.capacity TokenBucket.rate TokenBucket.last_update].
  destruct (num_add_float _ _) as [refilled | e]; [| cbn; lia].
  cbn [TokenBucket.tokens].
  destruct (num_ge_int _ cost); [| cbn; lia].
  destruct (num_sub_int _ cost); cbn; lia.
Qed.

(** The counters of the token bucket: every call is counted once in
    [total_requests], an admitted call once more in [accepted_requests], a
    rejected one in [rejected_requests], and a call that raised (an
    [OverflowError] of an int with no double) in neither. *)
Theorem token_bucket_counts_calls
    (tb : TokenBucket.t) (calls : list (float * Z)) :
  let rs := fst (TokenBucket.allow_requests tb calls) in
  let tb' := snd (TokenBucket.allow_requests tb calls) in
  length rs = length calls
  /\ total_requests (TokenBucket.stats tb')
     = total_requests (TokenBucket.stats tb) + Z.of_nat (length calls)
  /\ accepted_requests (TokenBucket.stats tb')
     = accepted_requests (TokenBucket.stats tb) + admissions rs
  /\ rejected_requests (TokenBucket.stats tb')
     = rejected_requests (TokenBucket.stats tb) + rejections rs
  /\ Z.of_nat (length calls)
     = admissions rs + rejections rs + raises rs.
Proof.
  revert tb. induction calls as [| [now cost] calls IH]; intros tb.
  - cbn. lia.
  - cbn [TokenBucket.allow_requests].
    pose proof (allow_request_counts tb now cost) as Hone. cbv zeta in Hone.
    destruct (TokenBucket.allow_request tb now cost) as [r tb1].
    specialize (IH tb1). cbv zeta in IH.
    destruct (TokenBucket.allow_requests tb1 calls) as [rs tb2].
    cbn [fst snd] in *. destruct Hone as (Ht & Ha & Hr).
    destruct IH as (Hlen & Ht' & Ha' & Hr' & Hsum).
    rewrite Ht', Ha', Hr', Ht, Ha, Hr.
    cbn [length]. rewrite Nat2Z.inj_succ.
    destruct r as [[] | e]; cbn [admissions rejections raises];
      repeat split; lia.
Qed.

(** A refill whose computed [elapsed * rate] is a nan fills the bucket:
    [min(capacity, nan)] is the capacity.  So a bucket with an infinite
    rate asked again at the instant of its last update admits any cost up to
    its capacity, whatever it held. *)
Theorem nan_refill_fills_bucket
    (tb : TokenBucket.t) (now : float) (cost : Z) :
  bucket_in_service tb ->
  Prim2SF ((now - TokenBucket.last_update tb) * TokenBucket.rate tb)
  = S754_nan ->
  cost <= TokenBucket.capacity tb ->
  exists tb',
    TokenBucket.allow_request tb now cost = (Return true, tb')
    /\ TokenBucket.tokens tb' = PInt (TokenBucket.capacity tb - cost).
Proof.
  intros Hserv Hnan Hcost.
  destruct (in_service_steady tb Hserv) as (Hcap & [full Hfull] & _ & Htok).
  set (p := ((now - TokenBucket.last_update tb) * TokenBucket.rate tb)%float)
    in *.
  assert (Hsum : exists refilled,
             num_add_float (TokenBucket.tokens tb) p = Return refilled
             /\ Prim2SF refilled = S754_nan).
  { destruct (TokenBucket.tokens tb) as [n | x]; cbn [num_add_float].
    - destruct (float_of_int_returns n _ full Htok Hfull) as (c & Hc & _).
      rewrite Hc. eexists. split; [reflexivity |].
      rewrite add_spec, Hnan. unfold SF64add. by destruct (Prim2SF c).
    - eexists. split; [reflexivity |].
      rewrite add_spec, Hnan. unfold SF64add. by destruct (Prim2SF x). }
  destruct Hsum as (refilled & Hsum & Hr).
  assert (Hmin : py_min (TokenBucket.capacity tb) refilled
                 = PInt (TokenBucket.capacity tb)).
  { unfold py_min, float_lt_int, float_compare_int. by rewrite Hr. }
  unfold TokenBucket.allow_request, TokenBucket._refill_tokens.
  cbn [TokenBucket.tokens TokenBucket.with_stats TokenBucket.stats
       TokenBucket.capacity TokenBucket.rate TokenBucket.last_update].
  fold p. rewrite Hsum. cbn [TokenBucket.tokens]. rewrite Hmin.
  cbn [num_ge_int num_sub_int].
  replace (cost <=? TokenBucket.capacity tb) with true by lia.
  eexists. split; reflexivity.
Qed.

Lemma nan_refill_fills_bucket_witness :
  exists tb',
    TokenBucket.allow_request unbounded_bucket 0 10 = (Return true, tb')
    /\ TokenBucket.tokens tb' = PInt 0.
Proof.
  apply (nan_refill_fills_bucket unbounded_bucket 0 10).
  - apply (service_init 10 infinity 0); [lia | reflexivity | reflexivity].
  - reflexivity.
  - vm_compute. discriminate.
Defined.
